(** * Electric-Current-Analogies: position kinematics, animation loop and
      rate estimators of the three simulations

    The three React components ([ElectricCircuit], [WaterCircuit],
    [PlaygroundSlide]) are embedded as pure functions over a component
    state.  JavaScript numbers are idealised as real numbers: [+ - * /]
    are the field operations of [R], [%] is the truncated remainder,
    [Math.floor] is [Int_part], [Math.sqrt] is [sqrt].  Entity ids and
    array lengths, which the code only ever builds from array indices,
    are integers ([Z]).  Every reading of [performance.now()] is an
    explicit argument. *)

From Stdlib Require Import Reals ZArith List Bool Lra Lia.
From Stdlib Require Import Permutation Sorted.
From Stdlib Require String.
Import ListNotations.

Open Scope R_scope.

(* ================================================================== *)
(** * JavaScript number operations *)

Module JS.

(** [Math.floor]. *)
Definition floor (v : R) : Z := Int_part v.

(** Rounding towards zero, the quotient behind [%]. *)
Definition trunc (v : R) : Z :=
  if Rle_dec 0 v then Int_part v else (- Int_part (- v))%Z.

(** [a % m] on numbers: the remainder has the sign of the dividend. *)
Definition rem (a m : R) : R := a - m * IZR (trunc (a / m)).

(** [Math.sqrt(v) || d]: a zero root is falsy and replaced by [d]. *)
Definition sqrt_or (v d : R) : R :=
  if Req_dec_T (sqrt v) 0 then d else sqrt v.

(** A quotient whose divisor is a run-time value: [None] stands for the
    non-finite result of dividing by zero. *)
Definition div_checked (a b : R) : option R :=
  if Req_dec_T b 0 then None else Some (a / b).

End JS.

(* ================================================================== *)
(** * Shared data *)

(** [interface Particle { id: number; progress: number }]; the playground's
    [Kid] has the same two fields. *)
Record Particle : Type := mkParticle { id : Z; progress : R }.

Definition Kid : Type := Particle.

(** [{ x, y }] as returned by the water and playground position functions. *)
Record Point : Type := mkPoint { px : R; py : R }.

(** [Array.from({ length: count }, (_, i) => ({ id: i, progress: (i / count) * total }))] *)
Definition seedEntities (count : Z) (total : R) : list Particle :=
  map (fun i : nat =>
         mkParticle (Z.of_nat i) ((IZR (Z.of_nat i) / IZR count) * total))
      (seq 0 (Z.to_nat count)).

(* ================================================================== *)
(** * ElectricCircuit *)

Module Electric.

Definition TOTAL_PATH_LENGTH : R := 1000.
Definition PARTICLE_COUNT : Z := 30.
Definition INITIAL_VOLTAGE : R := 50.
Definition INITIAL_WIRE_WIDTH : R := 50.
Definition CHARGE_PER_PARTICLE : R := 0.01.

(** [{ x, y, angle }] *)
Record Position : Type := mkPosition { x : R; y : R; angle : R }.

(** ** Lane offset (the first four lines of [getParticlePosition]) *)

Definition numLanes (width : R) : Z := Z.max 1 (JS.floor (width / 20)).

Definition lane (particleId : Z) (width : R) : Z :=
  Z.rem particleId (numLanes width).

Definition offsetRange (strokeWidth : R) : R := strokeWidth * 0.7.

Definition offset (particleId totalParticles : Z) (width strokeWidth : R) : R :=
  if (1 <? totalParticles)%Z
  then (IZR (lane particleId width) - (IZR (numLanes width) - 1) / 2)
       * (offsetRange strokeWidth / IZR (numLanes width))
  else 0.

(** ** The seven segment formulas, in the order of the [if] chain *)

Definition seg_0_250 (offset p : R) : Position :=
  let t := p / 250 in
  mkPosition (50 + t * 250) (50 + offset) 0.

Definition seg_250_325 (offset p : R) : Position :=
  let t := (p - 250) / 75 in
  mkPosition (300 + offset) (50 + t * 75) 90.

Definition seg_325_425 (offset p : R) : Position :=
  let t := (p - 325) / 100 in
  mkPosition (300 - t * 100) (125 + offset) 180.

Definition seg_425_500 (offset p : R) : Position :=
  let t := (p - 425) / 75 in
  mkPosition (200 + offset) (125 + t * 75) 90.

Definition seg_500_750 (offset p : R) : Position :=
  let t := (p - 500) / 250 in
  mkPosition (200 - t * 250) (200 + offset) 180.

Definition seg_750_900 (offset p : R) : Position :=
  let t := (p - 750) / 150 in
  mkPosition (-50 + offset) (200 - t * 150) 270.

Definition seg_900_1000 (offset p : R) : Position :=
  let t := (p - 900) / 100 in
  mkPosition (-50 + t * 100) (50 + offset) 0.

(** The [if] chain on [p], after the lane offset is known. *)
Definition positionAt (offset p : R) : Position :=
  if Rlt_dec p 250 then seg_0_250 offset p
  else if Rlt_dec p 325 then seg_250_325 offset p
  else if Rlt_dec p 425 then seg_325_425 offset p
  else if Rlt_dec p 500 then seg_425_500 offset p
  else if Rlt_dec p 750 then seg_500_750 offset p
  else if Rlt_dec p 900 then seg_750_900 offset p
  else seg_900_1000 offset p.

Definition getParticlePosition
  (progress : R) (particleId totalParticles : Z) (width strokeWidth : R)
  : Position :=
  let offset := offset particleId totalParticles width strokeWidth in
  let p := JS.rem progress TOTAL_PATH_LENGTH in
  positionAt offset p.

(** [wireStrokeWidth], the stroke width the component passes in. *)
Definition wireStrokeWidth (wireWidth : R) : R := 4 + (wireWidth / 100) * 8.

(** ** Component state: the [useState] cells, then the [useRef] cells *)

Record State : Type := mkState {
  isPlaying : bool;
  voltage : R;
  wireWidth : R;
  measureRate : bool;
  displayRate : R;
  particles : list Particle;
  particlesCrossed : Z;
  lastMeasureTime : R;
  measureRateRef : bool
}.

(** [useEffect(..., [measureRate])]: runs after mount and after every
    change of [measureRate]; [now] is its [performance.now()]. *)
Definition measureRateEffect (now : R) (s : State) : State :=
  if measureRate s
  then mkState (isPlaying s) (voltage s) (wireWidth s) (measureRate s)
               (displayRate s) (particles s)
               (particlesCrossed s) (lastMeasureTime s) (measureRate s)
  else mkState (isPlaying s) (voltage s) (wireWidth s) (measureRate s)
               0 (particles s)
               0%Z now (measureRate s).

(** [setMeasureRate(b)]: an unchanged value triggers nothing. *)
Definition setMeasureRate (b : bool) (now : R) (s : State) : State :=
  if Bool.eqb b (measureRate s) then s
  else measureRateEffect now
         (mkState (isPlaying s) (voltage s) (wireWidth s) b
                  (displayRate s) (particles s)
                  (particlesCrossed s) (lastMeasureTime s) (measureRateRef s)).

(** The state after mount, [t0] being the clock at that time. *)
Definition initialState (t0 : R) : State :=
  measureRateEffect t0
    (mkState true INITIAL_VOLTAGE INITIAL_WIRE_WIDTH false 0
             (seedEntities PARTICLE_COUNT TOTAL_PATH_LENGTH)
             0%Z t0 false).

(** The wrap test of the updater: [p.progress % L > 900 && newProgress % L <= 900]. *)
Definition crossed (progress newProgress : R) : bool :=
  if Rgt_dec (JS.rem progress TOTAL_PATH_LENGTH) 900
  then if Rle_dec (JS.rem newProgress TOTAL_PATH_LENGTH) 900 then true else false
  else false.

(** The callback of [prevParticles.map]: the advanced particle and the
    counter [particlesCrossed.current] after it. *)
Definition updateParticle (speed : R) (measuring : bool)
  (p : Particle) (count : Z) : Particle * Z :=
  let newProgress := progress p + speed in
  let count' :=
    if measuring
    then if crossed (progress p) newProgress then (count + 1)%Z else count
    else count in
  (mkParticle (id p) newProgress, count').

(** [prevParticles.map(p => ...)], threading the counter through the array. *)
Fixpoint stepParticles (speed : R) (measuring : bool)
  (ps : list Particle) (count : Z) : list Particle * Z :=
  match ps with
  | [] => ([], count)
  | p :: rest =>
      let (p', count') := updateParticle speed measuring p count in
      let (rest', final) := stepParticles speed measuring rest count' in
      (p' :: rest', final)
  end.

Definition speedOf (voltage : R) : R := (voltage / 100) * 4.

(** [runSimulation], one animation frame at clock [now]. *)
Definition runSimulation (now : R) (s : State) : State :=
  let report :=
    if measureRateRef s
    then if Rge_dec (now - lastMeasureTime s) 1000 then true else false
    else false in
  let display := if report
                 then IZR (particlesCrossed s) * CHARGE_PER_PARTICLE
                 else displayRate s in
  let count0 := if report then 0%Z else particlesCrossed s in
  let last := if report then now else lastMeasureTime s in
  let speed := speedOf (voltage s) in
  let (ps, count1) :=
    stepParticles speed (measureRateRef s) (particles s) count0 in
  mkState (isPlaying s) (voltage s) (wireWidth s) (measureRate s)
          display ps count1 last (measureRateRef s).

Definition handleReset (now : R) (s : State) : State :=
  let s1 := mkState false INITIAL_VOLTAGE INITIAL_WIRE_WIDTH (measureRate s)
                    (displayRate s) (particles s)
                    (particlesCrossed s) (lastMeasureTime s) (measureRateRef s) in
  let s2 := setMeasureRate false now s1 in
  mkState (isPlaying s2) (voltage s2) (wireWidth s2) (measureRate s2)
          (displayRate s2) (seedEntities PARTICLE_COUNT TOTAL_PATH_LENGTH)
          (particlesCrossed s2) (lastMeasureTime s2) (measureRateRef s2).

(** What can happen to the mounted component. *)
Inductive Event : Type :=
| Frame (now : R)                       (* requestAnimationFrame callback *)
| SetVoltage (v : R)                    (* voltage slider *)
| SetWireWidth (w : R)                  (* wire-width slider *)
| SetMeasureRate (b : bool) (now : R)   (* measurement checkbox *)
| TogglePlay                            (* play / pause button *)
| Reset (now : R).                      (* reset button *)

(** Frames are only scheduled while [isPlaying]. *)
Definition step (s : State) (e : Event) : State :=
  match e with
  | Frame now => if isPlaying s then runSimulation now s else s
  | SetVoltage v =>
      mkState (isPlaying s) v (wireWidth s) (measureRate s) (displayRate s)
              (particles s) (particlesCrossed s) (lastMeasureTime s)
              (measureRateRef s)
  | SetWireWidth w =>
      mkState (isPlaying s) (voltage s) w (measureRate s) (displayRate s)
              (particles s) (particlesCrossed s) (lastMeasureTime s)
              (measureRateRef s)
  | SetMeasureRate b now => setMeasureRate b now s
  | TogglePlay =>
      mkState (negb (isPlaying s)) (voltage s) (wireWidth s) (measureRate s)
              (displayRate s) (particles s) (particlesCrossed s)
              (lastMeasureTime s) (measureRateRef s)
  | Reset now => handleReset now s
  end.

Definition run (s : State) (es : list Event) : State := fold_left step es s.

End Electric.

(* ================================================================== *)
(** * The rolling-window estimator

    [WaterCircuit] and [PlaygroundSlide] carry the same text for the
    throttled rate computation; it is embedded once. *)

Module Rolling.

(** [log.filter(t => t >= fiveSecondsAgo)] with [fiveSecondsAgo = now - 5000]. *)
Definition retain (now : R) (log : list R) : list R :=
  let fiveSecondsAgo := now - 5000 in
  filter (fun t => if Rge_dec t fiveSecondsAgo then true else false) log.

(** [timeSpanSeconds] of a retained log. *)
Definition timeSpanSeconds (recentTimestamps : list R) : R :=
  (nth (length recentTimestamps - 1) recentTimestamps 0
   - nth 0 recentTimestamps 0) / 1000.

(** The local [rate]: [let rate = 0; if (length > 1) { ... if (span > 0)
    { rate = (length - 1) / span } }].  The quotient is the only one of the
    estimator with a run-time divisor. *)
Definition rate (recentTimestamps : list R) : option R :=
  if (1 <? length recentTimestamps)%nat
  then if Rgt_dec (timeSpanSeconds recentTimestamps) 0
       then JS.div_checked (INR (length recentTimestamps) - 1)
                           (timeSpanSeconds recentTimestamps)
       else Some 0
  else Some 0.

(** The throttle: [measureRateRef.current && now - lastUiUpdateTimeRef.current > 100]. *)
Definition due (measuring : bool) (now lastUiUpdateTime : R) : bool :=
  if measuring
  then if Rgt_dec (now - lastUiUpdateTime) 100 then true else false
  else false.

(** The crossing test of both updaters:
    [oldProgressMod < CROSSING_POINT && newProgressMod >= CROSSING_POINT]. *)
Definition crossed (point oldProgressMod newProgressMod : R) : bool :=
  if Rlt_dec oldProgressMod point
  then if Rge_dec newProgressMod point then true else false
  else false.

End Rolling.

(* ================================================================== *)
(** * WaterCircuit *)

Module Water.

Definition TOTAL_PATH_LENGTH : R := 1000.
Definition PARTICLE_COUNT : Z := 40.
Definition INITIAL_HEIGHT_DIFFERENCE : R := 50.
Definition INITIAL_PIPE_WIDTH : R := 50.
Definition VOLUME_PER_PARTICLE : R := 0.05.
Definition CROSSING_POINT : R := 450.

Definition topY (heightDifference : R) : R := 180 - (heightDifference / 100) * 140.
Definition topReservoirOutletY (heightDifference : R) : R := topY heightDifference + 30.
Definition bottomReservoirY : R := 300.

Definition numLanes (width : R) : Z := Z.max 1 (JS.floor (width / 25)).

Definition lane (particleId : Z) (width : R) : Z :=
  Z.rem particleId (numLanes width).

Definition offsetRange (strokeWidth : R) : R := strokeWidth * 0.8.

Definition offset (particleId totalParticles : Z) (width strokeWidth : R) : R :=
  if (1 <? totalParticles)%Z
  then (IZR (lane particleId width) - (IZR (numLanes width) - 1) / 2)
       * (offsetRange strokeWidth / IZR (numLanes width))
  else 0.

Definition P_TOP_OUTLET (heightDifference : R) : Point :=
  mkPoint 180 (topReservoirOutletY heightDifference).
Definition P_TURBINE : Point := mkPoint 150 240.
Definition P_BOTTOM_INLET : Point := mkPoint 70 bottomReservoirY.
Definition P_BOTTOM_OUTLET : Point := mkPoint 20 bottomReservoirY.
Definition P_PUMP_INLET : Point := mkPoint 20 220.
Definition P_TOP_INLET (heightDifference : R) : Point :=
  mkPoint 180 (topY heightDifference).

(** The inner [calculatePosition]; [offset] is its free variable. *)
Definition calculatePosition (offset : R) (start finish : Point) (prog : R) : Point :=
  let x := px start + (px finish - px start) * prog in
  let y := py start + (py finish - py start) * prog in
  let vecX := px finish - px start in
  let vecY := py finish - py start in
  let mag := JS.sqrt_or (vecX * vecX + vecY * vecY) 1 in
  let normalX := vecY / mag in
  let normalY := - vecX / mag in
  mkPoint (x + offset * normalX) (y + offset * normalY).

(** ** The seven segment formulas, in the order of the [if] chain *)

Definition seg_0_200 (offset heightDifference p : R) : Point :=
  calculatePosition offset (P_TOP_OUTLET heightDifference) P_TURBINE (p / 200).

Definition seg_200_350 (offset heightDifference p : R) : Point :=
  calculatePosition offset P_TURBINE P_BOTTOM_INLET ((p - 200) / 150).

Definition seg_350_400 (offset heightDifference p : R) : Point :=
  mkPoint (px P_BOTTOM_INLET) (py P_BOTTOM_INLET).

Definition seg_400_500 (offset heightDifference p : R) : Point :=
  calculatePosition offset P_BOTTOM_OUTLET P_PUMP_INLET ((p - 400) / 100).

Definition seg_500_750 (offset heightDifference p : R) : Point :=
  calculatePosition offset P_PUMP_INLET (mkPoint 20 (topY heightDifference))
                    ((p - 500) / 250).

Definition seg_750_950 (offset heightDifference p : R) : Point :=
  calculatePosition offset (mkPoint 20 (topY heightDifference))
                    (P_TOP_INLET heightDifference) ((p - 750) / 200).

Definition seg_950_1000 (offset heightDifference p : R) : Point :=
  mkPoint (px (P_TOP_INLET heightDifference)) (py (P_TOP_INLET heightDifference)).

Definition positionAt (offset heightDifference p : R) : Point :=
  if Rlt_dec p 200 then seg_0_200 offset heightDifference p
  else if Rlt_dec p 350 then seg_200_350 offset heightDifference p
  else if Rlt_dec p 400 then seg_350_400 offset heightDifference p
  else if Rlt_dec p 500 then seg_400_500 offset heightDifference p
  else if Rlt_dec p 750 then seg_500_750 offset heightDifference p
  else if Rlt_dec p 950 then seg_750_950 offset heightDifference p
  else seg_950_1000 offset heightDifference p.

Definition getParticlePosition
  (progress : R) (particleId totalParticles : Z)
  (width strokeWidth heightDifference : R) : Point :=
  let offset := offset particleId totalParticles width strokeWidth in
  let p := JS.rem progress TOTAL_PATH_LENGTH in
  positionAt offset heightDifference p.

Definition pipeStrokeWidth (pipeWidth : R) : R := 8 + (pipeWidth / 100) * 12.

(** ** Component state: the [useState] cells, then the [useRef] cells *)

Record State : Type := mkState {
  isPlaying : bool;
  heightDifference : R;
  pipeWidth : R;
  turbineRotation : R;
  measureRate : bool;
  displayRate : R;
  particles : list Particle;
  heightDifferenceRef : R;
  pipeWidthRef : R;
  crossingsTimestampsRef : list R;
  lastUiUpdateTimeRef : R;
  measureRateRef : bool
}.

(** [useEffect(..., [measureRate])] *)
Definition measureRateEffect (now : R) (s : State) : State :=
  if measureRate s
  then mkState (isPlaying s) (heightDifference s) (pipeWidth s)
               (turbineRotation s) (measureRate s) (displayRate s)
               (particles s) (heightDifferenceRef s) (pipeWidthRef s)
               [] now (measureRate s)
  else mkState (isPlaying s) (heightDifference s) (pipeWidth s)
               (turbineRotation s) (measureRate s) 0
               (particles s) (heightDifferenceRef s) (pipeWidthRef s)
               [] (lastUiUpdateTimeRef s) (measureRate s).

Definition setMeasureRate (b : bool) (now : R) (s : State) : State :=
  if Bool.eqb b (measureRate s) then s
  else measureRateEffect now
         (mkState (isPlaying s) (heightDifference s) (pipeWidth s)
                  (turbineRotation s) b (displayRate s)
                  (particles s) (heightDifferenceRef s) (pipeWidthRef s)
                  (crossingsTimestampsRef s) (lastUiUpdateTimeRef s)
                  (measureRateRef s)).

(** [setHeightDifference(h)] with its effect [heightDifferenceRef.current = h]. *)
Definition setHeightDifference (h : R) (s : State) : State :=
  mkState (isPlaying s) h (pipeWidth s) (turbineRotation s) (measureRate s)
          (displayRate s) (particles s) h (pipeWidthRef s)
          (crossingsTimestampsRef s) (lastUiUpdateTimeRef s) (measureRateRef s).

(** [setPipeWidth(w)] with its effect [pipeWidthRef.current = w]. *)
Definition setPipeWidth (w : R) (s : State) : State :=
  mkState (isPlaying s) (heightDifference s) w (turbineRotation s)
          (measureRate s) (displayRate s) (particles s)
          (heightDifferenceRef s) w
          (crossingsTimestampsRef s) (lastUiUpdateTimeRef s) (measureRateRef s).

Definition initialState (t0 : R) : State :=
  measureRateEffect t0
    (mkState true INITIAL_HEIGHT_DIFFERENCE INITIAL_PIPE_WIDTH 0 false 0
             (seedEntities PARTICLE_COUNT TOTAL_PATH_LENGTH)
             INITIAL_HEIGHT_DIFFERENCE INITIAL_PIPE_WIDTH [] 0 false).

Definition widthFactor (currentPipeWidth : R) : R :=
  0.2 + 0.8 * ((currentPipeWidth - 10) / 90).

Definition pumpSpeed (currentPipeWidth : R) : R := 3 * widthFactor currentPipeWidth.

Definition gravitySpeed (currentHeightDifference currentPipeWidth : R) : R :=
  (0.5 + (currentHeightDifference / 100) * 4) * widthFactor currentPipeWidth.

(** [let speed = (currentProgressMod < 350) ? gravitySpeed : pumpSpeed] *)
Definition speedAt (gravity pump currentProgressMod : R) : R :=
  if Rlt_dec currentProgressMod 350 then gravity else pump.

(** The estimation pass at the head of [runSimulation]: the pruned log and
    the value handed to [setDisplayRate]. *)
Definition estimate (now : R) (log : list R) : option (list R * R) :=
  let recentTimestamps := Rolling.retain now log in
  match Rolling.rate recentTimestamps with
  | Some rate => Some (recentTimestamps, rate * VOLUME_PER_PARTICLE)
  | None => None
  end.

(** The callback of [currentParticles.map]: the advanced particle, the
    crossing log and the [shouldTurbineSpin] flag after it; [stamp] is the
    [performance.now()] it reads when it logs a crossing. *)
Definition updateParticle (gravity pump : R) (measuring : bool) (stamp : R)
  (p : Particle) (log : list R) (spin : bool) : Particle * list R * bool :=
  let currentProgressMod := JS.rem (progress p) TOTAL_PATH_LENGTH in
  let speed := speedAt gravity pump currentProgressMod in
  let oldProgressMod := JS.rem (progress p) TOTAL_PATH_LENGTH in
  let newProgress := progress p + speed in
  let newProgressMod := JS.rem newProgress TOTAL_PATH_LENGTH in
  let log' :=
    if measuring
    then if Rolling.crossed CROSSING_POINT oldProgressMod newProgressMod
         then log ++ [stamp] else log
    else log in
  let spin' :=
    if Rlt_dec currentProgressMod 350
    then if Rgt_dec gravity 0.1 then true else spin
    else spin in
  (mkParticle (id p) newProgress, log', spin').

(** [currentParticles.map(p => ...)]: [clock i] is the clock while the
    [i]-th array element is processed. *)
Fixpoint stepParticles (gravity pump : R) (measuring : bool)
  (clock : nat -> R) (i : nat) (ps : list Particle)
  (log : list R) (spin : bool) : list Particle * list R * bool :=
  match ps with
  | [] => ([], log, spin)
  | p :: rest =>
      match updateParticle gravity pump measuring (clock i) p log spin with
      | (p', log', spin') =>
          match stepParticles gravity pump measuring clock (S i) rest log' spin' with
          | (rest', logF, spinF) => (p' :: rest', logF, spinF)
          end
      end
  end.

(** [runSimulation], one animation frame: [now] is the first clock reading.
    [None] records a quotient by zero in the estimation pass. *)
Definition runSimulation (now : R) (clock : nat -> R) (s : State) : option State :=
  let pass :=
    if Rolling.due (measureRateRef s) now (lastUiUpdateTimeRef s)
    then match estimate now (crossingsTimestampsRef s) with
         | Some (recent, shown) => Some (recent, shown, now)
         | None => None
         end
    else Some (crossingsTimestampsRef s, displayRate s, lastUiUpdateTimeRef s) in
  match pass with
  | None => None
  | Some (log0, display, lastUi) =>
      let currentHeightDifference := heightDifferenceRef s in
      let currentPipeWidth := pipeWidthRef s in
      let pump := pumpSpeed currentPipeWidth in
      let gravity := gravitySpeed currentHeightDifference currentPipeWidth in
      match stepParticles gravity pump (measureRateRef s) clock 0
                          (particles s) log0 false with
      | (ps, log1, shouldTurbineSpin) =>
          let rotation :=
            if shouldTurbineSpin
            then JS.rem (turbineRotation s + gravity * 2) 360
            else turbineRotation s in
          Some (mkState (isPlaying s) (heightDifference s) (pipeWidth s)
                        rotation (measureRate s) display ps
                        (heightDifferenceRef s) (pipeWidthRef s)
                        log1 lastUi (measureRateRef s))
      end
  end.

Definition handleReset (now : R) (s : State) : State :=
  let s1 := mkState false (heightDifference s) (pipeWidth s) (turbineRotation s)
                    (measureRate s) (displayRate s) (particles s)
                    (heightDifferenceRef s) (pipeWidthRef s)
                    (crossingsTimestampsRef s) (lastUiUpdateTimeRef s)
                    (measureRateRef s) in
  let s2 := setPipeWidth INITIAL_PIPE_WIDTH
              (setHeightDifference INITIAL_HEIGHT_DIFFERENCE s1) in
  let s3 := mkState (isPlaying s2) (heightDifference s2) (pipeWidth s2) 0
                    (measureRate s2) (displayRate s2) (particles s2)
                    (heightDifferenceRef s2) (pipeWidthRef s2)
                    (crossingsTimestampsRef s2) (lastUiUpdateTimeRef s2)
                    (measureRateRef s2) in
  let s4 := setMeasureRate false now s3 in
  mkState (isPlaying s4) (heightDifference s4) (pipeWidth s4)
          (turbineRotation s4) (measureRate s4) (displayRate s4)
          (seedEntities PARTICLE_COUNT TOTAL_PATH_LENGTH)
          (heightDifferenceRef s4) (pipeWidthRef s4)
          (crossingsTimestampsRef s4) (lastUiUpdateTimeRef s4)
          (measureRateRef s4).

Inductive Event : Type :=
| Frame (now : R) (clock : nat -> R)
| SetHeightDifference (h : R)
| SetPipeWidth (w : R)
| SetMeasureRate (b : bool) (now : R)
| TogglePlay
| Reset (now : R).

Definition step (s : State) (e : Event) : option State :=
  match e with
  | Frame now clock => if isPlaying s then runSimulation now clock s else Some s
  | SetHeightDifference h => Some (setHeightDifference h s)
  | SetPipeWidth w => Some (setPipeWidth w s)
  | SetMeasureRate b now => Some (setMeasureRate b now s)
  | TogglePlay =>
      Some (mkState (negb (isPlaying s)) (heightDifference s) (pipeWidth s)
                    (turbineRotation s) (measureRate s) (displayRate s)
                    (particles s) (heightDifferenceRef s) (pipeWidthRef s)
                    (crossingsTimestampsRef s) (lastUiUpdateTimeRef s)
                    (measureRateRef s))
  | Reset now => Some (handleReset now s)
  end.

Fixpoint run (s : State) (es : list Event) : option State :=
  match es with
  | [] => Some s
  | e :: rest =>
      match step s e with
      | Some s' => run s' rest
      | None => None
      end
  end.

End Water.

(* ================================================================== *)
(** * PlaygroundSlide *)

Module Playground.

Definition TOTAL_PATH_LENGTH : R := 1000.
Definition KID_COUNT : Z := 15.
Definition INITIAL_SLIDE_HEIGHT : R := 50.
Definition INITIAL_SLIDE_WIDTH : R := 50.
Definition CROSSING_POINT : R := 450.

Definition numLanes (width : R) : Z := Z.max 1 (JS.floor (width / 25)).

Definition lane (kidId : Z) (width : R) : Z := Z.rem kidId (numLanes width).

Definition offset (kidId totalKids : Z) (width : R) : R :=
  if (1 <? totalKids)%Z
  then (IZR (lane kidId width) - (IZR (numLanes width) - 1) / 2) * 12
  else 0.

Definition topY (slideHeight : R) : R := 100 - (slideHeight / 100) * 80.

(** The slide: a cubic Bezier curve with control points [p0 .. p3], the
    entity displaced along the curve's normal. *)
Definition seg_0_300 (offset slideHeight p : R) : Point :=
  let t := p / 300 in
  let p0 := mkPoint 50 (topY slideHeight) in
  let p1 := mkPoint 150 (topY slideHeight) in
  let p2 := mkPoint 150 200 in
  let p3 := mkPoint 250 200 in
  let tInv := 1 - t in
  let x := tInv ^ 3 * px p0 + 3 * tInv ^ 2 * t * px p1
           + 3 * tInv * t ^ 2 * px p2 + t ^ 3 * px p3 in
  let y := tInv ^ 3 * py p0 + 3 * tInv ^ 2 * t * py p1
           + 3 * tInv * t ^ 2 * py p2 + t ^ 3 * py p3 in
  let dx := 3 * tInv ^ 2 * (px p1 - px p0) + 6 * tInv * t * (px p2 - px p1)
            + 3 * t ^ 2 * (px p3 - px p2) in
  let dy := 3 * tInv ^ 2 * (py p1 - py p0) + 6 * tInv * t * (py p2 - py p1)
            + 3 * t ^ 2 * (py p3 - py p2) in
  let mag := sqrt (dx * dx + dy * dy) in
  if Req_dec_T mag 0 then mkPoint x y
  else
    let normalX := - dy / mag in
    let normalY := dx / mag in
    mkPoint (x + offset * normalX) (y + offset * normalY).

(** Running back (horizontal). *)
Definition seg_300_600 (offset slideHeight p : R) : Point :=
  let runProgress := (p - 300) / 300 in
  mkPoint (250 - runProgress * 200) (200 + offset).

(** Elevator up (vertical). *)
Definition seg_600_1000 (offset slideHeight p : R) : Point :=
  let elevatorProgress := (p - 600) / 400 in
  mkPoint (50 + offset) (200 - elevatorProgress * (200 - topY slideHeight)).

Definition positionAt (offset slideHeight p : R) : Point :=
  if Rlt_dec p 300 then seg_0_300 offset slideHeight p
  else if Rlt_dec p 600 then seg_300_600 offset slideHeight p
  else if Rlt_dec p 1000 then seg_600_1000 offset slideHeight p
  else mkPoint 0 0.

Definition getKidPosition
  (progress : R) (kidId totalKids : Z) (width slideHeight : R) : Point :=
  let offset := offset kidId totalKids width in
  let p := JS.rem progress TOTAL_PATH_LENGTH in
  positionAt offset slideHeight p.


Record State : Type := mkState {
  isPlaying : bool;
  slideHeight : R;
  slideWidth : R;
  measureRate : bool;
  displayRate : R;
  kids : list Kid;
  slideHeightRef : R;
  slideWidthRef : R;
  crossingsTimestampsRef : list R;
  lastUiUpdateTimeRef : R;
  measureRateRef : bool
}.

(** [useEffect(..., [measureRate])] *)
Definition measureRateEffect (now : R) (s : State) : State :=
  if measureRate s
  then mkState (isPlaying s) (slideHeight s) (slideWidth s) (measureRate s)
               (displayRate s) (kids s) (slideHeightRef s) (slideWidthRef s)
               [] now (measureRate s)
  else mkState (isPlaying s) (slideHeight s) (slideWidth s) (measureRate s)
               0 (kids s) (slideHeightRef s) (slideWidthRef s)
               [] (lastUiUpdateTimeRef s) (measureRate s).

Definition setMeasureRate (b : bool) (now : R) (s : State) : State :=
  if Bool.eqb b (measureRate s) then s
  else measureRateEffect now
         (mkState (isPlaying s) (slideHeight s) (slideWidth s) b
                  (displayRate s) (kids s) (slideHeightRef s) (slideWidthRef s)
                  (crossingsTimestampsRef s) (lastUiUpdateTimeRef s)
                  (measureRateRef s)).

(** [setSlideHeight(h)] with its effect [slideHeightRef.current = h]. *)
Definition setSlideHeight (h : R) (s : State) : State :=
  mkState (isPlaying s) h (slideWidth s) (measureRate s) (displayRate s)
          (kids s) h (slideWidthRef s)
          (crossingsTimestampsRef s) (lastUiUpdateTimeRef s) (measureRateRef s).

(** [setSlideWidth(w)] with its effect [slideWidthRef.current = w]. *)
Definition setSlideWidth (w : R) (s : State) : State :=
  mkState (isPlaying s) (slideHeight s) w (measureRate s) (displayRate s)
          (kids s) (slideHeightRef s) w
          (crossingsTimestampsRef s) (lastUiUpdateTimeRef s) (measureRateRef s).

Definition initialState (t0 : R) : State :=
  measureRateEffect t0
    (mkState true INITIAL_SLIDE_HEIGHT INITIAL_SLIDE_WIDTH false 0
             (seedEntities KID_COUNT TOTAL_PATH_LENGTH)
             INITIAL_SLIDE_HEIGHT INITIAL_SLIDE_WIDTH [] 0 false).

Definition widthFactor (currentSlideWidth : R) : R :=
  0.2 + 0.8 * ((currentSlideWidth - 10) / 90).

Definition slideSpeed (currentSlideHeight currentSlideWidth : R) : R :=
  (1.5 + (currentSlideHeight / 100) * 4) * widthFactor currentSlideWidth.

Definition runSpeed (currentSlideWidth : R) : R := 2 * widthFactor currentSlideWidth.

Definition elevatorSpeed (currentSlideWidth : R) : R := 3 * widthFactor currentSlideWidth.

(** The [if / else if / else] on [oldProgressMod] that picks the speed. *)
Definition speedAt (slide running elevator oldProgressMod : R) : R :=
  if Rlt_dec oldProgressMod 300 then slide
  else if Rlt_dec oldProgressMod 600 then running
  else elevator.

(** The estimation pass: [setDisplayRate(rate)], no unit factor. *)
Definition estimate (now : R) (log : list R) : option (list R * R) :=
  let recentTimestamps := Rolling.retain now log in
  match Rolling.rate recentTimestamps with
  | Some rate => Some (recentTimestamps, rate)
  | None => None
  end.

(** The callback of [prevKids.map]: the advanced kid and the crossing log
    after it. *)
Definition updateKid (slide running elevator : R) (measuring : bool)
  (stamp : R) (k : Kid) (log : list R) : Kid * list R :=
  let oldProgressMod := JS.rem (progress k) TOTAL_PATH_LENGTH in
  let speed := speedAt slide running elevator oldProgressMod in
  let newProgress := progress k + speed in
  let newProgressMod := JS.rem newProgress TOTAL_PATH_LENGTH in
  let log' :=
    if measuring
    then if Rolling.crossed CROSSING_POINT oldProgressMod newProgressMod
         then log ++ [stamp] else log
    else log in
  (mkParticle (id k) newProgress, log').

(** [prevKids.map(k => ...)], threading the crossing log. *)
Fixpoint stepKids (slide running elevator : R) (measuring : bool)
  (clock : nat -> R) (i : nat) (ks : list Kid) (log : list R)
  : list Kid * list R :=
  match ks with
  | [] => ([], log)
  | k :: rest =>
      let (k', log') := updateKid slide running elevator measuring (clock i) k log in
      let (rest', logF) :=
        stepKids slide running elevator measuring clock (S i) rest log' in
      (k' :: rest', logF)
  end.

Definition runSimulation (now : R) (clock : nat -> R) (s : State) : option State :=
  let pass :=
    if Rolling.due (measureRateRef s) now (lastUiUpdateTimeRef s)
    then match estimate now (crossingsTimestampsRef s) with
         | Some (recent, shown) => Some (recent, shown, now)
         | None => None
         end
    else Some (crossingsTimestampsRef s, displayRate s, lastUiUpdateTimeRef s) in
  match pass with
  | None => None
  | Some (log0, display, lastUi) =>
      let currentSlideHeight := slideHeightRef s in
      let currentSlideWidth := slideWidthRef s in
      let slide := slideSpeed currentSlideHeight currentSlideWidth in
      let running := runSpeed currentSlideWidth in
      let elevator := elevatorSpeed currentSlideWidth in
      let (ks, log1) :=
        stepKids slide running elevator (measureRateRef s) clock 0
                 (kids s) log0 in
      Some (mkState (isPlaying s) (slideHeight s) (slideWidth s)
                    (measureRate s) display ks
                    (slideHeightRef s) (slideWidthRef s)
                    log1 lastUi (measureRateRef s))
  end.

Definition handleReset (now : R) (s : State) : State :=
  let s1 := mkState false (slideHeight s) (slideWidth s) (measureRate s)
                    (displayRate s) (kids s) (slideHeightRef s) (slideWidthRef s)
                    (crossingsTimestampsRef s) (lastUiUpdateTimeRef s)
                    (measureRateRef s) in
  let s2 := setSlideWidth INITIAL_SLIDE_WIDTH
              (setSlideHeight INITIAL_SLIDE_HEIGHT s1) in
  let s3 := setMeasureRate false now s2 in
  mkState (isPlaying s3) (slideHeight s3) (slideWidth s3) (measureRate s3)
          (displayRate s3) (seedEntities KID_COUNT TOTAL_PATH_LENGTH)
          (slideHeightRef s3) (slideWidthRef s3)
          (crossingsTimestampsRef s3) (lastUiUpdateTimeRef s3)
          (measureRateRef s3).

Inductive Event : Type :=
| Frame (now : R) (clock : nat -> R)
| SetSlideHeight (h : R)
| SetSlideWidth (w : R)
| SetMeasureRate (b : bool) (now : R)
| TogglePlay
| Reset (now : R).

Definition step (s : State) (e : Event) : option State :=
  match e with
  | Frame now clock => if isPlaying s then runSimulation now clock s else Some s
  | SetSlideHeight h => Some (setSlideHeight h s)
  | SetSlideWidth w => Some (setSlideWidth w s)
  | SetMeasureRate b now => Some (setMeasureRate b now s)
  | TogglePlay =>
      Some (mkState (negb (isPlaying s)) (slideHeight s) (slideWidth s)
                    (measureRate s) (displayRate s) (kids s)
                    (slideHeightRef s) (slideWidthRef s)
                    (crossingsTimestampsRef s) (lastUiUpdateTimeRef s)
                    (measureRateRef s))
  | Reset now => Some (handleReset now s)
  end.

Fixpoint run (s : State) (es : list Event) : option State :=
  match es with
  | [] => Some s
  | e :: rest =>
      match step s e with
      | Some s' => run s' rest
      | None => None
      end
  end.

End Playground.

(* ================================================================== *)
(** * Rendering: values derived in the component bodies *)

Module JSMath.

(** [Math.pow(base, exponent)] for a base that is not negative and a
    positive exponent, the only use the components make of it. *)
Definition pow (base exponent : R) : R :=
  if Req_dec_T base 0 then 0 else Rpower base exponent.

End JSMath.

Module ElectricView.

Definition normalizedVoltage (voltage : R) : R := voltage / 100.
Definition normalizedWireWidth (wireWidth : R) : R := wireWidth / 100.

Definition filamentBrightness (voltage : R) : R :=
  50 + normalizedVoltage voltage * 45.

Definition baseFilamentWidth (wireWidth : R) : R :=
  1.5 + normalizedWireWidth wireWidth * 3.

Definition filamentStrokeWidth (voltage wireWidth : R) : R :=
  baseFilamentWidth wireWidth + normalizedVoltage voltage * 3.

Definition innerGlowOpacity (voltage : R) : R :=
  JSMath.pow (normalizedVoltage voltage) 1.2 * 0.9.

Definition innerGlowRadius (voltage : R) : R :=
  15 + normalizedVoltage voltage * 20.

Definition outerGlowOpacity (voltage : R) : R :=
  JSMath.pow (normalizedVoltage voltage) 1.7 * 0.7.

Definition outerGlowRadius (voltage : R) : R :=
  30 + normalizedVoltage voltage * 30.

(** [{voltage > 1 && ...}]: whether the two glow circles are drawn. *)
Definition glowShown (voltage : R) : bool :=
  if Rgt_dec voltage 1 then true else false.

(** [viewBox="-70 -20 440 280"]: min-x, min-y, width, height. *)
Definition viewBox : R * R * R * R := (-70, -20, 440, 280).

(** The particle as it is drawn: [particles.map(p => getParticlePosition(
    p.progress, p.id, particles.length, wireWidth, wireStrokeWidth))]. *)
Definition drawn (s : Electric.State) (p : Particle) : Electric.Position :=
  Electric.getParticlePosition (progress p) (id p)
    (Z.of_nat (length (Electric.particles s)))
    (Electric.wireWidth s) (Electric.wireStrokeWidth (Electric.wireWidth s)).

End ElectricView.

Module WaterView.

(** [viewBox="0 0 300 350"] *)
Definition viewBox : R * R * R * R := (0, 0, 300, 350).

(** [(progress >= 350 && progress < 400) || progress >= 950], on the
    progress already reduced modulo the path length. *)
Definition isInReservoir (progress : R) : bool :=
  (if Rge_dec progress 350
   then if Rlt_dec progress 400 then true else false
   else false)
  || (if Rge_dec progress 950 then true else false).

(** The callback of the render [particles.map]: [None] is the [null] of a
    particle that is not drawn. *)
Definition drawn (s : Water.State) (p : Particle) : option Point :=
  let progressMod := JS.rem (progress p) Water.TOTAL_PATH_LENGTH in
  if isInReservoir progressMod then None
  else Some (Water.getParticlePosition (progress p) (id p)
               (Z.of_nat (length (Water.particles s)))
               (Water.pipeWidth s) (Water.pipeStrokeWidth (Water.pipeWidth s))
               (Water.heightDifference s)).

End WaterView.

Module PlaygroundView.

(** [viewBox="0 0 300 250"] *)
Definition viewBox : R * R * R * R := (0, 0, 300, 250).

Definition drawn (s : Playground.State) (k : Kid) : Point :=
  Playground.getKidPosition (progress k) (id k)
    (Z.of_nat (length (Playground.kids s)))
    (Playground.slideWidth s) (Playground.slideHeight s).

End PlaygroundView.

(* ================================================================== *)
(** * The page: visibility of the panels and their order *)

Module JSArray.

Section Operations.

Variable A : Type.

(** Strict equality [===] on the elements. *)
Variable eqb : A -> A -> bool.

(** [Array.prototype.indexOf]: the first index of [v], or -1. *)
Fixpoint indexOf (l : list A) (v : A) : Z :=
  match l with
  | [] => (-1)%Z
  | a :: rest =>
      if eqb a v then 0%Z
      else let i := indexOf rest v in
           if (i <? 0)%Z then (-1)%Z else (i + 1)%Z
  end.

(** The start index [splice] really uses: a negative one counts from the
    end, and both are clamped to the array. *)
Definition spliceStart (len start : Z) : Z :=
  if (start <? 0)%Z then Z.max (len + start) 0 else Z.min start len.

(** [l.splice(start, deleteCount, ...items)]: the removed elements and the
    array afterwards. *)
Definition splice (l : list A) (start deleteCount : Z) (items : list A)
  : list A * list A :=
  let len := Z.of_nat (length l) in
  let actualStart := spliceStart len start in
  let actualDeleteCount := Z.min (Z.max deleteCount 0) (len - actualStart) in
  (firstn (Z.to_nat actualDeleteCount) (skipn (Z.to_nat actualStart) l),
   firstn (Z.to_nat actualStart) l ++ items
   ++ skipn (Z.to_nat (actualStart + actualDeleteCount)) l).

End Operations.

End JSArray.

Module App.

Import String.

(** [type SimulationKey = keyof SimulationVisibility] *)
Inductive SimulationKey : Type := electric | water | playground.

Definition key_eqb (a b : SimulationKey) : bool :=
  match a, b with
  | electric, electric | water, water | playground, playground => true
  | _, _ => false
  end.

Module Visibility.

(** [type SimulationVisibility = { electric; water; playground }] *)
Record t : Type := mk { electric : bool; water : bool; playground : bool }.

End Visibility.

Definition SimulationVisibility : Type := Visibility.t.

(** [visibility[key]] *)
Definition lookup (visibility : SimulationVisibility) (key : SimulationKey) : bool :=
  match key with
  | electric => Visibility.electric visibility
  | water => Visibility.water visibility
  | playground => Visibility.playground visibility
  end.

(** [{ ...prev, [name]: checked }] *)
Definition update (prev : SimulationVisibility) (name : SimulationKey)
  (checked : bool) : SimulationVisibility :=
  match name with
  | electric =>
      Visibility.mk checked (Visibility.water prev) (Visibility.playground prev)
  | water =>
      Visibility.mk (Visibility.electric prev) checked (Visibility.playground prev)
  | playground =>
      Visibility.mk (Visibility.electric prev) (Visibility.water prev) checked
  end.

Record State : Type := mkState {
  visibility : SimulationVisibility;
  simulationOrder : list SimulationKey;
  draggedItem : option SimulationKey;
  dragOverItem : option SimulationKey
}.

Definition initialState : State :=
  mkState (Visibility.mk true true true) [electric; water; playground]
          None None.

Definition handleVisibilityChange (name : SimulationKey) (checked : bool)
  (s : State) : State :=
  mkState (update (visibility s) name checked) (simulationOrder s)
          (draggedItem s) (dragOverItem s).

(** [simulationOrder.filter(key => visibility[key])] *)
Definition orderedVisibleKeys (s : State) : list SimulationKey :=
  filter (fun key => lookup (visibility s) key) (simulationOrder s).

Definition visibleCount (s : State) : Z :=
  Z.of_nat (List.length (orderedVisibleKeys s)).

Definition isSingleView (s : State) : bool := (visibleCount s =? 1)%Z.

Definition gridColsClass (s : State) : string :=
  if (visibleCount s =? 3)%Z then "lg:grid-cols-3"%string
  else if (visibleCount s =? 2)%Z then "lg:grid-cols-2"%string
  else EmptyString.

Definition handleDragStart (key : SimulationKey) (s : State) : State :=
  mkState (visibility s) (simulationOrder s) (Some key) (dragOverItem s).

(** [if (draggedItem !== key) setDragOverItem(key)] *)
Definition handleDragOver (key : SimulationKey) (s : State) : State :=
  match draggedItem s with
  | Some dragged =>
      if key_eqb dragged key then s
      else mkState (visibility s) (simulationOrder s) (draggedItem s) (Some key)
  | None => mkState (visibility s) (simulationOrder s) (draggedItem s) (Some key)
  end.

Definition handleDragLeave (s : State) : State :=
  mkState (visibility s) (simulationOrder s) (draggedItem s) None.

Definition handleDragEnd (s : State) : State :=
  mkState (visibility s) (simulationOrder s) None None.

(** [handleDrop].  [const [removed] = newOrder.splice(draggedIndex, 1)]
    takes the one element the first [splice] removes, which the second
    inserts.  The first [splice] removes an element from every array that
    is not empty (a [draggedIndex] of -1 takes the last one).  From an empty
    array it removes nothing and JavaScript goes on to insert [undefined],
    a value [SimulationKey] does not have: there the array stays empty
    here.  No sequence of events produces an empty order, and no property
    below reaches that case. *)
Definition handleDrop (dropKey : SimulationKey) (s : State) : State :=
  match draggedItem s with
  | None => mkState (visibility s) (simulationOrder s) None None
  | Some dragged =>
      if key_eqb dragged dropKey
      then mkState (visibility s) (simulationOrder s) None None
      else
        let newOrder := simulationOrder s in
        let draggedIndex := JSArray.indexOf SimulationKey key_eqb newOrder dragged in
        let dropIndex := JSArray.indexOf SimulationKey key_eqb newOrder dropKey in
        let (removed, newOrder1) :=
          JSArray.splice SimulationKey newOrder draggedIndex 1 [] in
        let (_, newOrder2) :=
          JSArray.splice SimulationKey newOrder1 dropIndex 0 removed in
        mkState (visibility s) newOrder2 None None
  end.

Inductive Event : Type :=
| VisibilityChange (name : SimulationKey) (checked : bool)
| DragStart (key : SimulationKey)
| DragOver (key : SimulationKey)
| DragLeave
| Drop (dropKey : SimulationKey)
| DragEnd.

Definition step (s : State) (e : Event) : State :=
  match e with
  | VisibilityChange name checked => handleVisibilityChange name checked s
  | DragStart key => handleDragStart key s
  | DragOver key => handleDragOver key s
  | DragLeave => handleDragLeave s
  | Drop dropKey => handleDrop dropKey s
  | DragEnd => handleDragEnd s
  end.

Definition run (s : State) (es : list Event) : State := fold_left step es s.

End App.

(* ================================================================== *)
(** * Vocabulary of the properties *)









(** The number of path positions [point + 1000 * k], [k] an integer, that
    lie in the half-open stretch [(from, to]] of unwrapped progress. *)
Definition passes (point from to : R) : Z :=
  (JS.floor ((to - point) / 1000) - JS.floor ((from - point) / 1000))%Z.


(** A water frame: gravity speed, pump speed, clock reading. *)
Definition WaterFrame : Type := (R * R * R)%type.




Definition waterSpeedsIn (lo hi : R) (f : WaterFrame) : Prop :=
  let '(gravity, pump, _) := f in
  lo <= gravity <= hi /\ lo <= pump <= hi.


(** Successive electric frames at the given clock readings. *)
Definition electricFrames (nows : list R) (s : Electric.State) : Electric.State :=
  fold_left (fun st now => Electric.runSimulation now st) nows s.

(** The crossings counted over [frames] successive frames at one speed. *)
Fixpoint electricBucket (speed : R) (frames : nat) (ps : list Particle) : Z :=
  match frames with
  | O => 0%Z
  | S n =>
      (snd (Electric.stepParticles speed true ps 0)
       + electricBucket speed n (fst (Electric.stepParticles speed true ps 0)))%Z
  end.

(** The ends of the path that the particles of [ps] pass, in all, while
    each of them advances by [distance]. *)
Definition electricPassed (distance : R) (ps : list Particle) : Z :=
  fold_right
    (fun p acc => (passes 1000 (progress p) (progress p + distance) + acc)%Z)
    0%Z ps.

(** The checkpoint positions [point + 1000 * k] that the entities of
    [before] pass, in all, on their way to where [after] has them. *)
Fixpoint passedBetween (point : R) (before after : list Particle) : Z :=
  match before, after with
  | p :: ps, q :: qs =>
      (passes point (progress p) (progress q) + passedBetween point ps qs)%Z
  | _, _ => 0%Z
  end.

(** The clock readings due from the map of one frame: going through the
    array, the reading [clock i] taken at the [i]-th entity when
    [oldProgressMod < point <= newProgressMod]; [speedAt] gives the step
    of an entity from its [oldProgressMod]. *)
Fixpoint stampsDue (point : R) (speedAt : R -> R) (clock : nat -> R)
  (i : nat) (ps : list Particle) : list R :=
  match ps with
  | [] => []
  | p :: rest =>
      let oldProgressMod := JS.rem (progress p) 1000 in
      let newProgressMod :=
        JS.rem (progress p + speedAt oldProgressMod) 1000 in
      (if Rlt_dec oldProgressMod point
       then if Rle_dec point newProgressMod then [clock i] else []
       else [])
      ++ stampsDue point speedAt clock (S i) rest
  end.





(** The entities after the map of a frame, [speedAt] giving the step of
    an entity from its progress modulo the path length. *)
Definition advanced (speedAt : R -> R) (ps : list Particle) : list Particle :=
  map (fun p =>
         mkParticle (id p) (progress p + speedAt (JS.rem (progress p) 1000)))
      ps.

(** [l] with some of its elements left out. *)
Inductive subsequence : list R -> list R -> Prop :=
| subsequence_nil : subsequence [] []
| subsequence_keep (t : R) (l m : list R) :
    subsequence l m -> subsequence (t :: l) (t :: m)
| subsequence_drop (t : R) (l m : list R) :
    subsequence l m -> subsequence l (t :: m).

(** The readings of [performance.now()] an event carries, in the order
    they are taken: a frame reads the clock at its start, and its map
    reads it at the [i]-th entity of the array when that entity is
    logged. *)
Definition waterReadings (e : Water.Event) : list R :=
  match e with
  | Water.Frame now clock =>
      now :: map clock (seq 0 (Z.to_nat Water.PARTICLE_COUNT))
  | Water.SetMeasureRate _ now => [now]
  | Water.Reset now => [now]
  | _ => []
  end.

Definition playgroundReadings (e : Playground.Event) : list R :=
  match e with
  | Playground.Frame now clock =>
      now :: map clock (seq 0 (Z.to_nat Playground.KID_COUNT))
  | Playground.SetMeasureRate _ now => [now]
  | Playground.Reset now => [now]
  | _ => []
  end.

(** The clock never runs backwards: readings in the order taken. *)
Definition chronological (readings : list R) : Prop :=
  StronglySorted Rle readings.

(** What every reachable state satisfies: the refs mirror their state
    cells, and nothing is shown or kept while measurement is off. *)
Definition electricSettled (s : Electric.State) : Prop :=
  Electric.measureRateRef s = Electric.measureRate s
  /\ (Electric.measureRate s = false ->
      Electric.displayRate s = 0 /\ Electric.particlesCrossed s = 0%Z).

Definition waterSettled (s : Water.State) : Prop :=
  Water.heightDifferenceRef s = Water.heightDifference s
  /\ Water.pipeWidthRef s = Water.pipeWidth s
  /\ Water.measureRateRef s = Water.measureRate s
  /\ (Water.measureRate s = false ->
      Water.displayRate s = 0 /\ Water.crossingsTimestampsRef s = []).

Definition playgroundSettled (s : Playground.State) : Prop :=
  Playground.slideHeightRef s = Playground.slideHeight s
  /\ Playground.slideWidthRef s = Playground.slideWidth s
  /\ Playground.measureRateRef s = Playground.measureRate s
  /\ (Playground.measureRate s = false ->
      Playground.displayRate s = 0 /\ Playground.crossingsTimestampsRef s = []).

(** Slider input within the [min] and [max] of the range controls. *)
Definition electricInput (e : Electric.Event) : Prop :=
  match e with
  | Electric.SetVoltage v => 0 <= v <= 100
  | Electric.SetWireWidth w => 10 <= w <= 100
  | _ => True
  end.

Definition waterInput (e : Water.Event) : Prop :=
  match e with
  | Water.SetHeightDifference h => 10 <= h <= 100
  | Water.SetPipeWidth w => 10 <= w <= 100
  | _ => True
  end.

Definition playgroundInput (e : Playground.Event) : Prop :=
  match e with
  | Playground.SetSlideHeight h => 10 <= h <= 100
  | Playground.SetSlideWidth w => 10 <= w <= 100
  | _ => True
  end.

(** Sliders within their ranges and every entity on non-negative progress
    (for water, also the turbine angle within a turn). *)
Definition electricSteady (s : Electric.State) : Prop :=
  0 <= Electric.voltage s <= 100
  /\ 10 <= Electric.wireWidth s <= 100
  /\ Forall (fun p => 0 <= progress p) (Electric.particles s).

Definition waterSteady (s : Water.State) : Prop :=
  10 <= Water.heightDifference s <= 100
  /\ 10 <= Water.pipeWidth s <= 100
  /\ Forall (fun p => 0 <= progress p) (Water.particles s)
  /\ 0 <= Water.turbineRotation s < 360.

Definition playgroundSteady (s : Playground.State) : Prop :=
  10 <= Playground.slideHeight s <= 100
  /\ 10 <= Playground.slideWidth s <= 100
  /\ Forall (fun k => 0 <= progress k) (Playground.kids s).

(** An entity after a frame: same id, moved forward by between [lo] and
    [hi] path units. *)
Definition movedBy (lo hi : R) (p p' : Particle) : Prop :=
  id p' = id p /\ lo <= progress p' - progress p <= hi.

(** A particle between the top reservoir and the bottom reservoir, where
    gravity drives it past the turbine. *)
Definition onGravityStretch (p : Particle) : bool :=
  if Rlt_dec (JS.rem (progress p) Water.TOTAL_PATH_LENGTH) 350 then true else false.


(** Timestamps of [n] crossings, the first at [t0], one every [d] ms. *)
Definition everyMs (t0 d : R) (n : nat) : list R :=
  map (fun i => t0 + d * INR i) (seq 0 n).

(* ================================================================== *)
(** * Facts about the number operations *)

Module JSFacts.
Import JS.

Lemma floor_bounds (v : R) : IZR (floor v) <= v < IZR (floor v) + 1.
Proof.
  unfold floor.
  destruct (base_Int_part v) as [Hle Hgt]. lra.
Qed.

Lemma floor_unique (v : R) (z : Z) : IZR z <= v < IZR z + 1 -> floor v = z.
Proof.
  intros [Hlo Hhi]. unfold floor. symmetry.
  apply Int_part_spec. lra.
Qed.

Lemma trunc_nonneg (v : R) : 0 <= v -> trunc v = floor v.
Proof.
  intros Hv. unfold trunc, floor.
  destruct (Rle_dec 0 v); [reflexivity | contradiction].
Qed.

Lemma trunc_small (v : R) : -1 < v < 1 -> trunc v = 0%Z.
Proof.
  intros [Hlo Hhi]. unfold trunc.
  destruct (Rle_dec 0 v) as [Hv | Hv].
  - symmetry. apply Int_part_spec. simpl. lra.
  - assert (Int_part (- v) = 0%Z) as ->.
    { symmetry. apply Int_part_spec. simpl. lra. }
    reflexivity.
Qed.

Lemma trunc_unique_nonneg (v : R) (z : Z) :
  0 <= v -> IZR z <= v < IZR z + 1 -> trunc v = z.
Proof.
  intros Hv Hz. rewrite trunc_nonneg by assumption.
  now apply floor_unique.
Qed.

(** The truncated quotient never overshoots: [|v - trunc v| < 1] and the
    difference has the sign of [v]. *)
Lemma trunc_bounds (v : R) :
  (0 <= v -> IZR (trunc v) <= v < IZR (trunc v) + 1) /\
  (v < 0 -> IZR (trunc v) - 1 < v <= IZR (trunc v)).
Proof.
  unfold trunc. destruct (Rle_dec 0 v) as [Hv | Hv]; split; intros H;
    try lra.
  - apply floor_bounds.
  - rewrite opp_IZR. pose proof (floor_bounds (- v)) as Hf.
    unfold floor in Hf. lra.
Qed.

Lemma rem_eq_nonneg (a m : R) (k : Z) :
  0 < m -> 0 <= a -> IZR k * m <= a < (IZR k + 1) * m ->
  rem a m = a - IZR k * m.
Proof.
  intros Hm Ha [Hlo Hhi]. unfold rem.
  assert (Hq : trunc (a / m) = k).
  { apply trunc_unique_nonneg.
    - apply Rmult_le_pos; [assumption |].
      left. now apply Rinv_0_lt_compat.
    - split.
      + apply Rmult_le_reg_r with m; [assumption |].
        unfold Rdiv. rewrite Rmult_assoc, Rinv_l by lra. lra.
      + apply Rmult_lt_reg_r with m; [assumption |].
        unfold Rdiv. rewrite Rmult_assoc, Rinv_l by lra. lra. }
  rewrite Hq. ring.
Qed.

Lemma rem_small (a m : R) : 0 < m -> - m < a < m -> rem a m = a.
Proof.
  intros Hm [Hlo Hhi]. unfold rem.
  rewrite trunc_small; [simpl; ring |].
  split.
  - apply Rmult_lt_reg_r with m; [assumption |].
    unfold Rdiv. rewrite Rmult_assoc, Rinv_l by lra. lra.
  - apply Rmult_lt_reg_r with m; [assumption |].
    unfold Rdiv. rewrite Rmult_assoc, Rinv_l by lra. lra.
Qed.

Lemma rem_bound (a m : R) : 0 < m -> - m < rem a m < m.
Proof.
  intros Hm. unfold rem.
  assert (Ha : a = (a / m) * m) by (field; lra).
  destruct (trunc_bounds (a / m)) as [Hpos Hneg].
  destruct (Rle_dec 0 (a / m)) as [Hq | Hq].
  - specialize (Hpos Hq). nra.
  - assert (Hq' : a / m < 0) by lra. specialize (Hneg Hq'). nra.
Qed.

Lemma rem_range_nonneg (a m : R) : 0 < m -> 0 <= a -> 0 <= rem a m < m.
Proof.
  intros Hm Ha. unfold rem.
  assert (Hq : 0 <= a / m).
  { apply Rmult_le_pos; [assumption |].
    left. now apply Rinv_0_lt_compat. }
  assert (Hd : a = (a / m) * m) by (field; lra).
  destruct (trunc_bounds (a / m)) as [Hpos _].
  specialize (Hpos Hq). nra.
Qed.

Lemma rem_idem (a m : R) : 0 < m -> rem (rem a m) m = rem a m.
Proof.
  intros Hm. apply rem_small; [assumption |]. now apply rem_bound.
Qed.


End JSFacts.

(* ================================================================== *)
(** * Position functions *)

Section PositionFacts.

Import JSFacts.

Lemma rem_1005 : JS.rem (1000 + 5) 1000 = 5.
Proof.
  rewrite (rem_eq_nonneg (1000 + 5) 1000 1); simpl; lra.
Qed.

Lemma rem_5 : JS.rem 5 1000 = 5.
Proof. apply rem_small; lra. Qed.

(** C8: every position function only sees [progress % 1000]; a progress of
    [TOTAL_PATH_LENGTH + 5] is placed where a progress of 5 is. *)
Theorem C8_progress_wraparound :
  (forall progress particleId totalParticles width strokeWidth,
      Electric.getParticlePosition progress particleId totalParticles width strokeWidth
      = Electric.getParticlePosition (JS.rem progress Electric.TOTAL_PATH_LENGTH)
          particleId totalParticles width strokeWidth)
  /\ (forall progress particleId totalParticles width strokeWidth heightDifference,
      Water.getParticlePosition progress particleId totalParticles width
        strokeWidth heightDifference
      = Water.getParticlePosition (JS.rem progress Water.TOTAL_PATH_LENGTH)
          particleId totalParticles width strokeWidth heightDifference)
  /\ (forall progress kidId totalKids width slideHeight,
      Playground.getKidPosition progress kidId totalKids width slideHeight
      = Playground.getKidPosition (JS.rem progress Playground.TOTAL_PATH_LENGTH)
          kidId totalKids width slideHeight)
  /\ (forall particleId totalParticles width strokeWidth,
      Electric.getParticlePosition (Electric.TOTAL_PATH_LENGTH + 5)
        particleId totalParticles width strokeWidth
      = Electric.getParticlePosition 5 particleId totalParticles width strokeWidth)
  /\ (forall particleId totalParticles width strokeWidth heightDifference,
      Water.getParticlePosition (Water.TOTAL_PATH_LENGTH + 5)
        particleId totalParticles width strokeWidth heightDifference
      = Water.getParticlePosition 5 particleId totalParticles width
          strokeWidth heightDifference)
  /\ (forall kidId totalKids width slideHeight,
      Playground.getKidPosition (Playground.TOTAL_PATH_LENGTH + 5)
        kidId totalKids width slideHeight
      = Playground.getKidPosition 5 kidId totalKids width slideHeight).
Proof.
  unfold Electric.getParticlePosition, Water.getParticlePosition,
    Playground.getKidPosition, Electric.TOTAL_PATH_LENGTH,
    Water.TOTAL_PATH_LENGTH, Playground.TOTAL_PATH_LENGTH.
  repeat split; intros;
    rewrite ?rem_idem by lra; rewrite ?rem_1005, ?rem_5; reflexivity.
Qed.

(** ** Lane offset *)













(** ** Segment boundaries *)



















End PositionFacts.

(* ================================================================== *)
(** * Checkpoint crossings *)

Section CrossingFacts.

Import JSFacts.

(** Unwrapped progress splits into whole laps and the position on the path. *)
Lemma rem_laps (a : R) :
  0 <= a ->
  exists j : Z, a = JS.rem a 1000 + 1000 * IZR j /\ 0 <= JS.rem a 1000 < 1000.
Proof.
  intros Ha. exists (JS.trunc (a / 1000)). split.
  - unfold JS.rem. ring.
  - apply rem_range_nonneg; lra.
Qed.

Lemma rem_advance (a s : R) :
  0 <= a -> 0 <= s ->
  (JS.rem a 1000 + s < 1000 -> JS.rem (a + s) 1000 = JS.rem a 1000 + s)
  /\ (1000 <= JS.rem a 1000 + s < 2000 ->
      JS.rem (a + s) 1000 = JS.rem a 1000 + s - 1000).
Proof.
  intros Ha Hs.
  destruct (rem_laps a Ha) as [j [Hj Hold]].
  set (old := JS.rem a 1000) in *.
  split; intros Hsum.
  - rewrite (rem_eq_nonneg (a + s) 1000 j); lra.
  - rewrite (rem_eq_nonneg (a + s) 1000 (j + 1)); rewrite ?plus_IZR; lra.
Qed.

Lemma floor_laps (r : R) (j k : Z) :
  IZR k * 1000 <= r < (IZR k + 1) * 1000 ->
  JS.floor ((r + 1000 * IZR j) / 1000) = (k + j)%Z.
Proof.
  intros Hr. apply floor_unique. rewrite plus_IZR. lra.
Qed.

(** A frame that takes the entity over a checkpoint passes it once. *)
Lemma passes_hit (point a s : R) :
  0 < point <= 1000 -> 0 <= a -> 0 <= s <= point ->
  JS.rem a 1000 < point <= JS.rem a 1000 + s ->
  passes point a (a + s) = 1%Z.
Proof.
  intros Hc Ha Hs Hhit.
  destruct (rem_laps a Ha) as [j [Hj Hold]].
  set (old := JS.rem a 1000) in *.
  unfold passes.
  replace (a + s - point) with ((old + s - point) + 1000 * IZR j) by lra.
  replace (a - point) with ((old - point) + 1000 * IZR j) by lra.
  rewrite (floor_laps (old + s - point) j 0) by (simpl; lra).
  rewrite (floor_laps (old - point) j (-1)) by (simpl; lra).
  lia.
Qed.

(** A frame that does not take the entity over the checkpoint passes none. *)
Lemma passes_miss (point a s : R) :
  0 < point <= 1000 -> 0 <= a -> 0 <= s <= point ->
  ~ (JS.rem a 1000 < point <= JS.rem a 1000 + s) ->
  passes point a (a + s) = 0%Z.
Proof.
  intros Hc Ha Hs Hmiss.
  destruct (rem_laps a Ha) as [j [Hj Hold]].
  set (old := JS.rem a 1000) in *.
  unfold passes.
  replace (a + s - point) with ((old + s - point) + 1000 * IZR j) by lra.
  replace (a - point) with ((old - point) + 1000 * IZR j) by lra.
  destruct (Rlt_dec old point) as [Hlt | Hge].
  - assert (Hshort : old + s < point) by lra.
    rewrite (floor_laps (old + s - point) j (-1)) by (simpl; lra).
    rewrite (floor_laps (old - point) j (-1)) by (simpl; lra).
    lia.
  - rewrite (floor_laps (old + s - point) j 0) by (simpl; lra).
    rewrite (floor_laps (old - point) j 0) by (simpl; lra).
    lia.
Qed.

Lemma passes_chain (point a b c : R) :
  (passes point a b + passes point b c)%Z = passes point a c.
Proof. unfold passes. lia. Qed.

Lemma passes_lap (point a : R) (m : Z) :
  passes point a (a + 1000 * IZR m) = m.
Proof.
  unfold passes.
  pose proof (floor_bounds ((a - point) / 1000)) as Hf.
  assert (Hm : JS.floor ((a + 1000 * IZR m - point) / 1000)
               = (JS.floor ((a - point) / 1000) + m)%Z).
  { apply floor_unique. rewrite plus_IZR. lra. }
  rewrite Hm. lia.
Qed.



(** The electric test [old > 900 && new <= 900] sees exactly the frames that
    take the particle over the end of the path, for any advance below 100. *)
Lemma electric_crossed_advance (a s : R) :
  0 <= a -> 0 <= s < 100 ->
  Electric.crossed a (a + s) = true
  <-> JS.rem a 1000 < 1000 <= JS.rem a 1000 + s.
Proof.
  intros Ha Hs.
  destruct (rem_laps a Ha) as [j [Hj Hold]].
  destruct (rem_advance a s Ha (proj1 Hs)) as [Hstay Hwrap].
  unfold Electric.crossed, Electric.TOTAL_PATH_LENGTH.
  destruct (Rlt_dec (JS.rem a 1000 + s) 1000) as [Hin | Hout].
  - rewrite Hstay by assumption.
    destruct (Rgt_dec (JS.rem a 1000) 900);
      destruct (Rle_dec (JS.rem a 1000 + s) 900);
      split; intros H; try discriminate; lra.
  - rewrite Hwrap by lra.
    destruct (Rgt_dec (JS.rem a 1000) 900);
      destruct (Rle_dec (JS.rem a 1000 + s - 1000) 900);
      split; intros H; try discriminate; try reflexivity; lra.
Qed.

Lemma water_speedAt_in (lo hi gravity pump m : R) :
  lo <= gravity <= hi -> lo <= pump <= hi ->
  lo <= Water.speedAt gravity pump m <= hi.
Proof.
  intros Hg Hp. unfold Water.speedAt. destruct (Rlt_dec m 350); assumption.
Qed.

Lemma playground_speedAt_in (lo hi slide running elevator m : R) :
  lo <= slide <= hi -> lo <= running <= hi -> lo <= elevator <= hi ->
  lo <= Playground.speedAt slide running elevator m <= hi.
Proof.
  intros Hs Hr He. unfold Playground.speedAt.
  destruct (Rlt_dec m 300); [assumption |].
  destruct (Rlt_dec m 600); assumption.
Qed.

(** One electric frame adds to the counter what the particle passed. *)
Lemma electric_update_passes (speed : R) (p : Particle) (count : Z) :
  0 <= progress p -> 0 <= speed < 100 ->
  progress (fst (Electric.updateParticle speed true p count))
  = progress p + speed
  /\ snd (Electric.updateParticle speed true p count)
     = (count + passes 1000 (progress p) (progress p + speed))%Z.
Proof.
  intros Hp Hs. unfold Electric.updateParticle. cbn [fst snd progress].
  split; [reflexivity |].
  destruct (Electric.crossed (progress p) (progress p + speed)) eqn:Hc.
  - apply electric_crossed_advance in Hc; [| assumption ..].
    rewrite passes_hit; [reflexivity | lra ..].
  - rewrite passes_miss; [lia | lra .. |].
    intros Hhit. apply electric_crossed_advance in Hhit; [| assumption ..].
    congruence.
Qed.






Lemma widthFactor_in_range (width : R) :
  10 <= width <= 100 -> 0.2 <= 0.2 + 0.8 * ((width - 10) / 90) <= 1.
Proof. intros Hw. lra. Qed.

Lemma water_speeds_in_range (heightDifference pipeWidth stamp : R) :
  10 <= heightDifference <= 100 -> 10 <= pipeWidth <= 100 ->
  waterSpeedsIn 0 450
    (Water.gravitySpeed heightDifference pipeWidth,
     Water.pumpSpeed pipeWidth, stamp).
Proof.
  intros Hh Hw. pose proof (widthFactor_in_range pipeWidth Hw) as Hf.
  unfold waterSpeedsIn, Water.gravitySpeed, Water.pumpSpeed, Water.widthFactor.
  set (f := 0.2 + 0.8 * ((pipeWidth - 10) / 90)) in *.
  split; [nra | lra].
Qed.


End CrossingFacts.

(* ================================================================== *)
(** * The rolling-window estimator *)

Section RollingFacts.

Lemma retain_In (now : R) (log : list R) (t : R) :
  In t (Rolling.retain now log) <-> In t log /\ t >= now - 5000.
Proof.
  unfold Rolling.retain. rewrite filter_In.
  destruct (Rge_dec t (now - 5000)); intuition (try discriminate; auto).
Qed.

Lemma retain_recent (now : R) (log : list R) :
  Forall (fun t => t >= now - 5000) (Rolling.retain now log).
Proof.
  apply Forall_forall. intros t Ht. now apply retain_In in Ht.
Qed.

Lemma retain_keeps (now : R) (log : list R) :
  Forall (fun t => t >= now - 5000) log -> Rolling.retain now log = log.
Proof.
  intros Hall. unfold Rolling.retain.
  induction Hall as [| t rest Ht _ IH]; [reflexivity |].
  cbn [filter]. destruct (Rge_dec t (now - 5000)); [| contradiction].
  now rewrite IH.
Qed.

Lemma rate_quotient (recent : list R) :
  (2 <= length recent)%nat ->
  Rolling.timeSpanSeconds recent > 0 ->
  Rolling.rate recent
  = Some ((INR (length recent) - 1) / Rolling.timeSpanSeconds recent).
Proof.
  intros Hlen Hspan. unfold Rolling.rate.
  assert (Hb : (1 <? length recent)%nat = true) by (apply Nat.ltb_lt; lia).
  rewrite Hb.
  destruct (Rgt_dec (Rolling.timeSpanSeconds recent) 0); [| contradiction].
  unfold JS.div_checked.
  destruct (Req_dec_T (Rolling.timeSpanSeconds recent) 0); [lra | reflexivity].
Qed.

Lemma rate_few (recent : list R) :
  (length recent < 2)%nat -> Rolling.rate recent = Some 0.
Proof.
  intros Hlen. unfold Rolling.rate.
  assert (Hb : (1 <? length recent)%nat = false) by (apply Nat.ltb_ge; lia).
  now rewrite Hb.
Qed.

Lemma rate_flat (recent : list R) :
  ~ Rolling.timeSpanSeconds recent > 0 -> Rolling.rate recent = Some 0.
Proof.
  intros Hspan. unfold Rolling.rate.
  destruct (1 <? length recent)%nat; [| reflexivity].
  destruct (Rgt_dec (Rolling.timeSpanSeconds recent) 0);
    [contradiction | reflexivity].
Qed.

(** The estimator's quotient is never taken with a zero divisor. *)
Lemma rate_cases (recent : list R) :
  Rolling.rate recent = Some 0
  \/ (Rolling.timeSpanSeconds recent > 0
      /\ Rolling.rate recent
         = Some ((INR (length recent) - 1) / Rolling.timeSpanSeconds recent)).
Proof.
  destruct (le_lt_dec 2 (length recent)) as [Hlen | Hlen].
  - destruct (Rgt_dec (Rolling.timeSpanSeconds recent) 0) as [Hspan | Hspan].
    + right. split; [assumption |]. now apply rate_quotient.
    + left. now apply rate_flat.
  - left. now apply rate_few.
Qed.

Lemma rate_total (recent : list R) : exists rate, Rolling.rate recent = Some rate.
Proof.
  destruct (rate_cases recent) as [H | [_ H]]; rewrite H; eauto.
Qed.

Lemma span_ends (first : R) (middle : list R) (lastT : R) :
  Rolling.timeSpanSeconds (first :: middle ++ [lastT]) = (lastT - first) / 1000.
Proof.
  unfold Rolling.timeSpanSeconds.
  cbn [length]. rewrite Nat.sub_succ, Nat.sub_0_r.
  replace (nth (length (middle ++ [lastT])) (first :: middle ++ [lastT]) 0)
    with lastT.
  - reflexivity.
  - rewrite length_app. cbn [length].
    replace (length middle + 1)%nat with (S (length middle)) by lia.
    cbn [nth]. rewrite app_nth2 by lia.
    now rewrite Nat.sub_diag.
Qed.

Lemma due_iff (measuring : bool) (now lastUiUpdateTime : R) :
  Rolling.due measuring now lastUiUpdateTime = true
  <-> measuring = true /\ now - lastUiUpdateTime > 100.
Proof.
  unfold Rolling.due. destruct measuring.
  - destruct (Rgt_dec (now - lastUiUpdateTime) 100);
      intuition (try discriminate; auto).
  - intuition discriminate.
Qed.

Lemma retain_example : Rolling.retain 2000 [0; 1000; 2000] = [0; 1000; 2000].
Proof.
  apply retain_keeps. repeat constructor; lra.
Qed.

Lemma rate_example : Rolling.rate [0; 1000; 2000] = Some 1.
Proof.
  assert (Hspan : Rolling.timeSpanSeconds [0; 1000; 2000] = (2000 - 0) / 1000)
    by exact (span_ends 0 [1000] 2000).
  rewrite rate_quotient.
  - f_equal. rewrite Hspan. simpl. field.
  - simpl. lia.
  - rewrite Hspan. lra.
Qed.

(** C10: the estimator's rate is always a number, the quotient is taken
    only when [timeSpanSeconds > 0], and two or more retained timestamps
    whose oldest equals the newest give the rate 0; so neither estimation
    pass nor frame can divide by zero. *)
Theorem C10_rate_division_guarded :
  (forall recent, exists rate, Rolling.rate recent = Some rate)
  /\ (forall recent,
      Rolling.rate recent = Some 0
      \/ (Rolling.timeSpanSeconds recent > 0
          /\ Rolling.rate recent
             = JS.div_checked (INR (length recent) - 1)
                              (Rolling.timeSpanSeconds recent)))
  /\ (forall recent,
      (2 <= length recent)%nat ->
      nth (length recent - 1) recent 0 = nth 0 recent 0 ->
      Rolling.rate recent = Some 0)
  /\ (forall now log,
      (exists shown, Water.estimate now log = Some (Rolling.retain now log, shown))
      /\ (exists shown,
            Playground.estimate now log = Some (Rolling.retain now log, shown))).
Proof.
  split; [exact rate_total |].
  split.
  { intros recent. destruct (rate_cases recent) as [H | [Hspan H]].
    - now left.
    - right. split; [assumption |]. rewrite H. unfold JS.div_checked.
      destruct (Req_dec_T _ 0); [lra | reflexivity]. }
  split.
  { intros recent _ Hsame. apply rate_flat.
    unfold Rolling.timeSpanSeconds. rewrite Hsame. lra. }
  intros now log. unfold Water.estimate, Playground.estimate.
  destruct (rate_total (Rolling.retain now log)) as [rate ->].
  split; eauto.
Qed.

(** Two crossings logged at the same instant. *)
Lemma C10_rate_division_guarded_witness : Rolling.rate [7; 7] = Some 0.
Proof.
  apply (proj1 (proj2 (proj2 C10_rate_division_guarded)) [7; 7]).
  - simpl. lia.
  - reflexivity.
Defined.

End RollingFacts.

(* ================================================================== *)
(** * ElectricCircuit: frames, bucket and invariant *)

Section ElectricFacts.

Import Electric.

Lemma electric_step_map (speed : R) (measuring : bool) (ps : list Particle) :
  forall count,
    fst (stepParticles speed measuring ps count)
    = map (fun p => mkParticle (id p) (progress p + speed)) ps.
Proof.
  induction ps as [| p rest IH]; intros count; [reflexivity |].
  cbn [stepParticles updateParticle map].
  match goal with
  | |- context [stepParticles speed measuring rest ?c] =>
      specialize (IH c); destruct (stepParticles speed measuring rest c)
  end.
  cbn [fst] in *. now rewrite IH.
Qed.

Lemma electric_step_idle (speed : R) (ps : list Particle) :
  forall count, snd (stepParticles speed false ps count) = count.
Proof.
  induction ps as [| p rest IH]; intros count; [reflexivity |].
  cbn [stepParticles updateParticle].
  specialize (IH count). destruct (stepParticles speed false rest count).
  cbn [snd] in *. assumption.
Qed.

Lemma electric_step_count (speed : R) (ps : list Particle) :
  forall count,
    snd (stepParticles speed true ps count)
    = (count + snd (stepParticles speed true ps 0))%Z.
Proof.
  induction ps as [| p rest IH]; intros count; [cbn; lia |].
  cbn [stepParticles updateParticle].
  destruct (crossed (progress p) (progress p + speed)).
  - pose proof (IH (count + 1)%Z) as H1. pose proof (IH (0 + 1)%Z) as H0.
    destruct (stepParticles speed true rest (count + 1)).
    destruct (stepParticles speed true rest (0 + 1)).
    cbn [snd] in *. lia.
  - pose proof (IH count) as H1.
    destruct (stepParticles speed true rest count).
    destruct (stepParticles speed true rest 0).
    cbn [snd] in *. lia.
Qed.

(** The frame that closes a bucket. *)
Lemma electric_frame_report (now : R) (s : State) :
  measureRateRef s = true -> now - lastMeasureTime s >= 1000 ->
  runSimulation now s
  = mkState (isPlaying s) (voltage s) (wireWidth s) (measureRate s)
            (IZR (particlesCrossed s) * CHARGE_PER_PARTICLE)
            (fst (stepParticles (speedOf (voltage s)) true (particles s) 0))
            (snd (stepParticles (speedOf (voltage s)) true (particles s) 0))
            now true.
Proof.
  intros Href Hdue. unfold runSimulation. rewrite Href.
  destruct (Rge_dec (now - lastMeasureTime s) 1000); [| contradiction].
  now destruct (stepParticles (speedOf (voltage s)) true (particles s) 0).
Qed.

(** A frame inside a bucket. *)
Lemma electric_frame_inside (now : R) (s : State) :
  measureRateRef s = true -> now - lastMeasureTime s < 1000 ->
  runSimulation now s
  = mkState (isPlaying s) (voltage s) (wireWidth s) (measureRate s)
            (displayRate s)
            (fst (stepParticles (speedOf (voltage s)) true (particles s) 0))
            (particlesCrossed s
             + snd (stepParticles (speedOf (voltage s)) true (particles s) 0))%Z
            (lastMeasureTime s) true.
Proof.
  intros Href Hin. unfold runSimulation. rewrite Href.
  destruct (Rge_dec (now - lastMeasureTime s) 1000); [lra |].
  pose proof (electric_step_count (speedOf (voltage s)) (particles s)
                (particlesCrossed s)) as Hcount.
  pose proof (electric_step_map (speedOf (voltage s)) true (particles s)
                (particlesCrossed s)) as Hmap.
  rewrite <- (electric_step_map (speedOf (voltage s)) true (particles s) 0)
    in Hmap.
  destruct (stepParticles (speedOf (voltage s)) true (particles s)
              (particlesCrossed s)).
  cbn [fst snd] in Hcount, Hmap. now rewrite Hcount, Hmap.
Qed.

(** A frame while measurement is off. *)
Lemma electric_frame_idle (now : R) (s : State) :
  measureRateRef s = false ->
  runSimulation now s
  = mkState (isPlaying s) (voltage s) (wireWidth s) (measureRate s)
            (displayRate s)
            (map (fun p => mkParticle (id p) (progress p + speedOf (voltage s)))
                 (particles s))
            (particlesCrossed s) (lastMeasureTime s) false.
Proof.
  intros Href. unfold runSimulation. rewrite Href.
  pose proof (electric_step_idle (speedOf (voltage s)) (particles s)
                (particlesCrossed s)) as Hcount.
  pose proof (electric_step_map (speedOf (voltage s)) false (particles s)
                (particlesCrossed s)) as Hmap.
  destruct (stepParticles (speedOf (voltage s)) false (particles s)
              (particlesCrossed s)).
  cbn [fst snd] in Hcount, Hmap. now rewrite Hcount, Hmap.
Qed.

Lemma electric_frame_particles (now : R) (s : State) :
  particles (runSimulation now s)
  = map (fun p => mkParticle (id p) (progress p + (voltage s / 100) * 4))
        (particles s).
Proof.
  unfold runSimulation.
  match goal with
  | |- context [stepParticles ?v ?m ?ps ?c] =>
      pose proof (electric_step_map v m ps c) as Hmap;
      destruct (stepParticles v m ps c)
  end.
  cbn [fst particles] in *. exact Hmap.
Qed.

Lemma electric_bucket_frames (nows : list R) :
  forall s,
    measureRateRef s = true ->
    Forall (fun t => t - lastMeasureTime s < 1000) nows ->
    let sN := electricFrames nows s in
    measureRateRef sN = true
    /\ voltage sN = voltage s
    /\ lastMeasureTime sN = lastMeasureTime s
    /\ displayRate sN = displayRate s
    /\ particlesCrossed sN
       = (particlesCrossed s
          + electricBucket (speedOf (voltage s)) (length nows) (particles s))%Z.
Proof.
  induction nows as [| t rest IH]; intros s Href Hall.
  - cbn. repeat split; try reflexivity; try assumption. lia.
  - inversion Hall as [| ? ? Ht Hrest]; subst.
    cbn [electricFrames fold_left length electricBucket].
    pose proof (electric_frame_inside t s Href Ht) as Hframe.
    fold (electricFrames rest (runSimulation t s)).
    specialize (IH (runSimulation t s)).
    rewrite Hframe in IH |- *. cbn [measureRateRef voltage lastMeasureTime
      displayRate particlesCrossed particles] in IH.
    destruct (IH eq_refl Hrest) as [H1 [H2 [H3 [H4 H5]]]].
    repeat split; try assumption. rewrite H5. lia.
Qed.

Lemma electric_settled_initial (t0 : R) : electricSettled (initialState t0).
Proof. unfold electricSettled. cbn. auto. Qed.

Lemma electric_settled_setMeasureRate (b : bool) (now : R) (s : State) :
  electricSettled s -> electricSettled (setMeasureRate b now s).
Proof.
  intros [Href Hoff]. unfold setMeasureRate.
  destruct (Bool.eqb b (measureRate s)) eqn:Hsame; [split; assumption |].
  unfold measureRateEffect. cbn [measureRate].
  destruct b; unfold electricSettled; cbn; split; auto; discriminate.
Qed.

Lemma electric_settled_frame (now : R) (s : State) :
  electricSettled s -> electricSettled (runSimulation now s).
Proof.
  intros [Href Hoff]. destruct (measureRateRef s) eqn:Hm.
  - unfold electricSettled.
    assert (Hsame : measureRateRef (runSimulation now s) = true
                    /\ measureRate (runSimulation now s) = measureRate s).
    { destruct (Rge_dec (now - lastMeasureTime s) 1000).
      - rewrite electric_frame_report by assumption. cbn. auto.
      - rewrite electric_frame_inside by (assumption || lra). cbn. auto. }
    destruct Hsame as [H1 H2]. rewrite H1, H2. split; [assumption |].
    intros Hfalse. congruence.
  - rewrite electric_frame_idle by assumption.
    unfold electricSettled. cbn. split; assumption.
Qed.

Lemma electric_settled_reset (now : R) (s : State) :
  electricSettled s -> electricSettled (handleReset now s).
Proof.
  intros Hs. unfold handleReset.
  match goal with
  | |- context [setMeasureRate false now ?s1] =>
      assert (H1 : electricSettled s1) by exact Hs;
      pose proof (electric_settled_setMeasureRate false now s1 H1) as H2;
      destruct (setMeasureRate false now s1)
  end.
  exact H2.
Qed.

Lemma electric_settled_step (s : State) (e : Event) :
  electricSettled s -> electricSettled (step s e).
Proof.
  intros Hs. destruct e; cbn [step].
  - destruct (isPlaying s); [now apply electric_settled_frame | assumption].
  - exact Hs.
  - exact Hs.
  - now apply electric_settled_setMeasureRate.
  - exact Hs.
  - now apply electric_settled_reset.
Qed.

Lemma electric_settled_run (es : list Event) :
  forall s, electricSettled s -> electricSettled (run s es).
Proof.
  induction es as [| e rest IH]; intros s Hs; [assumption |].
  cbn [run fold_left]. apply IH. now apply electric_settled_step.
Qed.

Lemma electric_reset_settled (now : R) (s : State) :
  electricSettled s ->
  handleReset now s
  = mkState false INITIAL_VOLTAGE INITIAL_WIRE_WIDTH false 0
            (seedEntities PARTICLE_COUNT TOTAL_PATH_LENGTH)
            0%Z (if measureRate s then now else lastMeasureTime s) false.
Proof.
  intros [Href Hoff].
  destruct s as [playing v w measuring shown ps count lastT mref].
  cbn [measureRate displayRate particlesCrossed measureRateRef] in Href, Hoff.
  subst mref.
  destruct measuring.
  - reflexivity.
  - destruct (Hoff eq_refl) as [-> ->]. reflexivity.
Qed.

End ElectricFacts.

(* ================================================================== *)
(** * WaterCircuit: frames and invariant *)

Section WaterFacts.

Import Water.

Lemma water_step_map (gravity pump : R) (measuring : bool) (clock : nat -> R)
  (ps : list Particle) :
  forall i log spin,
    fst (fst (stepParticles gravity pump measuring clock i ps log spin))
    = map (fun p =>
             mkParticle (id p)
               (progress p
                + speedAt gravity pump (JS.rem (progress p) TOTAL_PATH_LENGTH)))
          ps.
Proof.
  induction ps as [| p rest IH]; intros i log spin; [reflexivity |].
  cbn [stepParticles updateParticle map].
  match goal with
  | |- context [stepParticles gravity pump measuring clock (S i) rest ?l ?b] =>
      specialize (IH (S i) l b);
      destruct (stepParticles gravity pump measuring clock (S i) rest l b)
        as [[rest' logF] spinF]
  end.
  cbn [fst] in *. now rewrite IH.
Qed.

Lemma water_step_idle (gravity pump : R) (clock : nat -> R) (ps : list Particle) :
  forall i log spin,
    snd (fst (stepParticles gravity pump false clock i ps log spin)) = log.
Proof.
  induction ps as [| p rest IH]; intros i log spin; [reflexivity |].
  cbn [stepParticles updateParticle].
  match goal with
  | |- context [stepParticles gravity pump false clock (S i) rest log ?b] =>
      specialize (IH (S i) log b);
      destruct (stepParticles gravity pump false clock (S i) rest log b)
        as [[rest' logF] spinF]
  end.
  cbn [fst snd] in *. assumption.
Qed.

(** A frame only appends clock readings of its own to the log. *)
Lemma water_step_log (gravity pump : R) (measuring : bool) (clock : nat -> R)
  (ps : list Particle) :
  forall i log spin,
    exists fresh,
      snd (fst (stepParticles gravity pump measuring clock i ps log spin))
      = log ++ fresh
      /\ Forall (fun t => exists j, t = clock j) fresh.
Proof.
  induction ps as [| p rest IH]; intros i log spin.
  - exists []. cbn. rewrite app_nil_r. split; constructor.
  - cbn [stepParticles updateParticle].
    match goal with
    | |- context [stepParticles gravity pump measuring clock (S i) rest ?l ?b] =>
        destruct (IH (S i) l b) as [fresh [Hlog Hfresh]];
        destruct (stepParticles gravity pump measuring clock (S i) rest l b)
          as [[rest' logF] spinF]
    end.
    cbn [fst snd] in *. subst logF.
    destruct measuring; [| now exists fresh].
    destruct (Rolling.crossed _ _ _); [| now exists fresh].
    exists (clock i :: fresh). rewrite <- app_assoc. split; [reflexivity |].
    constructor; [now exists i | assumption].
Qed.

(** The state after a frame, field by field. *)
Lemma water_frame (now : R) (clock : nat -> R) (s : State) :
  let due := Rolling.due (measureRateRef s) now (lastUiUpdateTimeRef s) in
  let log0 := if due then Rolling.retain now (crossingsTimestampsRef s)
              else crossingsTimestampsRef s in
  let gravity := gravitySpeed (heightDifferenceRef s) (pipeWidthRef s) in
  let pump := pumpSpeed (pipeWidthRef s) in
  let r := stepParticles gravity pump (measureRateRef s) clock 0
             (particles s) log0 false in
  exists display,
    (if due
     then exists rate,
         Rolling.rate (Rolling.retain now (crossingsTimestampsRef s)) = Some rate
         /\ display = rate * VOLUME_PER_PARTICLE
     else display = displayRate s)
    /\ runSimulation now clock s
       = Some (mkState (isPlaying s) (heightDifference s) (pipeWidth s)
                 (if snd r then JS.rem (turbineRotation s + gravity * 2) 360
                  else turbineRotation s)
                 (measureRate s) display (fst (fst r))
                 (heightDifferenceRef s) (pipeWidthRef s)
                 (snd (fst r)) (if due then now else lastUiUpdateTimeRef s)
                 (measureRateRef s)).
Proof.
  intros due log0 gravity pump r. subst r log0.
  unfold runSimulation, estimate. fold due. fold gravity. fold pump.
  destruct due.
  - destruct (rate_total (Rolling.retain now (crossingsTimestampsRef s)))
      as [rate Hrate].
    rewrite Hrate.
    exists (rate * VOLUME_PER_PARTICLE). split; [now exists rate |].
    now destruct (stepParticles _ _ _ _ _ _ _ _) as [[ps log1] spin].
  - exists (displayRate s). split; [reflexivity |].
    now destruct (stepParticles _ _ _ _ _ _ _ _) as [[ps log1] spin].
Qed.

Lemma water_frame_total (now : R) (clock : nat -> R) (s : State) :
  exists s', runSimulation now clock s = Some s'.
Proof.
  destruct (water_frame now clock s) as [display [_ H]]. eauto.
Qed.

Lemma water_settled_initial (t0 : R) : waterSettled (initialState t0).
Proof. unfold waterSettled. cbn. auto. Qed.

Lemma water_settled_setMeasureRate (b : bool) (now : R) (s : State) :
  waterSettled s -> waterSettled (setMeasureRate b now s).
Proof.
  intros Hs. unfold setMeasureRate.
  destruct (Bool.eqb b (measureRate s)) eqn:Hsame; [exact Hs |].
  destruct Hs as [Hh [Hw [Href Hoff]]].
  unfold measureRateEffect. cbn [measureRate].
  destruct b; unfold waterSettled; cbn; repeat split; auto; discriminate.
Qed.

Lemma water_settled_frame (now : R) (clock : nat -> R) (s s' : State) :
  waterSettled s -> runSimulation now clock s = Some s' -> waterSettled s'.
Proof.
  intros [Hh [Hw [Href Hoff]]] Hrun.
  destruct (water_frame now clock s) as [display [Hdisplay Heq]].
  rewrite Hrun in Heq. injection Heq as ->.
  unfold waterSettled. cbn.
  split; [assumption |]. split; [assumption |]. split; [assumption |].
  intros Hm. split.
  - rewrite Href, Hm in Hdisplay. cbn in Hdisplay.
    subst display. apply (Hoff Hm).
  - rewrite Href, Hm. cbn [Rolling.due].
    rewrite water_step_idle. apply (Hoff Hm).
Qed.

Lemma water_settled_sliders (h w : R) (s : State) :
  waterSettled s ->
  waterSettled (setHeightDifference h s) /\ waterSettled (setPipeWidth w s).
Proof.
  intros [Hh [Hw [Href Hoff]]]. unfold waterSettled. cbn. auto 10.
Qed.

Lemma water_settled_reset (now : R) (s : State) :
  waterSettled s -> waterSettled (handleReset now s).
Proof.
  intros [Hh [Hw [Href Hoff]]]. unfold handleReset.
  match goal with
  | |- context [setMeasureRate false now ?s3] =>
      assert (H3 : waterSettled s3) by (unfold waterSettled; cbn; auto 10);
      pose proof (water_settled_setMeasureRate false now s3 H3) as H4;
      destruct (setMeasureRate false now s3)
  end.
  exact H4.
Qed.

Lemma water_settled_step (s s' : State) (e : Event) :
  waterSettled s -> step s e = Some s' -> waterSettled s'.
Proof.
  intros Hs Hstep. destruct e; cbn [step] in Hstep.
  - destruct (isPlaying s).
    + now apply (water_settled_frame now clock s).
    + now injection Hstep as <-.
  - injection Hstep as <-. now apply water_settled_sliders.
  - injection Hstep as <-. now apply water_settled_sliders.
  - injection Hstep as <-. now apply water_settled_setMeasureRate.
  - injection Hstep as <-. exact Hs.
  - injection Hstep as <-. now apply water_settled_reset.
Qed.

Lemma water_step_total (s : State) (e : Event) : exists s', step s e = Some s'.
Proof.
  destruct e; cbn [step]; eauto.
  destruct (isPlaying s); [apply water_frame_total | eauto].
Qed.

Lemma water_run_total (es : list Event) :
  forall s, exists s', run s es = Some s'.
Proof.
  induction es as [| e rest IH]; intros s; [cbn; eauto |].
  cbn [run]. destruct (water_step_total s e) as [s1 ->]. apply IH.
Qed.

Lemma water_settled_run (es : list Event) :
  forall s s', waterSettled s -> run s es = Some s' -> waterSettled s'.
Proof.
  induction es as [| e rest IH]; intros s s' Hs Hrun; cbn [run] in Hrun.
  - now injection Hrun as <-.
  - destruct (step s e) as [s1 |] eqn:Hstep; [| discriminate].
    apply (IH s1 s'); [| assumption].
    now apply (water_settled_step s s1 e).
Qed.

Lemma water_reset_settled (now : R) (s : State) :
  waterSettled s ->
  handleReset now s
  = mkState false INITIAL_HEIGHT_DIFFERENCE INITIAL_PIPE_WIDTH 0 false 0
            (seedEntities PARTICLE_COUNT TOTAL_PATH_LENGTH)
            INITIAL_HEIGHT_DIFFERENCE INITIAL_PIPE_WIDTH []
            (lastUiUpdateTimeRef s) false.
Proof.
  intros [Hh [Hw [Href Hoff]]].
  destruct s as [playing h w rotation measuring shown ps href wref log lastUi mref].
  cbn [measureRate displayRate crossingsTimestampsRef measureRateRef] in Href, Hoff.
  subst mref.
  destruct measuring.
  - reflexivity.
  - destruct (Hoff eq_refl) as [-> ->]. reflexivity.
Qed.

End WaterFacts.

(* ================================================================== *)
(** * PlaygroundSlide: frames and invariant *)

Section PlaygroundFacts.

Import Playground.

Lemma playground_step_map (slide running elevator : R) (measuring : bool)
  (clock : nat -> R) (ks : list Kid) :
  forall i log,
    fst (stepKids slide running elevator measuring clock i ks log)
    = map (fun k =>
             mkParticle (id k)
               (progress k
                + speedAt slide running elevator
                    (JS.rem (progress k) TOTAL_PATH_LENGTH)))
          ks.
Proof.
  induction ks as [| k rest IH]; intros i log; [reflexivity |].
  cbn [stepKids updateKid map].
  match goal with
  | |- context [stepKids slide running elevator measuring clock (S i) rest ?l] =>
      specialize (IH (S i) l);
      destruct (stepKids slide running elevator measuring clock (S i) rest l)
        as [rest' logF]
  end.
  cbn [fst] in *. now rewrite IH.
Qed.

Lemma playground_step_idle (slide running elevator : R) (clock : nat -> R)
  (ks : list Kid) :
  forall i log,
    snd (stepKids slide running elevator false clock i ks log) = log.
Proof.
  induction ks as [| k rest IH]; intros i log; [reflexivity |].
  cbn [stepKids updateKid].
  specialize (IH (S i) log).
  destruct (stepKids slide running elevator false clock (S i) rest log)
    as [rest' logF].
  cbn [snd] in *. assumption.
Qed.

Lemma playground_step_log (slide running elevator : R) (measuring : bool)
  (clock : nat -> R) (ks : list Kid) :
  forall i log,
    exists fresh,
      snd (stepKids slide running elevator measuring clock i ks log)
      = log ++ fresh
      /\ Forall (fun t => exists j, t = clock j) fresh.
Proof.
  induction ks as [| k rest IH]; intros i log.
  - exists []. cbn. rewrite app_nil_r. split; constructor.
  - cbn [stepKids updateKid].
    match goal with
    | |- context [stepKids slide running elevator measuring clock (S i) rest ?l] =>
        destruct (IH (S i) l) as [fresh [Hlog Hfresh]];
        destruct (stepKids slide running elevator measuring clock (S i) rest l)
          as [rest' logF]
    end.
    cbn [fst snd] in *. subst logF.
    destruct measuring; [| now exists fresh].
    destruct (Rolling.crossed _ _ _); [| now exists fresh].
    exists (clock i :: fresh). rewrite <- app_assoc. split; [reflexivity |].
    constructor; [now exists i | assumption].
Qed.

(** The state after a frame, field by field. *)
Lemma playground_frame (now : R) (clock : nat -> R) (s : State) :
  let due := Rolling.due (measureRateRef s) now (lastUiUpdateTimeRef s) in
  let log0 := if due then Rolling.retain now (crossingsTimestampsRef s)
              else crossingsTimestampsRef s in
  let r := stepKids (slideSpeed (slideHeightRef s) (slideWidthRef s))
             (runSpeed (slideWidthRef s)) (elevatorSpeed (slideWidthRef s))
             (measureRateRef s) clock 0 (kids s) log0 in
  exists display,
    (if due
     then Rolling.rate (Rolling.retain now (crossingsTimestampsRef s))
          = Some display
     else display = displayRate s)
    /\ runSimulation now clock s
       = Some (mkState (isPlaying s) (slideHeight s) (slideWidth s)
                 (measureRate s) display (fst r)
                 (slideHeightRef s) (slideWidthRef s)
                 (snd r) (if due then now else lastUiUpdateTimeRef s)
                 (measureRateRef s)).
Proof.
  intros due log0 r. subst r log0.
  unfold runSimulation, estimate. fold due.
  destruct due.
  - destruct (rate_total (Rolling.retain now (crossingsTimestampsRef s)))
      as [rate Hrate].
    rewrite Hrate.
    exists rate. split; [reflexivity |].
    now destruct (stepKids _ _ _ _ _ _ _ _) as [ks log1].
  - exists (displayRate s). split; [reflexivity |].
    now destruct (stepKids _ _ _ _ _ _ _ _) as [ks log1].
Qed.

Lemma playground_frame_total (now : R) (clock : nat -> R) (s : State) :
  exists s', runSimulation now clock s = Some s'.
Proof.
  destruct (playground_frame now clock s) as [display [_ H]]. eauto.
Qed.

Lemma playground_settled_initial (t0 : R) : playgroundSettled (initialState t0).
Proof. unfold playgroundSettled. cbn. auto. Qed.

Lemma playground_settled_setMeasureRate (b : bool) (now : R) (s : State) :
  playgroundSettled s -> playgroundSettled (setMeasureRate b now s).
Proof.
  intros Hs. unfold setMeasureRate.
  destruct (Bool.eqb b (measureRate s)) eqn:Hsame; [exact Hs |].
  destruct Hs as [Hh [Hw [Href Hoff]]].
  unfold measureRateEffect. cbn [measureRate].
  destruct b; unfold playgroundSettled; cbn; repeat split; auto; discriminate.
Qed.

Lemma playground_settled_frame (now : R) (clock : nat -> R) (s s' : State) :
  playgroundSettled s -> runSimulation now clock s = Some s' ->
  playgroundSettled s'.
Proof.
  intros [Hh [Hw [Href Hoff]]] Hrun.
  destruct (playground_frame now clock s) as [display [Hdisplay Heq]].
  rewrite Hrun in Heq. injection Heq as ->.
  unfold playgroundSettled. cbn.
  split; [assumption |]. split; [assumption |]. split; [assumption |].
  intros Hm. split.
  - rewrite Href, Hm in Hdisplay. cbn in Hdisplay.
    subst display. apply (Hoff Hm).
  - rewrite Href, Hm. cbn [Rolling.due].
    rewrite playground_step_idle. apply (Hoff Hm).
Qed.

Lemma playground_settled_sliders (h w : R) (s : State) :
  playgroundSettled s ->
  playgroundSettled (setSlideHeight h s) /\ playgroundSettled (setSlideWidth w s).
Proof.
  intros [Hh [Hw [Href Hoff]]]. unfold playgroundSettled. cbn. auto 10.
Qed.

Lemma playground_settled_reset (now : R) (s : State) :
  playgroundSettled s -> playgroundSettled (handleReset now s).
Proof.
  intros [Hh [Hw [Href Hoff]]]. unfold handleReset.
  match goal with
  | |- context [setMeasureRate false now ?s2] =>
      assert (H2 : playgroundSettled s2)
        by (unfold playgroundSettled; cbn; auto 10);
      pose proof (playground_settled_setMeasureRate false now s2 H2) as H3;
      destruct (setMeasureRate false now s2)
  end.
  exact H3.
Qed.

Lemma playground_settled_step (s s' : State) (e : Event) :
  playgroundSettled s -> step s e = Some s' -> playgroundSettled s'.
Proof.
  intros Hs Hstep. destruct e; cbn [step] in Hstep.
  - destruct (isPlaying s).
    + now apply (playground_settled_frame now clock s).
    + now injection Hstep as <-.
  - injection Hstep as <-. now apply playground_settled_sliders.
  - injection Hstep as <-. now apply playground_settled_sliders.
  - injection Hstep as <-. now apply playground_settled_setMeasureRate.
  - injection Hstep as <-. exact Hs.
  - injection Hstep as <-. now apply playground_settled_reset.
Qed.

Lemma playground_step_total (s : State) (e : Event) :
  exists s', step s e = Some s'.
Proof.
  destruct e; cbn [step]; eauto.
  destruct (isPlaying s); [apply playground_frame_total | eauto].
Qed.

Lemma playground_run_total (es : list Event) :
  forall s, exists s', run s es = Some s'.
Proof.
  induction es as [| e rest IH]; intros s; [cbn; eauto |].
  cbn [run]. destruct (playground_step_total s e) as [s1 ->]. apply IH.
Qed.

Lemma playground_settled_run (es : list Event) :
  forall s s', playgroundSettled s -> run s es = Some s' -> playgroundSettled s'.
Proof.
  induction es as [| e rest IH]; intros s s' Hs Hrun; cbn [run] in Hrun.
  - now injection Hrun as <-.
  - destruct (step s e) as [s1 |] eqn:Hstep; [| discriminate].
    apply (IH s1 s'); [| assumption].
    now apply (playground_settled_step s s1 e).
Qed.

Lemma playground_reset_settled (now : R) (s : State) :
  playgroundSettled s ->
  handleReset now s
  = mkState false INITIAL_SLIDE_HEIGHT INITIAL_SLIDE_WIDTH false 0
            (seedEntities KID_COUNT TOTAL_PATH_LENGTH)
            INITIAL_SLIDE_HEIGHT INITIAL_SLIDE_WIDTH []
            (lastUiUpdateTimeRef s) false.
Proof.
  intros [Hh [Hw [Href Hoff]]].
  destruct s as [playing h w measuring shown ks href wref log lastUi mref].
  cbn [measureRate displayRate crossingsTimestampsRef measureRateRef] in Href, Hoff.
  subst mref.
  destruct measuring.
  - reflexivity.
  - destruct (Hoff eq_refl) as [-> ->]. reflexivity.
Qed.

End PlaygroundFacts.

(* ================================================================== *)
(** * Animation loop: speeds *)

Section SpeedFacts.

Lemma water_frame_particles (now : R) (clock : nat -> R) (s : Water.State) :
  waterSettled s ->
  exists s',
    Water.runSimulation now clock s = Some s'
    /\ Water.particles s'
       = map (fun p =>
                let widthFactor := 0.2 + 0.8 * ((Water.pipeWidth s - 10) / 90) in
                let gravitySpeed :=
                  (0.5 + (Water.heightDifference s / 100) * 4) * widthFactor in
                let pumpSpeed := 3 * widthFactor in
                mkParticle (id p)
                  (progress p
                   + (if Rlt_dec (JS.rem (progress p) 1000) 350
                      then gravitySpeed else pumpSpeed)))
             (Water.particles s).
Proof.
  intros [Hh [Hw _]].
  destruct (water_frame now clock s) as [display [_ Heq]].
  eexists. split; [exact Heq |].
  cbn [Water.particles]. rewrite water_step_map, Hh, Hw. reflexivity.
Qed.

Lemma playground_frame_kids (now : R) (clock : nat -> R) (s : Playground.State) :
  playgroundSettled s ->
  exists s',
    Playground.runSimulation now clock s = Some s'
    /\ Playground.kids s'
       = map (fun k =>
                let widthFactor :=
                  0.2 + 0.8 * ((Playground.slideWidth s - 10) / 90) in
                let slideSpeed :=
                  (1.5 + (Playground.slideHeight s / 100) * 4) * widthFactor in
                let runSpeed := 2 * widthFactor in
                let elevatorSpeed := 3 * widthFactor in
                mkParticle (id k)
                  (progress k
                   + (if Rlt_dec (JS.rem (progress k) 1000) 300 then slideSpeed
                      else if Rlt_dec (JS.rem (progress k) 1000) 600
                           then runSpeed else elevatorSpeed)))
             (Playground.kids s).
Proof.
  intros [Hh [Hw _]].
  destruct (playground_frame now clock s) as [display [_ Heq]].
  eexists. split; [exact Heq |].
  cbn [Playground.kids]. rewrite playground_step_map, Hh, Hw. reflexivity.
Qed.

(** C3: in a frame every entity advances by the documented speed, computed
    from the slider values current at that frame: electric
    [(voltage / 100) * 4], whatever the wire width; water
    [(0.5 + (heightDifference / 100) * 4) * widthFactor] while its progress
    mod 1000 is below 350 and [3 * widthFactor] otherwise; playground
    [(1.5 + (slideHeight / 100) * 4) * widthFactor] below 300,
    [2 * widthFactor] from 300 to below 600 and [3 * widthFactor] from 600
    on; with [widthFactor = 0.2 + 0.8 * ((width - 10) / 90)]. *)
Theorem C3_speed_formulas :
  (forall now s,
      Electric.particles (Electric.runSimulation now s)
      = map (fun p => mkParticle (id p)
                        (progress p + (Electric.voltage s / 100) * 4))
            (Electric.particles s))
  /\ (forall now w s,
      Electric.particles
        (Electric.runSimulation now (Electric.step s (Electric.SetWireWidth w)))
      = Electric.particles (Electric.runSimulation now s))
  /\ (forall t0 events s now clock,
      Water.run (Water.initialState t0) events = Some s ->
      exists s',
        Water.runSimulation now clock s = Some s'
        /\ Water.particles s'
           = map (fun p =>
                    let widthFactor :=
                      0.2 + 0.8 * ((Water.pipeWidth s - 10) / 90) in
                    let gravitySpeed :=
                      (0.5 + (Water.heightDifference s / 100) * 4) * widthFactor in
                    let pumpSpeed := 3 * widthFactor in
                    mkParticle (id p)
                      (progress p
                       + (if Rlt_dec (JS.rem (progress p) 1000) 350
                          then gravitySpeed else pumpSpeed)))
                 (Water.particles s))
  /\ (forall t0 events s now clock,
      Playground.run (Playground.initialState t0) events = Some s ->
      exists s',
        Playground.runSimulation now clock s = Some s'
        /\ Playground.kids s'
           = map (fun k =>
                    let widthFactor :=
                      0.2 + 0.8 * ((Playground.slideWidth s - 10) / 90) in
                    let slideSpeed :=
                      (1.5 + (Playground.slideHeight s / 100) * 4) * widthFactor in
                    let runSpeed := 2 * widthFactor in
                    let elevatorSpeed := 3 * widthFactor in
                    mkParticle (id k)
                      (progress k
                       + (if Rlt_dec (JS.rem (progress k) 1000) 300
                          then slideSpeed
                          else if Rlt_dec (JS.rem (progress k) 1000) 600
                               then runSpeed else elevatorSpeed)))
                 (Playground.kids s)).
Proof.
  split; [exact electric_frame_particles |].
  split.
  { intros now w s. now rewrite !electric_frame_particles. }
  split.
  - intros t0 events s now clock Hrun.
    apply water_frame_particles.
    apply (water_settled_run events (Water.initialState t0) s);
      [apply water_settled_initial | assumption].
  - intros t0 events s now clock Hrun.
    apply playground_frame_kids.
    apply (playground_settled_run events (Playground.initialState t0) s);
      [apply playground_settled_initial | assumption].
Qed.

(** A water frame right after the pipe-width slider was moved to 100. *)
Lemma C3_speed_formulas_witness :
  exists s',
    Water.runSimulation 16 (fun _ => 16)
      (Water.setPipeWidth 100 (Water.initialState 0)) = Some s'
    /\ Water.particles s'
       = map (fun p =>
                let widthFactor :=
                  0.2 + 0.8 * ((Water.pipeWidth
                                  (Water.setPipeWidth 100 (Water.initialState 0))
                                - 10) / 90) in
                let gravitySpeed :=
                  (0.5 + (Water.heightDifference
                            (Water.setPipeWidth 100 (Water.initialState 0))
                          / 100) * 4) * widthFactor in
                let pumpSpeed := 3 * widthFactor in
                mkParticle (id p)
                  (progress p
                   + (if Rlt_dec (JS.rem (progress p) 1000) 350
                      then gravitySpeed else pumpSpeed)))
             (Water.particles (Water.setPipeWidth 100 (Water.initialState 0))).
Proof.
  apply (proj1 (proj2 (proj2 C3_speed_formulas)) 0 [Water.SetPipeWidth 100]).
  reflexivity.
Defined.

End SpeedFacts.

(* ================================================================== *)
(** * Rate estimators in the animation loop *)

Section EstimatorFacts.

Lemma water_frame_pass (now : R) (clock : nat -> R) (s : Water.State) :
  exists s',
    Water.runSimulation now clock s = Some s'
    /\ (Water.measureRateRef s = true ->
        now - Water.lastUiUpdateTimeRef s > 100 ->
        Water.lastUiUpdateTimeRef s' = now
        /\ (exists rate,
             Rolling.rate (Rolling.retain now (Water.crossingsTimestampsRef s))
             = Some rate
             /\ Water.displayRate s' = rate * Water.VOLUME_PER_PARTICLE)
        /\ exists fresh,
             Water.crossingsTimestampsRef s'
             = Rolling.retain now (Water.crossingsTimestampsRef s) ++ fresh
             /\ Forall (fun t => exists j, t = clock j) fresh)
    /\ (~ (Water.measureRateRef s = true
           /\ now - Water.lastUiUpdateTimeRef s > 100) ->
        Water.lastUiUpdateTimeRef s' = Water.lastUiUpdateTimeRef s
        /\ Water.displayRate s' = Water.displayRate s
        /\ exists fresh,
             Water.crossingsTimestampsRef s'
             = Water.crossingsTimestampsRef s ++ fresh).
Proof.
  destruct (water_frame now clock s) as [display [Hdisplay Heq]].
  eexists. split; [exact Heq |].
  cbn [Water.lastUiUpdateTimeRef Water.displayRate Water.crossingsTimestampsRef].
  destruct (Rolling.due (Water.measureRateRef s) now
              (Water.lastUiUpdateTimeRef s)) eqn:Hdue.
  - split.
    + intros _ _. split; [reflexivity |]. split.
      * destruct Hdisplay as [rate [Hrate ->]]. now exists rate.
      * apply water_step_log.
    + intros Hnot. apply due_iff in Hdue. contradiction.
  - split.
    + intros Hm Hlate.
      assert (Hyes : Rolling.due (Water.measureRateRef s) now
                       (Water.lastUiUpdateTimeRef s) = true)
        by (apply due_iff; auto).
      congruence.
    + intros _. split; [reflexivity |]. split; [assumption |].
      destruct (water_step_log
                  (Water.gravitySpeed (Water.heightDifferenceRef s)
                     (Water.pipeWidthRef s))
                  (Water.pumpSpeed (Water.pipeWidthRef s))
                  (Water.measureRateRef s) clock (Water.particles s) 0%nat
                  (Water.crossingsTimestampsRef s) false)
        as [fresh [Hlog _]].
      now exists fresh.
Qed.

Lemma playground_frame_pass (now : R) (clock : nat -> R) (s : Playground.State) :
  exists s',
    Playground.runSimulation now clock s = Some s'
    /\ (Playground.measureRateRef s = true ->
        now - Playground.lastUiUpdateTimeRef s > 100 ->
        Playground.lastUiUpdateTimeRef s' = now
        /\ Rolling.rate
             (Rolling.retain now (Playground.crossingsTimestampsRef s))
           = Some (Playground.displayRate s')
        /\ exists fresh,
             Playground.crossingsTimestampsRef s'
             = Rolling.retain now (Playground.crossingsTimestampsRef s) ++ fresh
             /\ Forall (fun t => exists j, t = clock j) fresh)
    /\ (~ (Playground.measureRateRef s = true
           /\ now - Playground.lastUiUpdateTimeRef s > 100) ->
        Playground.lastUiUpdateTimeRef s' = Playground.lastUiUpdateTimeRef s
        /\ Playground.displayRate s' = Playground.displayRate s
        /\ exists fresh,
             Playground.crossingsTimestampsRef s'
             = Playground.crossingsTimestampsRef s ++ fresh).
Proof.
  destruct (playground_frame now clock s) as [display [Hdisplay Heq]].
  eexists. split; [exact Heq |].
  cbn [Playground.lastUiUpdateTimeRef Playground.displayRate
       Playground.crossingsTimestampsRef].
  destruct (Rolling.due (Playground.measureRateRef s) now
              (Playground.lastUiUpdateTimeRef s)) eqn:Hdue.
  - split.
    + intros _ _. split; [reflexivity |]. split; [assumption |].
      apply playground_step_log.
    + intros Hnot. apply due_iff in Hdue. contradiction.
  - split.
    + intros Hm Hlate.
      assert (Hyes : Rolling.due (Playground.measureRateRef s) now
                       (Playground.lastUiUpdateTimeRef s) = true)
        by (apply due_iff; auto).
      congruence.
    + intros _. split; [reflexivity |]. split; [assumption |].
      destruct (playground_step_log
                  (Playground.slideSpeed (Playground.slideHeightRef s)
                     (Playground.slideWidthRef s))
                  (Playground.runSpeed (Playground.slideWidthRef s))
                  (Playground.elevatorSpeed (Playground.slideWidthRef s))
                  (Playground.measureRateRef s) clock (Playground.kids s) 0%nat
                  (Playground.crossingsTimestampsRef s))
        as [fresh [Hlog _]].
      now exists fresh.
Qed.

End EstimatorFacts.

(* ================================================================== *)
(** * Reset and switching measurement off *)

Section ResetFacts.

Lemma seed_length (count : Z) (total : R) :
  length (seedEntities count total) = Z.to_nat count.
Proof.
  unfold seedEntities. now rewrite length_map, length_seq.
Qed.

Lemma seed_nth (count : Z) (total : R) (i : nat) :
  (i < Z.to_nat count)%nat ->
  nth_error (seedEntities count total) i
  = Some (mkParticle (Z.of_nat i) ((IZR (Z.of_nat i) / IZR count) * total)).
Proof.
  intros Hi. unfold seedEntities.
  rewrite nth_error_map, nth_error_seq.
  assert (Hb : (i <? Z.to_nat count)%nat = true) by (now apply Nat.ltb_lt).
  rewrite Hb. reflexivity.
Qed.

(** C6: from whatever state the component has reached, reset leaves it not
    playing, with the sliders at 50, measurement off, the displayed rate 0
    and the entities re-seeded: as many as the simulation's count, the
    [i]-th with id [i] and progress [(i / count) * 1000]. *)
Theorem C6_reset :
  (forall count total,
      length (seedEntities count total) = Z.to_nat count
      /\ forall i, (i < Z.to_nat count)%nat ->
           nth_error (seedEntities count total) i
           = Some (mkParticle (Z.of_nat i)
                     ((IZR (Z.of_nat i) / IZR count) * total)))
  /\ (forall t0 events now,
      let r := Electric.handleReset now
                 (Electric.run (Electric.initialState t0) events) in
      Electric.particles r = seedEntities 30 1000
      /\ Electric.isPlaying r = false
      /\ Electric.voltage r = 50 /\ Electric.wireWidth r = 50
      /\ Electric.measureRate r = false
      /\ Electric.displayRate r = 0)
  /\ (forall t0 events, exists s, Water.run (Water.initialState t0) events = Some s)
  /\ (forall t0 events s now,
      Water.run (Water.initialState t0) events = Some s ->
      let r := Water.handleReset now s in
      Water.particles r = seedEntities 40 1000
      /\ Water.isPlaying r = false
      /\ Water.heightDifference r = 50 /\ Water.pipeWidth r = 50
      /\ Water.measureRate r = false
      /\ Water.displayRate r = 0)
  /\ (forall t0 events,
      exists s, Playground.run (Playground.initialState t0) events = Some s)
  /\ (forall t0 events s now,
      Playground.run (Playground.initialState t0) events = Some s ->
      let r := Playground.handleReset now s in
      Playground.kids r = seedEntities 15 1000
      /\ Playground.isPlaying r = false
      /\ Playground.slideHeight r = 50 /\ Playground.slideWidth r = 50
      /\ Playground.measureRate r = false
      /\ Playground.displayRate r = 0).
Proof.
  split.
  { intros count total. split; [apply seed_length |].
    intros i Hi. now apply seed_nth. }
  split.
  { intros t0 events now r. subst r.
    rewrite electric_reset_settled
      by (apply electric_settled_run, electric_settled_initial).
    cbn. auto 10. }
  split.
  { intros t0 events. apply water_run_total. }
  split.
  { intros t0 events s now Hrun r. subst r.
    rewrite water_reset_settled
      by (apply (water_settled_run events (Water.initialState t0) s);
          [apply water_settled_initial | assumption]).
    cbn. auto 10. }
  split.
  { intros t0 events. apply playground_run_total. }
  intros t0 events s now Hrun r. subst r.
  rewrite playground_reset_settled
    by (apply (playground_settled_run events (Playground.initialState t0) s);
        [apply playground_settled_initial | assumption]).
  cbn. auto 10.
Qed.

(** Reset after the water sliders were moved and measurement switched on,
    and the fourth seeded kid. *)
Lemma C6_reset_witness :
  (let r := Water.handleReset 9
              (Water.setMeasureRate true 5
                 (Water.setPipeWidth 80
                    (Water.setHeightDifference 20 (Water.initialState 0)))) in
   Water.particles r = seedEntities 40 1000
   /\ Water.isPlaying r = false
   /\ Water.heightDifference r = 50 /\ Water.pipeWidth r = 50
   /\ Water.measureRate r = false
   /\ Water.displayRate r = 0)
  /\ nth_error (seedEntities 15 1000) 3
     = Some (mkParticle (Z.of_nat 3) ((IZR (Z.of_nat 3) / IZR 15) * 1000)).
Proof.
  destruct C6_reset as [Hseed [_ [_ [Hwater _]]]].
  split.
  - apply (Hwater 0 [Water.SetHeightDifference 20; Water.SetPipeWidth 80;
                     Water.SetMeasureRate true 5] _ 9).
    reflexivity.
  - apply (proj2 (Hseed 15%Z 1000) 3%nat). cbn. lia.
Defined.

(** C7: switching measurement off empties the counter (electric) or the
    crossing log (water, playground) and sets the displayed rate to 0 in
    the same step, and in every reachable state with measurement off they
    are empty and 0.  An estimation pass leaves no timestamp older than
    [now - 5000] in the log: after the frame that ran it, every logged
    timestamp is at least [now - 5000] or was read from the clock during
    that very frame. *)
Theorem C7_measurement_off_and_pruning :
  (forall now s,
      Electric.measureRate s = true ->
      let s' := Electric.setMeasureRate false now s in
      Electric.particlesCrossed s' = 0%Z /\ Electric.displayRate s' = 0
      /\ Electric.measureRate s' = false /\ Electric.measureRateRef s' = false)
  /\ (forall now s,
      Water.measureRate s = true ->
      let s' := Water.setMeasureRate false now s in
      Water.crossingsTimestampsRef s' = [] /\ Water.displayRate s' = 0
      /\ Water.measureRate s' = false /\ Water.measureRateRef s' = false)
  /\ (forall now s,
      Playground.measureRate s = true ->
      let s' := Playground.setMeasureRate false now s in
      Playground.crossingsTimestampsRef s' = [] /\ Playground.displayRate s' = 0
      /\ Playground.measureRate s' = false
      /\ Playground.measureRateRef s' = false)
  /\ (forall t0 events,
      let s := Electric.run (Electric.initialState t0) events in
      Electric.measureRate s = false ->
      Electric.particlesCrossed s = 0%Z /\ Electric.displayRate s = 0)
  /\ (forall t0 events s,
      Water.run (Water.initialState t0) events = Some s ->
      Water.measureRate s = false ->
      Water.crossingsTimestampsRef s = [] /\ Water.displayRate s = 0)
  /\ (forall t0 events s,
      Playground.run (Playground.initialState t0) events = Some s ->
      Playground.measureRate s = false ->
      Playground.crossingsTimestampsRef s = [] /\ Playground.displayRate s = 0)
  /\ (forall now log,
      Forall (fun t => t >= now - 5000) (Rolling.retain now log)
      /\ (exists shown,
            Water.estimate now log = Some (Rolling.retain now log, shown))
      /\ (exists shown,
            Playground.estimate now log = Some (Rolling.retain now log, shown)))
  /\ (forall now clock s,
      Water.measureRateRef s = true ->
      now - Water.lastUiUpdateTimeRef s > 100 ->
      exists s',
        Water.runSimulation now clock s = Some s'
        /\ Forall (fun t => t >= now - 5000 \/ exists j, t = clock j)
                  (Water.crossingsTimestampsRef s'))
  /\ (forall now clock s,
      Playground.measureRateRef s = true ->
      now - Playground.lastUiUpdateTimeRef s > 100 ->
      exists s',
        Playground.runSimulation now clock s = Some s'
        /\ Forall (fun t => t >= now - 5000 \/ exists j, t = clock j)
                  (Playground.crossingsTimestampsRef s')).
Proof.
  split.
  { intros now s Hm s'. subst s'.
    unfold Electric.setMeasureRate, Electric.measureRateEffect.
    rewrite Hm. cbn. auto. }
  split.
  { intros now s Hm s'. subst s'.
    unfold Water.setMeasureRate, Water.measureRateEffect.
    rewrite Hm. cbn. auto. }
  split.
  { intros now s Hm s'. subst s'.
    unfold Playground.setMeasureRate, Playground.measureRateEffect.
    rewrite Hm. cbn. auto. }
  split.
  { intros t0 events s Hm. subst s.
    destruct (electric_settled_run events (Electric.initialState t0)
                (electric_settled_initial t0)) as [_ Hoff].
    destruct (Hoff Hm). auto. }
  split.
  { intros t0 events s Hrun Hm.
    destruct (water_settled_run events (Water.initialState t0) s
                (water_settled_initial t0) Hrun) as [_ [_ [_ Hoff]]].
    destruct (Hoff Hm). auto. }
  split.
  { intros t0 events s Hrun Hm.
    destruct (playground_settled_run events (Playground.initialState t0) s
                (playground_settled_initial t0) Hrun) as [_ [_ [_ Hoff]]].
    destruct (Hoff Hm). auto. }
  split.
  { intros now log. split; [apply retain_recent |].
    unfold Water.estimate, Playground.estimate.
    destruct (rate_total (Rolling.retain now log)) as [rate ->].
    split; eauto. }
  split.
  - intros now clock s Hm Hlate.
    destruct (water_frame_pass now clock s) as [s' [Hrun [Hpass _]]].
    destruct (Hpass Hm Hlate) as [_ [_ [fresh [Hlog Hfresh]]]].
    exists s'. split; [assumption |].
    rewrite Hlog. apply Forall_app. split.
    + eapply Forall_impl; [| apply retain_recent]. intros t Ht. now left.
    + eapply Forall_impl; [| exact Hfresh]. intros t Ht. now right.
  - intros now clock s Hm Hlate.
    destruct (playground_frame_pass now clock s) as [s' [Hrun [Hpass _]]].
    destruct (Hpass Hm Hlate) as [_ [_ [fresh [Hlog Hfresh]]]].
    exists s'. split; [assumption |].
    rewrite Hlog. apply Forall_app. split.
    + eapply Forall_impl; [| apply retain_recent]. intros t Ht. now left.
    + eapply Forall_impl; [| exact Hfresh]. intros t Ht. now right.
Qed.

(** Playground measurement switched on at 5 and off at 9. *)
Lemma C7_measurement_off_and_pruning_witness :
  let s' := Playground.setMeasureRate false 9
              (Playground.setMeasureRate true 5 (Playground.initialState 0)) in
  Playground.crossingsTimestampsRef s' = [] /\ Playground.displayRate s' = 0
  /\ Playground.measureRate s' = false /\ Playground.measureRateRef s' = false.
Proof.
  apply (proj1 (proj2 (proj2 C7_measurement_off_and_pruning)) 9).
  reflexivity.
Defined.

End ResetFacts.

(* ================================================================== *)
(** * The page: panel order and visibility *)

Section AppFacts.

Import App.

Lemma key_eqb_eq (a b : SimulationKey) : key_eqb a b = true <-> a = b.
Proof. destruct a, b; cbn; split; congruence. Qed.

Lemma spliceStart_range (len start : Z) :
  (0 <= len)%Z -> (0 <= JSArray.spliceStart len start <= len)%Z.
Proof.
  intros Hlen. unfold JSArray.spliceStart.
  destruct (start <? 0)%Z eqn:Hneg; lia.
Qed.

(** [splice] only takes elements out; removed and remaining elements
    together are the array it was given. *)
Lemma splice_remove_perm (A : Type) (l : list A) (start deleteCount : Z) :
  Permutation
    (fst (JSArray.splice A l start deleteCount [])
     ++ snd (JSArray.splice A l start deleteCount []))
    l.
Proof.
  unfold JSArray.splice. cbn [fst snd app].
  set (len := Z.of_nat (length l)).
  pose proof (spliceStart_range len start (Nat2Z.is_nonneg _)) as Hs.
  set (s := JSArray.spliceStart len start) in *.
  set (d := Z.min (Z.max deleteCount 0) (len - s)).
  assert (Hd : (0 <= d)%Z) by (unfold d; lia).
  rewrite Z2Nat.inj_add by lia.
  rewrite (Nat.add_comm (Z.to_nat s)), <- skipn_skipn.
  rewrite Permutation_app_swap_app, firstn_skipn, firstn_skipn.
  reflexivity.
Qed.

Lemma splice_insert_perm (A : Type) (l items : list A) (start : Z) :
  Permutation (snd (JSArray.splice A l start 0 items)) (items ++ l).
Proof.
  unfold JSArray.splice. cbn [snd].
  set (len := Z.of_nat (length l)).
  pose proof (spliceStart_range len start (Nat2Z.is_nonneg _)) as Hs.
  set (s := JSArray.spliceStart len start) in *.
  replace (Z.min (Z.max 0 0) (len - s)) with 0%Z by lia.
  rewrite Z.add_0_r.
  rewrite Permutation_app_swap_app, firstn_skipn. reflexivity.
Qed.

Lemma handleDrop_perm (dropKey : SimulationKey) (s : State) :
  Permutation (simulationOrder (handleDrop dropKey s)) (simulationOrder s).
Proof.
  unfold handleDrop.
  destruct (draggedItem s) as [dragged |]; [| reflexivity].
  destruct (key_eqb dragged dropKey); [reflexivity |].
  pose proof (splice_remove_perm SimulationKey (simulationOrder s)
                (JSArray.indexOf SimulationKey key_eqb (simulationOrder s) dragged)
                1) as Hout.
  destruct (JSArray.splice SimulationKey (simulationOrder s) _ 1 [])
    as [removed newOrder1].
  pose proof (splice_insert_perm SimulationKey newOrder1 removed
                (JSArray.indexOf SimulationKey key_eqb (simulationOrder s) dropKey))
    as Hin.
  destruct (JSArray.splice SimulationKey newOrder1 _ 0 removed)
    as [ignored newOrder2].
  cbn [fst snd simulationOrder] in *.
  now rewrite Hin.
Qed.

Lemma step_perm (s : State) (e : Event) :
  Permutation (simulationOrder (step s e)) (simulationOrder s).
Proof.
  destruct e; cbn [step]; try reflexivity.
  - unfold handleDragOver. destruct (draggedItem s) as [dragged |];
      [destruct (key_eqb dragged key) |]; reflexivity.
  - apply handleDrop_perm.
Qed.

Lemma run_perm (es : list Event) :
  forall s, Permutation (simulationOrder (run s es)) (simulationOrder s).
Proof.
  induction es as [| e rest IH]; intros s; [reflexivity |].
  cbn [run fold_left]. fold (run (step s e) rest).
  rewrite IH. apply step_perm.
Qed.

(** X1: the panel order always lists each of the three simulations exactly
    once, whatever was dragged, dropped or ticked, so it is never empty; a
    drop permutes the order it finds, for any pair of keys and any order
    that is not empty. *)
Theorem X1_order_is_permutation :
  (forall events,
      Permutation [electric; water; playground]
                  (simulationOrder (run initialState events)))
  /\ (forall events, simulationOrder (run initialState events) <> [])
  /\ (forall dropKey s,
      simulationOrder s <> [] ->
      Permutation (simulationOrder (handleDrop dropKey s)) (simulationOrder s)).
Proof.
  assert (Hrun : forall events,
             Permutation [electric; water; playground]
                         (simulationOrder (run initialState events))).
  { intros events. symmetry. apply (run_perm events initialState). }
  split; [exact Hrun |]. split.
  - intros events Hempty. specialize (Hrun events). rewrite Hempty in Hrun.
    apply Permutation_length in Hrun. discriminate.
  - intros dropKey s _. apply handleDrop_perm.
Qed.

(** A drop on the first of two panels, the order holding a panel twice. *)
Lemma X1_order_is_permutation_witness :
  Permutation
    (simulationOrder
       (handleDrop water
          (mkState (Visibility.mk true true true) [water; electric; electric]
                   (Some electric) None)))
    [water; electric; electric].
Proof.
  apply (proj2 (proj2 X1_order_is_permutation) water
           (mkState (Visibility.mk true true true) [water; electric; electric]
                    (Some electric) None)).
  discriminate.
Defined.

(** The six orders of three panels. *)
Lemma order_cases (l : list SimulationKey) :
  Permutation [electric; water; playground] l ->
  l = [electric; water; playground] \/ l = [electric; playground; water]
  \/ l = [water; electric; playground] \/ l = [water; playground; electric]
  \/ l = [playground; electric; water] \/ l = [playground; water; electric].
Proof.
  intros Hperm.
  pose proof (Permutation_length Hperm) as Hlen.
  pose proof (Permutation_NoDup Hperm) as Hnodup.
  assert (Hbase : NoDup [electric; water; playground]).
  { repeat constructor; cbn; intuition discriminate. }
  specialize (Hnodup Hbase).
  destruct l as [| a [| b [| c [| d rest]]]]; try discriminate.
  inversion Hnodup as [| ? ? Ha Hrest]; subst.
  inversion Hrest as [| ? ? Hb Hrest']; subst.
  cbn in Ha, Hb.
  destruct a, b, c; intuition congruence.
Qed.

(** X2: a drop on another panel moves the dragged panel to the place the
    drop target had, keeps the other panels in their order, leaves the
    visibility alone and ends the drag; with nothing dragged, or dropped
    on itself, the order stays as it is. *)
Theorem X2_drop_moves_to_target :
  (forall events dragged dropKey,
      let s := run initialState events in
      draggedItem s = Some dragged -> dragged <> dropKey ->
      let s' := handleDrop dropKey s in
      JSArray.indexOf SimulationKey key_eqb (simulationOrder s') dragged
      = JSArray.indexOf SimulationKey key_eqb (simulationOrder s) dropKey
      /\ filter (fun k => negb (key_eqb k dragged)) (simulationOrder s')
         = filter (fun k => negb (key_eqb k dragged)) (simulationOrder s)
      /\ visibility s' = visibility s
      /\ draggedItem s' = None /\ dragOverItem s' = None)
  /\ (forall dropKey s,
      draggedItem s = None \/ draggedItem s = Some dropKey ->
      handleDrop dropKey s
      = mkState (visibility s) (simulationOrder s) None None).
Proof.
  split.
  - intros events dragged dropKey s Hdragged Hdiff s'. subst s'.
    assert (Hperm : Permutation [electric; water; playground]
                      (simulationOrder s))
      by (symmetry; apply (run_perm events initialState)).
    apply order_cases in Hperm.
    destruct s as [vis order dragging over].
    cbn [draggedItem simulationOrder] in Hdragged, Hperm. subst dragging.
    unfold handleDrop. cbn [draggedItem simulationOrder visibility].
    destruct Hperm as [-> | [-> | [-> | [-> | [-> | ->]]]]];
      destruct dragged, dropKey; try congruence;
      vm_compute; repeat split; reflexivity.
  - intros dropKey s [Hnone | Hsame]; unfold handleDrop; rewrite ?Hnone, ?Hsame.
    + reflexivity.
    + assert (Hb : key_eqb dropKey dropKey = true) by now apply key_eqb_eq.
      now rewrite Hb.
Qed.

(** The water panel dragged from the middle onto the last panel. *)
Lemma X2_drop_moves_to_target_witness :
  simulationOrder (handleDrop playground (run initialState [DragStart water]))
  = [electric; playground; water]
  /\ JSArray.indexOf SimulationKey key_eqb
       (simulationOrder
          (handleDrop playground (run initialState [DragStart water])))
       water
     = JSArray.indexOf SimulationKey key_eqb
         (simulationOrder (run initialState [DragStart water])) playground.
Proof.
  split; [reflexivity |].
  apply (proj1 X2_drop_moves_to_target [DragStart water] water playground).
  - reflexivity.
  - discriminate.
Defined.

Lemma filter_others_update (name : SimulationKey) (checked : bool)
  (v : SimulationVisibility) (l : list SimulationKey) :
  filter (fun k => negb (key_eqb k name)) (filter (lookup (update v name checked)) l)
  = filter (fun k => negb (key_eqb k name)) (filter (lookup v) l).
Proof.
  induction l as [| k rest IH]; [reflexivity |].
  cbn [filter].
  destruct (key_eqb k name) eqn:Hk.
  - apply key_eqb_eq in Hk. subst k.
    assert (Hself : key_eqb name name = true) by now apply key_eqb_eq.
    destruct (lookup (update v name checked) name), (lookup v name);
      cbn [filter]; rewrite ?Hself; cbn [negb]; exact IH.
  - assert (Hsame : lookup (update v name checked) k = lookup v k).
    { destruct name, k; cbn in *; congruence. }
    rewrite Hsame. destruct (lookup v k); cbn [filter]; rewrite ?Hk;
      cbn [negb]; now rewrite ?IH.
Qed.

(** X3: ticking or unticking a panel's box sets that panel's visibility
    and nothing else: the other boxes keep their value, the panel order is
    untouched, and the other visible panels stay visible in the same
    order. *)
Theorem X3_visibility_change_is_local :
  forall name checked s,
    let s' := handleVisibilityChange name checked s in
    lookup (visibility s') name = checked
    /\ (forall key, key <> name ->
          lookup (visibility s') key = lookup (visibility s) key)
    /\ simulationOrder s' = simulationOrder s
    /\ filter (fun k => negb (key_eqb k name)) (orderedVisibleKeys s')
       = filter (fun k => negb (key_eqb k name)) (orderedVisibleKeys s)
    /\ (In name (orderedVisibleKeys s')
        <-> checked = true /\ In name (simulationOrder s)).
Proof.
  intros name checked s s'. subst s'.
  unfold handleVisibilityChange, orderedVisibleKeys.
  cbn [visibility simulationOrder].
  assert (Hname : lookup (update (visibility s) name checked) name = checked)
    by (destruct name; reflexivity).
  split; [exact Hname |].
  split.
  { intros key Hkey. destruct name, key; cbn; congruence. }
  split; [reflexivity |].
  split; [apply filter_others_update |].
  rewrite filter_In, Hname. tauto.
Qed.

(** Hiding the water panel of the initial page. *)
Lemma X3_visibility_change_is_local_witness :
  lookup (visibility (handleVisibilityChange water false initialState)) electric
  = lookup (visibility initialState) electric.
Proof.
  apply (proj1 (proj2 (X3_visibility_change_is_local water false initialState))).
  discriminate.
Defined.

Import String.

(** X4: the panels shown are exactly the ticked ones, each once and in the
    panel order; their number is the number of ticked boxes; the single
    view is used exactly when one box is ticked, the three-column grid
    exactly when all are, the two-column grid exactly when two are. *)
Theorem X4_visible_panels :
  forall events,
    let s := run initialState events in
    let ticked k := Z.b2z (lookup (visibility s) k) in
    NoDup (orderedVisibleKeys s)
    /\ (forall key, In key (orderedVisibleKeys s)
                    <-> lookup (visibility s) key = true)
    /\ visibleCount s = (ticked electric + ticked water + ticked playground)%Z
    /\ (isSingleView s = true <-> visibleCount s = 1%Z)
    /\ (gridColsClass s = "lg:grid-cols-3"%string <-> visibleCount s = 3%Z)
    /\ (gridColsClass s = "lg:grid-cols-2"%string <-> visibleCount s = 2%Z)
    /\ (gridColsClass s = String.EmptyString
        <-> visibleCount s = 0%Z \/ visibleCount s = 1%Z).
Proof.
  intros events s ticked. subst ticked.
  assert (Hperm : Permutation [electric; water; playground] (simulationOrder s))
    by (symmetry; apply (run_perm events initialState)).
  split.
  { unfold orderedVisibleKeys. apply NoDup_filter.
    apply (Permutation_NoDup Hperm).
    repeat constructor; cbn; intuition discriminate. }
  split.
  { intros key. unfold orderedVisibleKeys. rewrite filter_In.
    split; [tauto |]. intros Hkey. split; [| assumption].
    apply (Permutation_in key Hperm). destruct key; cbn; auto. }
  apply order_cases in Hperm.
  destruct s as [[e w p] order dragging over].
  cbn [simulationOrder] in Hperm.
  unfold isSingleView, gridColsClass, visibleCount, orderedVisibleKeys.
  cbn [visibility simulationOrder lookup Visibility.electric Visibility.water
       Visibility.playground].
  destruct Hperm as [-> | [-> | [-> | [-> | [-> | ->]]]]];
    destruct e, w, p; vm_compute;
    repeat split; intros H; try discriminate H; try reflexivity;
    try (destruct H as [H | H]; discriminate H); auto.
Qed.

End AppFacts.

(* ================================================================== *)
(** * Entities over the life of a simulation *)

Section EntityFacts.

Lemma seed_ids_progress (count : Z) (total : R) :
  (0 < count)%Z -> 0 <= total ->
  Forall (fun p => 0 <= progress p) (seedEntities count total).
Proof.
  intros Hcount Htotal. unfold seedEntities.
  apply Forall_forall. intros p Hp. apply in_map_iff in Hp.
  destruct Hp as [i [<- _]]. cbn [progress].
  apply Rmult_le_pos; [| assumption].
  apply Rmult_le_pos.
  - apply IZR_le. lia.
  - left. apply Rinv_0_lt_compat. now apply IZR_lt.
Qed.

Lemma map_id_advance (f : Particle -> R) (ps : list Particle) :
  map id (map (fun p => mkParticle (id p) (f p)) ps) = map id ps.
Proof.
  rewrite map_map. apply map_ext. reflexivity.
Qed.

Lemma Forall2_advance (lo hi : R) (f : Particle -> R) (ps : list Particle) :
  (forall p, In p ps -> lo <= f p - progress p <= hi) ->
  Forall2 (movedBy lo hi) ps (map (fun p => mkParticle (id p) (f p)) ps).
Proof.
  induction ps as [| p rest IH]; intros Hall; cbn [map]; constructor.
  - split; [reflexivity |]. cbn [progress]. apply Hall. now left.
  - apply IH. intros q Hq. apply Hall. now right.
Qed.

Lemma Forall_advance (f : Particle -> R) (ps : list Particle) :
  (forall p, In p ps -> 0 <= progress p -> 0 <= f p) ->
  Forall (fun p => 0 <= progress p) ps ->
  Forall (fun p => 0 <= progress p) (map (fun p => mkParticle (id p) (f p)) ps).
Proof.
  intros Hf Hall. apply Forall_forall. intros q Hq.
  apply in_map_iff in Hq. destruct Hq as [p [<- Hp]]. cbn [progress].
  apply Hf; [assumption |].
  rewrite Forall_forall in Hall. now apply Hall.
Qed.

(** ** What the handlers leave alone *)

Lemma electric_setMeasureRate_keeps (b : bool) (now : R) (s : Electric.State) :
  let s' := Electric.setMeasureRate b now s in
  Electric.isPlaying s' = Electric.isPlaying s
  /\ Electric.voltage s' = Electric.voltage s
  /\ Electric.wireWidth s' = Electric.wireWidth s
  /\ Electric.particles s' = Electric.particles s
  /\ (0 <= Electric.displayRate s -> 0 <= Electric.displayRate s')
  /\ ((0 <= Electric.particlesCrossed s)%Z -> (0 <= Electric.particlesCrossed s')%Z).
Proof.
  destruct s as [playing v w measuring shown ps count lastT mref].
  unfold Electric.setMeasureRate, Electric.measureRateEffect. cbn.
  destruct b, measuring; cbn; repeat split; auto; try lra; try lia.
Qed.

Lemma electric_reset_fields (now : R) (s : Electric.State) :
  let s' := Electric.handleReset now s in
  Electric.voltage s' = 50 /\ Electric.wireWidth s' = 50
  /\ Electric.particles s'
     = seedEntities Electric.PARTICLE_COUNT Electric.TOTAL_PATH_LENGTH
  /\ (0 <= Electric.displayRate s -> 0 <= Electric.displayRate s')
  /\ ((0 <= Electric.particlesCrossed s)%Z -> (0 <= Electric.particlesCrossed s')%Z).
Proof.
  assert (Heq : Electric.handleReset now s
                = Electric.mkState false 50 50 false
                    (if Electric.measureRate s then 0
                     else Electric.displayRate s)
                    (seedEntities Electric.PARTICLE_COUNT
                       Electric.TOTAL_PATH_LENGTH)
                    (if Electric.measureRate s then 0%Z
                     else Electric.particlesCrossed s)
                    (if Electric.measureRate s then now
                     else Electric.lastMeasureTime s)
                    (if Electric.measureRate s then false
                     else Electric.measureRateRef s)).
  { destruct s as [playing v w measuring shown ps count lastT mref].
    destruct measuring; reflexivity. }
  cbv zeta. rewrite Heq. cbn [Electric.voltage Electric.wireWidth
    Electric.particles Electric.displayRate Electric.particlesCrossed].
  repeat split; try reflexivity.
  - destruct (Electric.measureRate s); lra.
  - destruct (Electric.measureRate s); lia.
Qed.

Lemma water_setMeasureRate_keeps (b : bool) (now : R) (s : Water.State) :
  let s' := Water.setMeasureRate b now s in
  Water.isPlaying s' = Water.isPlaying s
  /\ Water.heightDifference s' = Water.heightDifference s
  /\ Water.pipeWidth s' = Water.pipeWidth s
  /\ Water.turbineRotation s' = Water.turbineRotation s
  /\ Water.particles s' = Water.particles s
  /\ (0 <= Water.displayRate s -> 0 <= Water.displayRate s').
Proof.
  destruct s as [playing h w rotation measuring shown ps href wref log lastUi mref].
  unfold Water.setMeasureRate, Water.measureRateEffect. cbn.
  destruct b, measuring; cbn; repeat split; auto; try lra.
Qed.

Lemma water_reset_fields (now : R) (s : Water.State) :
  let s' := Water.handleReset now s in
  Water.heightDifference s' = 50 /\ Water.pipeWidth s' = 50
  /\ Water.turbineRotation s' = 0
  /\ Water.particles s'
     = seedEntities Water.PARTICLE_COUNT Water.TOTAL_PATH_LENGTH
  /\ (0 <= Water.displayRate s -> 0 <= Water.displayRate s').
Proof.
  assert (Heq : Water.handleReset now s
                = Water.mkState false 50 50 0 false
                    (if Water.measureRate s then 0 else Water.displayRate s)
                    (seedEntities Water.PARTICLE_COUNT Water.TOTAL_PATH_LENGTH)
                    50 50
                    (if Water.measureRate s then []
                     else Water.crossingsTimestampsRef s)
                    (Water.lastUiUpdateTimeRef s)
                    (if Water.measureRate s then false
                     else Water.measureRateRef s)).
  { destruct s as [playing h w rotation measuring shown ps href wref log
                     lastUi mref].
    destruct measuring; reflexivity. }
  cbv zeta. rewrite Heq. cbn [Water.heightDifference Water.pipeWidth
    Water.turbineRotation Water.particles Water.displayRate].
  repeat split; try reflexivity.
  destruct (Water.measureRate s); lra.
Qed.

Lemma playground_setMeasureRate_keeps (b : bool) (now : R) (s : Playground.State) :
  let s' := Playground.setMeasureRate b now s in
  Playground.isPlaying s' = Playground.isPlaying s
  /\ Playground.slideHeight s' = Playground.slideHeight s
  /\ Playground.slideWidth s' = Playground.slideWidth s
  /\ Playground.kids s' = Playground.kids s
  /\ (0 <= Playground.displayRate s -> 0 <= Playground.displayRate s').
Proof.
  destruct s as [playing h w measuring shown ks href wref log lastUi mref].
  unfold Playground.setMeasureRate, Playground.measureRateEffect. cbn.
  destruct b, measuring; cbn; repeat split; auto; try lra.
Qed.

Lemma playground_reset_fields (now : R) (s : Playground.State) :
  let s' := Playground.handleReset now s in
  Playground.slideHeight s' = 50 /\ Playground.slideWidth s' = 50
  /\ Playground.kids s'
     = seedEntities Playground.KID_COUNT Playground.TOTAL_PATH_LENGTH
  /\ (0 <= Playground.displayRate s -> 0 <= Playground.displayRate s').
Proof.
  assert (Heq : Playground.handleReset now s
                = Playground.mkState false 50 50 false
                    (if Playground.measureRate s then 0
                     else Playground.displayRate s)
                    (seedEntities Playground.KID_COUNT
                       Playground.TOTAL_PATH_LENGTH)
                    50 50
                    (if Playground.measureRate s then []
                     else Playground.crossingsTimestampsRef s)
                    (Playground.lastUiUpdateTimeRef s)
                    (if Playground.measureRate s then false
                     else Playground.measureRateRef s)).
  { destruct s as [playing h w measuring shown ks href wref log lastUi mref].
    destruct measuring; reflexivity. }
  cbv zeta. rewrite Heq. cbn [Playground.slideHeight Playground.slideWidth
    Playground.kids Playground.displayRate].
  repeat split; try reflexivity.
  destruct (Playground.measureRate s); lra.
Qed.

(** ** Ids *)

Lemma electric_ids_step (s : Electric.State) (e : Electric.Event) :
  map id (Electric.particles s)
  = map id (seedEntities Electric.PARTICLE_COUNT Electric.TOTAL_PATH_LENGTH) ->
  map id (Electric.particles (Electric.step s e))
  = map id (seedEntities Electric.PARTICLE_COUNT Electric.TOTAL_PATH_LENGTH).
Proof.
  intros Hs. destruct e; cbn [Electric.step Electric.particles]; try assumption.
  - destruct (Electric.isPlaying s); [| assumption].
    rewrite electric_frame_particles. now rewrite map_id_advance.
  - destruct (electric_setMeasureRate_keeps b now s) as [_ [_ [_ [-> _]]]].
    assumption.
  - destruct (electric_reset_fields now s) as [_ [_ [-> _]]]. reflexivity.
Qed.

Lemma electric_ids_run (es : list Electric.Event) :
  forall s,
    map id (Electric.particles s)
    = map id (seedEntities Electric.PARTICLE_COUNT Electric.TOTAL_PATH_LENGTH) ->
    map id (Electric.particles (Electric.run s es))
    = map id (seedEntities Electric.PARTICLE_COUNT Electric.TOTAL_PATH_LENGTH).
Proof.
  induction es as [| e rest IH]; intros s Hs; [assumption |].
  cbn [Electric.run fold_left]. apply IH. now apply electric_ids_step.
Qed.

Lemma water_frame_particles_map (now : R) (clock : nat -> R) (s s' : Water.State) :
  Water.runSimulation now clock s = Some s' ->
  Water.particles s'
  = map (fun p =>
           mkParticle (id p)
             (progress p
              + Water.speedAt
                  (Water.gravitySpeed (Water.heightDifferenceRef s)
                     (Water.pipeWidthRef s))
                  (Water.pumpSpeed (Water.pipeWidthRef s))
                  (JS.rem (progress p) Water.TOTAL_PATH_LENGTH)))
        (Water.particles s).
Proof.
  intros Hrun. destruct (water_frame now clock s) as [display [_ Heq]].
  rewrite Hrun in Heq. injection Heq as ->.
  cbn [Water.particles]. apply water_step_map.
Qed.

Lemma playground_frame_kids_map (now : R) (clock : nat -> R)
  (s s' : Playground.State) :
  Playground.runSimulation now clock s = Some s' ->
  Playground.kids s'
  = map (fun k =>
           mkParticle (id k)
             (progress k
              + Playground.speedAt
                  (Playground.slideSpeed (Playground.slideHeightRef s)
                     (Playground.slideWidthRef s))
                  (Playground.runSpeed (Playground.slideWidthRef s))
                  (Playground.elevatorSpeed (Playground.slideWidthRef s))
                  (JS.rem (progress k) Playground.TOTAL_PATH_LENGTH)))
        (Playground.kids s).
Proof.
  intros Hrun. destruct (playground_frame now clock s) as [display [_ Heq]].
  rewrite Hrun in Heq. injection Heq as ->.
  cbn [Playground.kids]. apply playground_step_map.
Qed.

Lemma water_ids_step (s s' : Water.State) (e : Water.Event) :
  Water.step s e = Some s' ->
  map id (Water.particles s)
  = map id (seedEntities Water.PARTICLE_COUNT Water.TOTAL_PATH_LENGTH) ->
  map id (Water.particles s')
  = map id (seedEntities Water.PARTICLE_COUNT Water.TOTAL_PATH_LENGTH).
Proof.
  intros Hstep Hs. destruct e; cbn [Water.step] in Hstep.
  - destruct (Water.isPlaying s).
    + rewrite (water_frame_particles_map now clock s s' Hstep).
      now rewrite map_id_advance.
    + now injection Hstep as <-.
  - now injection Hstep as <-.
  - now injection Hstep as <-.
  - injection Hstep as <-.
    destruct (water_setMeasureRate_keeps b now s) as [_ [_ [_ [_ [-> _]]]]].
    assumption.
  - now injection Hstep as <-.
  - injection Hstep as <-.
    destruct (water_reset_fields now s) as [_ [_ [_ [-> _]]]]. reflexivity.
Qed.

Lemma water_ids_run (es : list Water.Event) :
  forall s s',
    Water.run s es = Some s' ->
    map id (Water.particles s)
    = map id (seedEntities Water.PARTICLE_COUNT Water.TOTAL_PATH_LENGTH) ->
    map id (Water.particles s')
    = map id (seedEntities Water.PARTICLE_COUNT Water.TOTAL_PATH_LENGTH).
Proof.
  induction es as [| e rest IH]; intros s s' Hrun Hs; cbn [Water.run] in Hrun.
  - now injection Hrun as <-.
  - destruct (Water.step s e) as [s1 |] eqn:Hstep; [| discriminate].
    apply (IH s1 s' Hrun). now apply (water_ids_step s s1 e).
Qed.

Lemma playground_ids_step (s s' : Playground.State) (e : Playground.Event) :
  Playground.step s e = Some s' ->
  map id (Playground.kids s)
  = map id (seedEntities Playground.KID_COUNT Playground.TOTAL_PATH_LENGTH) ->
  map id (Playground.kids s')
  = map id (seedEntities Playground.KID_COUNT Playground.TOTAL_PATH_LENGTH).
Proof.
  intros Hstep Hs. destruct e; cbn [Playground.step] in Hstep.
  - destruct (Playground.isPlaying s).
    + rewrite (playground_frame_kids_map now clock s s' Hstep).
      now rewrite map_id_advance.
    + now injection Hstep as <-.
  - now injection Hstep as <-.
  - now injection Hstep as <-.
  - injection Hstep as <-.
    destruct (playground_setMeasureRate_keeps b now s) as [_ [_ [_ [-> _]]]].
    assumption.
  - now injection Hstep as <-.
  - injection Hstep as <-.
    destruct (playground_reset_fields now s) as [_ [_ [-> _]]]. reflexivity.
Qed.

Lemma playground_ids_run (es : list Playground.Event) :
  forall s s',
    Playground.run s es = Some s' ->
    map id (Playground.kids s)
    = map id (seedEntities Playground.KID_COUNT Playground.TOTAL_PATH_LENGTH) ->
    map id (Playground.kids s')
    = map id (seedEntities Playground.KID_COUNT Playground.TOTAL_PATH_LENGTH).
Proof.
  induction es as [| e rest IH]; intros s s' Hrun Hs;
    cbn [Playground.run] in Hrun.
  - now injection Hrun as <-.
  - destruct (Playground.step s e) as [s1 |] eqn:Hstep; [| discriminate].
    apply (IH s1 s' Hrun). now apply (playground_ids_step s s1 e).
Qed.

Lemma seed_ids (count : Z) (total : R) :
  map id (seedEntities count total) = map Z.of_nat (seq 0 (Z.to_nat count)).
Proof.
  unfold seedEntities. rewrite map_map. apply map_ext. reflexivity.
Qed.

(** X5: in every state a simulation can reach, the entities are the ones
    it was seeded with: as many as its count (30, 40, 15), carrying the
    ids 0, 1, ... in array order.  No frame, slider, toggle or reset adds,
    drops, reorders or renumbers an entity. *)
Theorem X5_entities_keep_their_ids :
  (forall t0 events,
      map id (Electric.particles (Electric.run (Electric.initialState t0) events))
      = map Z.of_nat (seq 0 30))
  /\ (forall t0 events s,
      Water.run (Water.initialState t0) events = Some s ->
      map id (Water.particles s) = map Z.of_nat (seq 0 40))
  /\ (forall t0 events s,
      Playground.run (Playground.initialState t0) events = Some s ->
      map id (Playground.kids s) = map Z.of_nat (seq 0 15)).
Proof.
  split; [| split].
  - intros t0 events.
    rewrite (electric_ids_run events (Electric.initialState t0) eq_refl).
    apply seed_ids.
  - intros t0 events s Hrun.
    rewrite (water_ids_run events (Water.initialState t0) s Hrun eq_refl).
    apply seed_ids.
  - intros t0 events s Hrun.
    rewrite (playground_ids_run events (Playground.initialState t0) s Hrun
               eq_refl).
    apply seed_ids.
Qed.

(** The playground after a slider move, two frames and a reset. *)
Lemma X5_entities_keep_their_ids_witness :
  exists s,
    Playground.run (Playground.initialState 0)
      [Playground.SetSlideWidth 80; Playground.TogglePlay;
       Playground.Reset 40] = Some s
    /\ map id (Playground.kids s) = map Z.of_nat (seq 0 15).
Proof.
  eexists. split; [reflexivity |].
  apply (proj2 (proj2 X5_entities_keep_their_ids) 0
           [Playground.SetSlideWidth 80; Playground.TogglePlay;
            Playground.Reset 40]).
  reflexivity.
Defined.

(** ** Even spacing of the electric particles *)

Lemma electric_spacing_step (s : Electric.State) (e : Electric.Event) :
  (exists base,
      Electric.particles s
      = map (fun p => mkParticle (id p) (progress p + base))
            (seedEntities Electric.PARTICLE_COUNT Electric.TOTAL_PATH_LENGTH)) ->
  exists base,
    Electric.particles (Electric.step s e)
    = map (fun p => mkParticle (id p) (progress p + base))
          (seedEntities Electric.PARTICLE_COUNT Electric.TOTAL_PATH_LENGTH).
Proof.
  intros [base Hs].
  assert (Hkeep : exists b,
             Electric.particles s
             = map (fun p => mkParticle (id p) (progress p + b))
                   (seedEntities Electric.PARTICLE_COUNT
                      Electric.TOTAL_PATH_LENGTH))
    by (now exists base).
  destruct e; cbn [Electric.step Electric.particles]; try exact Hkeep.
  - destruct (Electric.isPlaying s); [| exact Hkeep].
    exists (base + (Electric.voltage s / 100) * 4).
    rewrite electric_frame_particles, Hs, map_map.
    apply map_ext. intros p. cbn [id progress]. f_equal. ring.
  - destruct (electric_setMeasureRate_keeps b now s) as [_ [_ [_ [-> _]]]].
    exact Hkeep.
  - destruct (electric_reset_fields now s) as [_ [_ [-> _]]].
    exists 0. symmetry. rewrite <- (map_id (seedEntities _ _)) at 2.
    apply map_ext. intros [i pr]. cbn [id progress]. f_equal. ring.
Qed.

Lemma electric_spacing_run (es : list Electric.Event) :
  forall s,
    (exists base,
        Electric.particles s
        = map (fun p => mkParticle (id p) (progress p + base))
              (seedEntities Electric.PARTICLE_COUNT Electric.TOTAL_PATH_LENGTH)) ->
    exists base,
      Electric.particles (Electric.run s es)
      = map (fun p => mkParticle (id p) (progress p + base))
            (seedEntities Electric.PARTICLE_COUNT Electric.TOTAL_PATH_LENGTH).
Proof.
  induction es as [| e rest IH]; intros s Hs; [assumption |].
  cbn [Electric.run fold_left]. apply IH. now apply electric_spacing_step.
Qed.

(** X6: the electric particles never drift against each other: in every
    reachable state the [i]-th and the [j]-th particle are
    [(i - j) / 30 * 1000] path units apart, as at the start. *)
Theorem X6_electric_particles_stay_evenly_spaced :
  forall t0 events i j pi pj,
    let ps := Electric.particles
                (Electric.run (Electric.initialState t0) events) in
    nth_error ps i = Some pi -> nth_error ps j = Some pj ->
    progress pi - progress pj
    = (IZR (Z.of_nat i) - IZR (Z.of_nat j)) / 30 * 1000.
Proof.
  intros t0 events i j pi pj ps Hi Hj. subst ps.
  destruct (electric_spacing_run events (Electric.initialState t0)) as [base Hb].
  { exists 0. cbn [Electric.initialState Electric.measureRateEffect
                   Electric.particles Electric.measureRate].
    symmetry. rewrite <- (map_id (seedEntities _ _)) at 2.
    apply map_ext. intros [k pr]. cbn [id progress]. f_equal. ring. }
  rewrite Hb in Hi, Hj. rewrite nth_error_map in Hi, Hj.
  assert (Hrange : forall k q,
             option_map (fun p => mkParticle (id p) (progress p + base))
               (nth_error (seedEntities Electric.PARTICLE_COUNT
                             Electric.TOTAL_PATH_LENGTH) k) = Some q ->
             progress q = IZR (Z.of_nat k) / 30 * 1000 + base).
  { intros k q Hq.
    destruct (Nat.lt_ge_cases k (Z.to_nat Electric.PARTICLE_COUNT)) as [Hk | Hk].
    - rewrite seed_nth in Hq by assumption. cbn in Hq.
      injection Hq as <-. cbn [progress].
      unfold Electric.PARTICLE_COUNT, Electric.TOTAL_PATH_LENGTH. reflexivity.
    - assert (Hnone : nth_error (seedEntities Electric.PARTICLE_COUNT
                                   Electric.TOTAL_PATH_LENGTH) k = None).
      { apply nth_error_None. now rewrite seed_length. }
      rewrite Hnone in Hq. discriminate. }
  rewrite (Hrange i pi Hi), (Hrange j pj Hj). field.
Qed.

(** Particles 3 and 1 after a frame at the initial voltage. *)
Lemma X6_electric_particles_stay_evenly_spaced_witness :
  progress (mkParticle 3 (3 / 30 * 1000 + 50 / 100 * 4))
  - progress (mkParticle 1 (1 / 30 * 1000 + 50 / 100 * 4))
  = (IZR (Z.of_nat 3) - IZR (Z.of_nat 1)) / 30 * 1000.
Proof.
  apply (X6_electric_particles_stay_evenly_spaced 0 [Electric.Frame 16] 3 1).
  - cbn. unfold Electric.speedOf, Electric.INITIAL_VOLTAGE,
      Electric.TOTAL_PATH_LENGTH. reflexivity.
  - cbn. unfold Electric.speedOf, Electric.INITIAL_VOLTAGE,
      Electric.TOTAL_PATH_LENGTH. reflexivity.
Defined.

(** ** Forward motion under slider input within range *)

Lemma water_speed_range (h w m : R) :
  10 <= h <= 100 -> 10 <= w <= 100 ->
  0.18 <= Water.speedAt (Water.gravitySpeed h w) (Water.pumpSpeed w) m <= 4.5.
Proof.
  intros Hh Hw. pose proof (widthFactor_in_range w Hw) as Hf.
  apply water_speedAt_in;
    unfold Water.gravitySpeed, Water.pumpSpeed, Water.widthFactor;
    set (f := 0.2 + 0.8 * ((w - 10) / 90)) in *; split; nra.
Qed.

Lemma playground_speed_range (h w m : R) :
  10 <= h <= 100 -> 10 <= w <= 100 ->
  0.38 <= Playground.speedAt (Playground.slideSpeed h w) (Playground.runSpeed w)
            (Playground.elevatorSpeed w) m <= 5.5.
Proof.
  intros Hh Hw. pose proof (widthFactor_in_range w Hw) as Hf.
  apply playground_speedAt_in;
    unfold Playground.slideSpeed, Playground.runSpeed,
      Playground.elevatorSpeed, Playground.widthFactor;
    set (f := 0.2 + 0.8 * ((w - 10) / 90)) in *; split; nra.
Qed.

Lemma electric_steady_step (s : Electric.State) (e : Electric.Event) :
  electricInput e -> electricSteady s -> electricSteady (Electric.step s e).
Proof.
  intros He [Hv [Hw Hps]]. destruct e; cbn [Electric.step electricInput] in *.
  - destruct (Electric.isPlaying s); [| unfold electricSteady; tauto].
    unfold electricSteady. rewrite electric_frame_particles.
    assert (Hsame : Electric.voltage (Electric.runSimulation now s)
                    = Electric.voltage s
                    /\ Electric.wireWidth (Electric.runSimulation now s)
                       = Electric.wireWidth s).
    { unfold Electric.runSimulation.
      now destruct (Electric.stepParticles _ _ _ _). }
    destruct Hsame as [-> ->].
    split; [assumption |]. split; [assumption |].
    apply Forall_advance; [| assumption]. intros p _ Hp. lra.
  - unfold electricSteady. cbn. auto.
  - unfold electricSteady. cbn. auto.
  - unfold electricSteady.
    destruct (electric_setMeasureRate_keeps b now s) as [_ [-> [-> [-> _]]]].
    auto.
  - unfold electricSteady. cbn. auto.
  - unfold electricSteady.
    destruct (electric_reset_fields now s) as [-> [-> [-> _]]].
    split; [lra |]. split; [lra |].
    apply seed_ids_progress; unfold Electric.PARTICLE_COUNT,
      Electric.TOTAL_PATH_LENGTH; [lia | lra].
Qed.

Lemma electric_steady_run (es : list Electric.Event) :
  forall s,
    Forall electricInput es -> electricSteady s ->
    electricSteady (Electric.run s es).
Proof.
  induction es as [| e rest IH]; intros s Hes Hs; [assumption |].
  inversion Hes as [| ? ? He Hrest]; subst.
  cbn [Electric.run fold_left]. apply (IH _ Hrest).
  now apply electric_steady_step.
Qed.

Lemma electric_steady_initial (t0 : R) : electricSteady (Electric.initialState t0).
Proof.
  unfold electricSteady. cbn.
  unfold Electric.INITIAL_VOLTAGE, Electric.INITIAL_WIRE_WIDTH.
  split; [lra |]. split; [lra |].
  apply seed_ids_progress; unfold Electric.PARTICLE_COUNT,
    Electric.TOTAL_PATH_LENGTH; [lia | lra].
Qed.

Lemma water_frame_keeps (now : R) (clock : nat -> R) (s s' : Water.State) :
  Water.runSimulation now clock s = Some s' ->
  Water.heightDifference s' = Water.heightDifference s
  /\ Water.pipeWidth s' = Water.pipeWidth s
  /\ (Water.turbineRotation s' = Water.turbineRotation s
      \/ Water.turbineRotation s'
         = JS.rem (Water.turbineRotation s
                   + Water.gravitySpeed (Water.heightDifferenceRef s)
                       (Water.pipeWidthRef s) * 2) 360).
Proof.
  intros Hrun. destruct (water_frame now clock s) as [display [_ Heq]].
  rewrite Hrun in Heq. injection Heq as ->. cbn.
  split; [reflexivity |]. split; [reflexivity |].
  destruct (snd _); auto.
Qed.

Lemma water_steady_step (s s' : Water.State) (e : Water.Event) :
  waterInput e -> Water.step s e = Some s' ->
  waterSettled s -> waterSteady s -> waterSteady s'.
Proof.
  intros He Hstep [Href [Hwref _]] [Hh [Hw [Hps Hrot]]].
  destruct e; cbn [Water.step waterInput] in *.
  - destruct (Water.isPlaying s);
      [| injection Hstep as <-; repeat split; tauto].
    destruct (water_frame_keeps now clock s s' Hstep) as [Hh' [Hw' Hrot']].
    unfold waterSteady.
    rewrite (water_frame_particles_map now clock s s' Hstep), Hh', Hw'.
    split; [assumption |]. split; [assumption |]. split.
    + apply Forall_advance; [| assumption]. intros p _ Hp.
      pose proof (water_speed_range (Water.heightDifferenceRef s)
                    (Water.pipeWidthRef s)
                    (JS.rem (progress p) Water.TOTAL_PATH_LENGTH)) as Hsp.
      rewrite Href, Hwref in Hsp. specialize (Hsp Hh Hw).
      rewrite Href, Hwref. lra.
    + destruct Hrot' as [-> | ->]; [assumption |].
      apply JSFacts.rem_range_nonneg; [lra |].
      pose proof (water_speeds_in_range (Water.heightDifferenceRef s)
                    (Water.pipeWidthRef s) 0) as Hsp.
      rewrite Href, Hwref in Hsp. destruct (Hsp Hh Hw) as [Hg _].
      rewrite Href, Hwref. lra.
  - injection Hstep as <-. unfold waterSteady. cbn. tauto.
  - injection Hstep as <-. unfold waterSteady. cbn. tauto.
  - injection Hstep as <-. unfold waterSteady.
    destruct (water_setMeasureRate_keeps b now s)
      as [_ [-> [-> [-> [-> _]]]]].
    tauto.
  - injection Hstep as <-. unfold waterSteady. cbn. tauto.
  - injection Hstep as <-. unfold waterSteady.
    destruct (water_reset_fields now s) as [-> [-> [-> [-> _]]]].
    split; [lra |]. split; [lra |]. split; [| lra].
    apply seed_ids_progress; unfold Water.PARTICLE_COUNT,
      Water.TOTAL_PATH_LENGTH; [lia | lra].
Qed.

Lemma water_steady_run (es : list Water.Event) :
  forall s s',
    Forall waterInput es -> Water.run s es = Some s' ->
    waterSettled s -> waterSteady s -> waterSettled s' /\ waterSteady s'.
Proof.
  induction es as [| e rest IH]; intros s s' Hes Hrun Hset Hs;
    cbn [Water.run] in Hrun.
  - injection Hrun as <-. now split.
  - inversion Hes as [| ? ? He Hrest]; subst.
    destruct (Water.step s e) as [s1 |] eqn:Hstep; [| discriminate].
    apply (IH s1 s' Hrest Hrun).
    + now apply (water_settled_step s s1 e).
    + now apply (water_steady_step s s1 e).
Qed.

Lemma water_steady_initial (t0 : R) : waterSteady (Water.initialState t0).
Proof.
  unfold waterSteady. cbn.
  unfold Water.INITIAL_HEIGHT_DIFFERENCE, Water.INITIAL_PIPE_WIDTH.
  split; [lra |]. split; [lra |]. split; [| lra].
  apply seed_ids_progress; unfold Water.PARTICLE_COUNT,
    Water.TOTAL_PATH_LENGTH; [lia | lra].
Qed.

Lemma playground_frame_keeps (now : R) (clock : nat -> R)
  (s s' : Playground.State) :
  Playground.runSimulation now clock s = Some s' ->
  Playground.slideHeight s' = Playground.slideHeight s
  /\ Playground.slideWidth s' = Playground.slideWidth s.
Proof.
  intros Hrun. destruct (playground_frame now clock s) as [display [_ Heq]].
  rewrite Hrun in Heq. injection Heq as ->. cbn. auto.
Qed.

Lemma playground_steady_step (s s' : Playground.State) (e : Playground.Event) :
  playgroundInput e -> Playground.step s e = Some s' ->
  playgroundSettled s -> playgroundSteady s -> playgroundSteady s'.
Proof.
  intros He Hstep [Href [Hwref _]] [Hh [Hw Hks]].
  destruct e; cbn [Playground.step playgroundInput] in *.
  - destruct (Playground.isPlaying s);
      [| injection Hstep as <-; repeat split; tauto].
    destruct (playground_frame_keeps now clock s s' Hstep) as [Hh' Hw'].
    unfold playgroundSteady.
    rewrite (playground_frame_kids_map now clock s s' Hstep), Hh', Hw'.
    split; [assumption |]. split; [assumption |].
    apply Forall_advance; [| assumption]. intros k _ Hk.
    pose proof (playground_speed_range (Playground.slideHeightRef s)
                  (Playground.slideWidthRef s)
                  (JS.rem (progress k) Playground.TOTAL_PATH_LENGTH)) as Hsp.
    rewrite Href, Hwref in Hsp. specialize (Hsp Hh Hw).
    rewrite Href, Hwref. lra.
  - injection Hstep as <-. unfold playgroundSteady. cbn. tauto.
  - injection Hstep as <-. unfold playgroundSteady. cbn. tauto.
  - injection Hstep as <-. unfold playgroundSteady.
    destruct (playground_setMeasureRate_keeps b now s)
      as [_ [-> [-> [-> _]]]].
    tauto.
  - injection Hstep as <-. unfold playgroundSteady. cbn. tauto.
  - injection Hstep as <-. unfold playgroundSteady.
    destruct (playground_reset_fields now s) as [-> [-> [-> _]]].
    split; [lra |]. split; [lra |].
    apply seed_ids_progress; unfold Playground.KID_COUNT,
      Playground.TOTAL_PATH_LENGTH; [lia | lra].
Qed.

Lemma playground_steady_run (es : list Playground.Event) :
  forall s s',
    Forall playgroundInput es -> Playground.run s es = Some s' ->
    playgroundSettled s -> playgroundSteady s ->
    playgroundSettled s' /\ playgroundSteady s'.
Proof.
  induction es as [| e rest IH]; intros s s' Hes Hrun Hset Hs;
    cbn [Playground.run] in Hrun.
  - injection Hrun as <-. now split.
  - inversion Hes as [| ? ? He Hrest]; subst.
    destruct (Playground.step s e) as [s1 |] eqn:Hstep; [| discriminate].
    apply (IH s1 s' Hrest Hrun).
    + now apply (playground_settled_step s s1 e).
    + now apply (playground_steady_step s s1 e).
Qed.

Lemma playground_steady_initial (t0 : R) :
  playgroundSteady (Playground.initialState t0).
Proof.
  unfold playgroundSteady. cbn.
  unfold Playground.INITIAL_SLIDE_HEIGHT, Playground.INITIAL_SLIDE_WIDTH.
  split; [lra |]. split; [lra |].
  apply seed_ids_progress; unfold Playground.KID_COUNT,
    Playground.TOTAL_PATH_LENGTH; [lia | lra].
Qed.

(** X7: as long as the sliders are only given values within their ranges,
    every entity's progress is non-negative in every reachable state, and a
    frame moves every entity forward, keeping its id: by [voltage / 25],
    between 0 and 4, in the electric circuit; by between 0.18 and 4.5 in
    the water circuit; by between 0.38 and 5.5 on the playground.  Water
    particles and kids therefore never stand still while playing. *)
Theorem X7_entities_move_forward :
  (forall t0 events now,
      Forall electricInput events ->
      let s := Electric.run (Electric.initialState t0) events in
      Forall (fun p => 0 <= progress p) (Electric.particles s)
      /\ Forall2 (movedBy 0 4) (Electric.particles s)
                 (Electric.particles (Electric.runSimulation now s)))
  /\ (forall t0 events s now clock,
      Forall waterInput events ->
      Water.run (Water.initialState t0) events = Some s ->
      Forall (fun p => 0 <= progress p) (Water.particles s)
      /\ exists s',
           Water.runSimulation now clock s = Some s'
           /\ Forall2 (movedBy 0.18 4.5) (Water.particles s) (Water.particles s'))
  /\ (forall t0 events s now clock,
      Forall playgroundInput events ->
      Playground.run (Playground.initialState t0) events = Some s ->
      Forall (fun k => 0 <= progress k) (Playground.kids s)
      /\ exists s',
           Playground.runSimulation now clock s = Some s'
           /\ Forall2 (movedBy 0.38 5.5) (Playground.kids s) (Playground.kids s')).
Proof.
  split; [| split].
  - intros t0 events now Hin s.
    destruct (electric_steady_run events (Electric.initialState t0) Hin
                (electric_steady_initial t0)) as [Hv [_ Hps]].
    fold s in Hv, Hps. split; [assumption |].
    rewrite electric_frame_particles.
    apply Forall2_advance. intros p _. lra.
  - intros t0 events s now clock Hin Hrun.
    destruct (water_steady_run events (Water.initialState t0) s Hin Hrun
                (water_settled_initial t0) (water_steady_initial t0))
      as [[Href [Hwref _]] [Hh [Hw [Hps _]]]].
    split; [assumption |].
    destruct (water_frame_total now clock s) as [s' Hframe].
    exists s'. split; [assumption |].
    rewrite (water_frame_particles_map now clock s s' Hframe).
    apply Forall2_advance. intros p _.
    pose proof (water_speed_range (Water.heightDifferenceRef s)
                  (Water.pipeWidthRef s)
                  (JS.rem (progress p) Water.TOTAL_PATH_LENGTH)) as Hsp.
    rewrite Href, Hwref in Hsp. specialize (Hsp Hh Hw).
    rewrite Href, Hwref. lra.
  - intros t0 events s now clock Hin Hrun.
    destruct (playground_steady_run events (Playground.initialState t0) s Hin
                Hrun (playground_settled_initial t0)
                (playground_steady_initial t0))
      as [[Href [Hwref _]] [Hh [Hw Hks]]].
    split; [assumption |].
    destruct (playground_frame_total now clock s) as [s' Hframe].
    exists s'. split; [assumption |].
    rewrite (playground_frame_kids_map now clock s s' Hframe).
    apply Forall2_advance. intros k _.
    pose proof (playground_speed_range (Playground.slideHeightRef s)
                  (Playground.slideWidthRef s)
                  (JS.rem (progress k) Playground.TOTAL_PATH_LENGTH)) as Hsp.
    rewrite Href, Hwref in Hsp. specialize (Hsp Hh Hw).
    rewrite Href, Hwref. lra.
Qed.

(** The electric circuit with the voltage slider at its maximum. *)
Lemma X7_entities_move_forward_witness :
  let s := Electric.run (Electric.initialState 0) [Electric.SetVoltage 100] in
  Forall (fun p => 0 <= progress p) (Electric.particles s)
  /\ Forall2 (movedBy 0 4) (Electric.particles s)
             (Electric.particles (Electric.runSimulation 16 s)).
Proof.
  apply (proj1 X7_entities_move_forward 0 [Electric.SetVoltage 100] 16).
  repeat constructor; cbn; lra.
Defined.

End EntityFacts.

(* ================================================================== *)
(** * Readout and turbine *)

Section ReadoutFacts.

Lemma electric_step_count_bounds (speed : R) (measuring : bool)
  (ps : list Particle) :
  forall count,
    (count <= snd (Electric.stepParticles speed measuring ps count)
     <= count + Z.of_nat (length ps))%Z.
Proof.
  induction ps as [| p rest IH]; intros count; [cbn; lia |].
  cbn [Electric.stepParticles Electric.updateParticle length].
  match goal with
  | |- context [Electric.stepParticles speed measuring rest ?c] =>
      pose proof (IH c) as Hc;
      destruct (Electric.stepParticles speed measuring rest c)
  end.
  cbn [snd] in *.
  destruct measuring; [destruct (Electric.crossed _ _) |]; lia.
Qed.

Lemma electric_readout_step (s : Electric.State) (e : Electric.Event) :
  0 <= Electric.displayRate s /\ (0 <= Electric.particlesCrossed s)%Z ->
  0 <= Electric.displayRate (Electric.step s e)
  /\ (0 <= Electric.particlesCrossed (Electric.step s e))%Z.
Proof.
  intros [Hd Hc]. destruct e; cbn [Electric.step]; try (cbn; tauto).
  - destruct (Electric.isPlaying s); [| tauto].
    unfold Electric.runSimulation.
    match goal with
    | |- context [Electric.stepParticles ?v ?m ?ps ?c] =>
        pose proof (electric_step_count_bounds v m ps c) as Hb;
        destruct (Electric.stepParticles v m ps c)
    end.
    cbn [snd Electric.displayRate Electric.particlesCrossed] in *.
    destruct (Electric.measureRateRef s);
      [destruct (Rge_dec _ _) |]; split; try lia; try assumption.
    unfold Electric.CHARGE_PER_PARTICLE.
    apply Rmult_le_pos; [apply IZR_le; assumption | lra].
  - destruct (electric_setMeasureRate_keeps b now s) as [_ [_ [_ [_ [H1 H2]]]]].
    auto.
  - destruct (electric_reset_fields now s) as [_ [_ [_ [H1 H2]]]]. auto.
Qed.

Lemma electric_readout_run (es : list Electric.Event) :
  forall s,
    0 <= Electric.displayRate s /\ (0 <= Electric.particlesCrossed s)%Z ->
    0 <= Electric.displayRate (Electric.run s es)
    /\ (0 <= Electric.particlesCrossed (Electric.run s es))%Z.
Proof.
  induction es as [| e rest IH]; intros s Hs; [assumption |].
  cbn [Electric.run fold_left]. apply IH. now apply electric_readout_step.
Qed.

Lemma rate_nonneg (recent : list R) (rate : R) :
  Rolling.rate recent = Some rate -> 0 <= rate.
Proof.
  unfold Rolling.rate, JS.div_checked. intros Hrate.
  destruct (1 <? length recent)%nat eqn:Hlen;
    [| injection Hrate as <-; lra].
  destruct (Rgt_dec (Rolling.timeSpanSeconds recent) 0) as [Hspan | _];
    [| injection Hrate as <-; lra].
  destruct (Req_dec_T (Rolling.timeSpanSeconds recent) 0); [discriminate |].
  injection Hrate as <-.
  apply Nat.ltb_lt in Hlen.
  assert (Hn : 2 <= INR (length recent)).
  { replace 2 with (INR 2) by (simpl; lra). apply le_INR. lia. }
  apply Rmult_le_pos; [lra |]. left. apply Rinv_0_lt_compat. lra.
Qed.

Lemma water_readout_step (s s' : Water.State) (e : Water.Event) :
  Water.step s e = Some s' ->
  0 <= Water.displayRate s -> 0 <= Water.displayRate s'.
Proof.
  intros Hstep Hd. destruct e; cbn [Water.step] in Hstep;
    try (injection Hstep as <-; cbn; assumption).
  - destruct (Water.isPlaying s); [| now injection Hstep as <-].
    destruct (water_frame now clock s) as [display [Hdisplay Heq]].
    rewrite Hstep in Heq. injection Heq as ->. cbn [Water.displayRate].
    destruct (Rolling.due _ _ _).
    + destruct Hdisplay as [rate [Hrate ->]].
      apply rate_nonneg in Hrate. unfold Water.VOLUME_PER_PARTICLE. nra.
    + now subst display.
  - injection Hstep as <-.
    now apply (water_setMeasureRate_keeps b now s).
  - injection Hstep as <-. now apply (water_reset_fields now s).
Qed.

Lemma water_readout_run (es : list Water.Event) :
  forall s s',
    Water.run s es = Some s' ->
    0 <= Water.displayRate s -> 0 <= Water.displayRate s'.
Proof.
  induction es as [| e rest IH]; intros s s' Hrun Hs; cbn [Water.run] in Hrun.
  - now injection Hrun as <-.
  - destruct (Water.step s e) as [s1 |] eqn:Hstep; [| discriminate].
    apply (IH s1 s' Hrun). now apply (water_readout_step s s1 e).
Qed.

Lemma playground_readout_step (s s' : Playground.State) (e : Playground.Event) :
  Playground.step s e = Some s' ->
  0 <= Playground.displayRate s -> 0 <= Playground.displayRate s'.
Proof.
  intros Hstep Hd. destruct e; cbn [Playground.step] in Hstep;
    try (injection Hstep as <-; cbn; assumption).
  - destruct (Playground.isPlaying s); [| now injection Hstep as <-].
    destruct (playground_frame now clock s) as [display [Hdisplay Heq]].
    rewrite Hstep in Heq. injection Heq as ->. cbn [Playground.displayRate].
    destruct (Rolling.due _ _ _).
    + now apply rate_nonneg in Hdisplay.
    + now subst display.
  - injection Hstep as <-.
    now apply (playground_setMeasureRate_keeps b now s).
  - injection Hstep as <-. now apply (playground_reset_fields now s).
Qed.

Lemma playground_readout_run (es : list Playground.Event) :
  forall s s',
    Playground.run s es = Some s' ->
    0 <= Playground.displayRate s -> 0 <= Playground.displayRate s'.
Proof.
  induction es as [| e rest IH]; intros s s' Hrun Hs;
    cbn [Playground.run] in Hrun.
  - now injection Hrun as <-.
  - destruct (Playground.step s e) as [s1 |] eqn:Hstep; [| discriminate].
    apply (IH s1 s' Hrun). now apply (playground_readout_step s s1 e).
Qed.

(** X8: the displayed rate is never negative, in any state any of the
    three simulations can reach; the electric counter is never negative,
    and a frame raises it by at most one per particle. *)
Theorem X8_displayed_rate_is_never_negative :
  (forall t0 events,
      let s := Electric.run (Electric.initialState t0) events in
      0 <= Electric.displayRate s /\ (0 <= Electric.particlesCrossed s)%Z)
  /\ (forall speed measuring ps count,
      (count <= snd (Electric.stepParticles speed measuring ps count)
       <= count + Z.of_nat (length ps))%Z)
  /\ (forall t0 events s,
      Water.run (Water.initialState t0) events = Some s ->
      0 <= Water.displayRate s)
  /\ (forall t0 events s,
      Playground.run (Playground.initialState t0) events = Some s ->
      0 <= Playground.displayRate s).
Proof.
  split; [| split; [| split]].
  - intros t0 events s. apply electric_readout_run. cbn. split; [lra | lia].
  - intros. apply electric_step_count_bounds.
  - intros t0 events s Hrun.
    apply (water_readout_run events (Water.initialState t0) s Hrun). cbn. lra.
  - intros t0 events s Hrun.
    apply (playground_readout_run events (Playground.initialState t0) s Hrun).
    cbn. lra.
Qed.

(** The water readout after measurement was switched on. *)
Lemma X8_displayed_rate_is_never_negative_witness :
  0 <= Water.displayRate (Water.setMeasureRate true 5 (Water.initialState 0)).
Proof.
  apply (proj1 (proj2 (proj2 X8_displayed_rate_is_never_negative)) 0
           [Water.SetMeasureRate true 5]).
  reflexivity.
Defined.

(** ** The turbine *)

Lemma water_update_spin (gravity pump : R) (measuring : bool) (stamp : R)
  (p : Particle) (log : list R) (spin : bool) :
  snd (Water.updateParticle gravity pump measuring stamp p log spin)
  = spin || ((if Rgt_dec gravity 0.1 then true else false)
             && onGravityStretch p).
Proof.
  unfold Water.updateParticle, onGravityStretch. cbn [snd].
  destruct (Rlt_dec (JS.rem (progress p) Water.TOTAL_PATH_LENGTH) 350);
    destruct (Rgt_dec gravity 0.1); destruct spin; reflexivity.
Qed.

Lemma water_step_spin (gravity pump : R) (measuring : bool) (clock : nat -> R)
  (ps : list Particle) :
  forall i log spin,
    snd (Water.stepParticles gravity pump measuring clock i ps log spin)
    = spin || ((if Rgt_dec gravity 0.1 then true else false)
               && existsb onGravityStretch ps).
Proof.
  induction ps as [| p rest IH]; intros i log spin.
  - cbn. now rewrite andb_false_r, orb_false_r.
  - cbn [Water.stepParticles existsb].
    pose proof (water_update_spin gravity pump measuring (clock i) p log spin)
      as Hup.
    destruct (Water.updateParticle gravity pump measuring (clock i) p log spin)
      as [[p' log'] spin'].
    cbn [snd] in Hup.
    specialize (IH (S i) log' spin').
    destruct (Water.stepParticles gravity pump measuring clock (S i) rest
                log' spin') as [[rest' logF] spinF].
    cbn [snd] in *. rewrite IH, Hup.
    destruct spin, (Rgt_dec gravity 0.1), (onGravityStretch p),
      (existsb onGravityStretch rest); reflexivity.
Qed.

(** X9: with the sliders within their ranges the turbine angle stays
    within [0, 360) in every reachable state, and a frame turns the turbine
    exactly when some particle is on the gravity-fed stretch (progress mod
    1000 below 350): then by twice the gravity speed, modulo 360. *)
Theorem X9_turbine :
  forall t0 events s now clock,
    Forall waterInput events ->
    Water.run (Water.initialState t0) events = Some s ->
    0 <= Water.turbineRotation s < 360
    /\ exists s',
         Water.runSimulation now clock s = Some s'
         /\ Water.turbineRotation s'
            = if existsb onGravityStretch (Water.particles s)
              then JS.rem (Water.turbineRotation s
                           + Water.gravitySpeed (Water.heightDifference s)
                               (Water.pipeWidth s) * 2) 360
              else Water.turbineRotation s.
Proof.
  intros t0 events s now clock Hin Hrun.
  destruct (water_steady_run events (Water.initialState t0) s Hin Hrun
              (water_settled_initial t0) (water_steady_initial t0))
    as [[Href [Hwref _]] [Hh [Hw [_ Hrot]]]].
  split; [assumption |].
  destruct (water_frame now clock s) as [display [_ Heq]].
  eexists. split; [exact Heq |].
  cbn [Water.turbineRotation]. rewrite water_step_spin, Href, Hwref.
  cbn [orb].
  destruct (water_speeds_in_range (Water.heightDifference s)
              (Water.pipeWidth s) 0 Hh Hw) as [Hg _].
  assert (Hlow : 0.18 <= Water.gravitySpeed (Water.heightDifference s)
                           (Water.pipeWidth s)).
  { pose proof (water_speed_range (Water.heightDifference s)
                  (Water.pipeWidth s) 0 Hh Hw) as Hsp.
    unfold Water.speedAt in Hsp.
    destruct (Rlt_dec 0 350); lra. }
  destruct (Rgt_dec _ 0.1); [| lra]. reflexivity.
Qed.

(** The first frame of the water circuit. *)
Lemma X9_turbine_witness :
  0 <= Water.turbineRotation (Water.initialState 0) < 360.
Proof.
  apply (X9_turbine 0 [] (Water.initialState 0) 16 (fun _ => 16)).
  - constructor.
  - reflexivity.
Defined.

End ReadoutFacts.

(* ================================================================== *)
(** * Where the entities are drawn *)

Section DrawingFacts.

Import JSFacts.

Lemma lane_offset_bound (lane n : Z) (range : R) :
  (0 <= lane < n)%Z -> 0 <= range ->
  Rabs ((IZR lane - (IZR n - 1) / 2) * (range / IZR n)) <= range / 2.
Proof.
  intros [Hlo Hhi] Hrange.
  assert (HL : 0 <= IZR lane) by (apply IZR_le; assumption).
  assert (HN : IZR lane <= IZR n - 1).
  { rewrite <- minus_IZR. apply IZR_le. lia. }
  assert (Hn : 1 <= IZR n) by lra.
  set (q := range / IZR n).
  assert (HqN : q * IZR n = range) by (unfold q; field; lra).
  assert (Hq : 0 <= q).
  { unfold q. apply Rmult_le_pos; [assumption |].
    left. apply Rinv_0_lt_compat. lra. }
  apply Rabs_le. split; nra.
Qed.

Lemma numLanes_rem_range (particleId n : Z) :
  (0 <= particleId)%Z -> (1 <= n)%Z -> (0 <= Z.rem particleId n < n)%Z.
Proof. intros Hid Hn. apply Z.rem_bound_pos; lia. Qed.

Lemma electric_offset_bound (particleId totalParticles : Z) (width strokeWidth : R) :
  (0 <= particleId)%Z -> 0 <= strokeWidth ->
  Rabs (Electric.offset particleId totalParticles width strokeWidth)
  <= 0.35 * strokeWidth.
Proof.
  intros Hid Hsw. unfold Electric.offset.
  destruct (1 <? totalParticles)%Z; [| rewrite Rabs_R0; lra].
  replace (0.35 * strokeWidth) with (Electric.offsetRange strokeWidth / 2)
    by (unfold Electric.offsetRange; lra).
  apply lane_offset_bound.
  - apply numLanes_rem_range; [assumption |]. unfold Electric.numLanes. lia.
  - unfold Electric.offsetRange. lra.
Qed.

Lemma water_offset_bound (particleId totalParticles : Z) (width strokeWidth : R) :
  (0 <= particleId)%Z -> 0 <= strokeWidth ->
  Rabs (Water.offset particleId totalParticles width strokeWidth)
  <= 0.4 * strokeWidth.
Proof.
  intros Hid Hsw. unfold Water.offset.
  destruct (1 <? totalParticles)%Z; [| rewrite Rabs_R0; lra].
  replace (0.4 * strokeWidth) with (Water.offsetRange strokeWidth / 2)
    by (unfold Water.offsetRange; lra).
  apply lane_offset_bound.
  - apply numLanes_rem_range; [assumption |]. unfold Water.numLanes. lia.
  - unfold Water.offsetRange. lra.
Qed.

Lemma playground_numLanes_range (width : R) :
  10 <= width <= 100 -> (1 <= Playground.numLanes width <= 4)%Z.
Proof.
  intros Hw. unfold Playground.numLanes.
  pose proof (floor_bounds (width / 25)) as [Hlo _].
  assert (Hfl : (JS.floor (width / 25) <= 4)%Z).
  { apply le_IZR. lra. }
  lia.
Qed.

Lemma playground_offset_bound (kidId totalKids : Z) (width : R) :
  (0 <= kidId)%Z -> 10 <= width <= 100 ->
  Rabs (Playground.offset kidId totalKids width) <= 18.
Proof.
  intros Hid Hw. unfold Playground.offset.
  destruct (1 <? totalKids)%Z; [| rewrite Rabs_R0; lra].
  pose proof (playground_numLanes_range width Hw) as [Hn1 Hn4].
  pose proof (numLanes_rem_range kidId (Playground.numLanes width) Hid Hn1)
    as [Hl0 Hl1].
  unfold Playground.lane.
  set (n := Playground.numLanes width) in *.
  set (l := Z.rem kidId n) in *.
  assert (HL : 0 <= IZR l) by (apply IZR_le; assumption).
  assert (HLn : IZR l <= IZR n - 1).
  { rewrite <- minus_IZR. apply IZR_le. lia. }
  assert (HN : IZR n <= 4) by (apply IZR_le; assumption).
  apply Rabs_le. split; lra.
Qed.

(** X10: for entity ids that are not negative, the lane offset of an
    electric particle is at most 0.35 times the stroke width and that of a
    water particle at most 0.4 times the stroke width, so all lanes lie
    within the drawn wire or pipe (half the stroke width on either side of
    the centreline); a kid's offset is at most 18 for slide widths within
    10..100, where there are between one and four lanes. *)
Theorem X10_lanes_stay_within_the_stroke :
  (forall particleId totalParticles width strokeWidth,
      (0 <= particleId)%Z -> 0 <= strokeWidth ->
      Rabs (Electric.offset particleId totalParticles width strokeWidth)
      <= 0.35 * strokeWidth
      /\ Rabs (Water.offset particleId totalParticles width strokeWidth)
         <= 0.4 * strokeWidth)
  /\ (forall kidId totalKids width,
      (0 <= kidId)%Z -> 10 <= width <= 100 ->
      (1 <= Playground.numLanes width <= 4)%Z
      /\ Rabs (Playground.offset kidId totalKids width) <= 18).
Proof.
  split.
  - intros particleId totalParticles width strokeWidth Hid Hsw. split.
    + now apply electric_offset_bound.
    + now apply water_offset_bound.
  - intros kidId totalKids width Hid Hw. split.
    + now apply playground_numLanes_range.
    + now apply playground_offset_bound.
Qed.

(** Particle 7 of 30 on the widest wire, whose stroke is 12 wide. *)
Lemma X10_lanes_stay_within_the_stroke_witness :
  Rabs (Electric.offset 7 30 100 12) <= 0.35 * 12.
Proof.
  apply (proj1 X10_lanes_stay_within_the_stroke 7%Z 30%Z 100 12); [lia | lra].
Defined.

(** ** Whole laps *)

Lemma rem_add_laps (a : R) (k : Z) :
  0 <= a -> (0 <= k)%Z -> JS.rem (a + 1000 * IZR k) 1000 = JS.rem a 1000.
Proof.
  intros Ha Hk.
  destruct (rem_laps a Ha) as [j [Hj Hold]].
  assert (HK : 0 <= IZR k) by (apply IZR_le; assumption).
  rewrite (rem_eq_nonneg (a + 1000 * IZR k) 1000 (j + k));
    rewrite ?plus_IZR; lra.
Qed.

(** X11: an entity whose progress is not negative is drawn at the same
    place after any number of whole laps: adding [1000 * k] to the
    progress changes none of the three position functions. *)
Theorem X11_whole_laps_return_to_the_same_place :
  forall progress k,
    0 <= progress -> (0 <= k)%Z ->
    (forall particleId totalParticles width strokeWidth,
        Electric.getParticlePosition (progress + 1000 * IZR k)
          particleId totalParticles width strokeWidth
        = Electric.getParticlePosition progress
            particleId totalParticles width strokeWidth)
    /\ (forall particleId totalParticles width strokeWidth heightDifference,
        Water.getParticlePosition (progress + 1000 * IZR k)
          particleId totalParticles width strokeWidth heightDifference
        = Water.getParticlePosition progress
            particleId totalParticles width strokeWidth heightDifference)
    /\ (forall kidId totalKids width slideHeight,
        Playground.getKidPosition (progress + 1000 * IZR k)
          kidId totalKids width slideHeight
        = Playground.getKidPosition progress kidId totalKids width slideHeight).
Proof.
  intros progress k Hp Hk.
  unfold Electric.getParticlePosition, Water.getParticlePosition,
    Playground.getKidPosition, Electric.TOTAL_PATH_LENGTH,
    Water.TOTAL_PATH_LENGTH, Playground.TOTAL_PATH_LENGTH.
  rewrite (rem_add_laps progress k Hp Hk).
  repeat split; reflexivity.
Qed.

(** Three laps on from progress 120. *)
Lemma X11_whole_laps_return_to_the_same_place_witness :
  Playground.getKidPosition (120 + 1000 * IZR 3) 4 15 50 50
  = Playground.getKidPosition 120 4 15 50 50.
Proof.
  apply (proj2 (proj2 (X11_whole_laps_return_to_the_same_place 120 3
                         ltac:(lra) ltac:(lia)))).
Defined.

(** ** Inside the viewBox *)

Lemma Rabs_le_inv (a b : R) : Rabs a <= b -> - b <= a <= b.
Proof.
  unfold Rabs. destruct (Rcase_abs a); lra.
Qed.








Lemma slide_tangent (t : R) :
  150 <= 3 * (1 - t) ^ 2 * (150 - 50) + 6 * (1 - t) * t * (150 - 150)
         + 3 * t ^ 2 * (250 - 150).
Proof.
  replace (3 * (1 - t) ^ 2 * (150 - 50) + 6 * (1 - t) * t * (150 - 150)
           + 3 * t ^ 2 * (250 - 150))
    with (150 + 150 * ((2 * t - 1) * (2 * t - 1))) by ring.
  pose proof (Rle_0_sqr (2 * t - 1)) as Hsq. unfold Rsqr in Hsq.
  set (u := (2 * t - 1) * (2 * t - 1)) in *. lra.
Qed.

Lemma slide_length_positive (dx dy : R) :
  150 <= dx -> sqrt (dx * dx + dy * dy) <> 0.
Proof.
  intros Hdx Hz. apply sqrt_eq_0 in Hz; nra.
Qed.





(** ** Distance from the centreline *)

Lemma unit_normal (a b : R) :
  sqrt (a * a + b * b) <> 0 ->
  (a / sqrt (a * a + b * b)) * (a / sqrt (a * a + b * b))
  + (b / sqrt (a * a + b * b)) * (b / sqrt (a * a + b * b)) = 1.
Proof.
  intros Hm.
  assert (Hsum : 0 <= a * a + b * b) by nra.
  pose proof (sqrt_sqrt (a * a + b * b) Hsum) as Hsq.
  set (m := sqrt (a * a + b * b)) in *.
  replace (a / m * (a / m) + b / m * (b / m))
    with ((a * a + b * b) / (m * m)) by (field; assumption).
  rewrite <- Hsq. field. nra.
Qed.

Lemma water_displacement (off : R) (start finish : Point) (prog : R) :
  px start <> px finish \/ py start <> py finish ->
  let c := Water.calculatePosition 0 start finish prog in
  let q := Water.calculatePosition off start finish prog in
  (px q - px c) * (px q - px c) + (py q - py c) * (py q - py c) = off * off.
Proof.
  intros Hdiff. unfold Water.calculatePosition. cbn [px py].
  set (vx := px finish - px start). set (vy := py finish - py start).
  assert (Hpos : 0 < vx * vx + vy * vy).
  { destruct Hdiff as [Hx | Hy].
    - assert (vx <> 0) by (unfold vx; lra). nra.
    - assert (vy <> 0) by (unfold vy; lra). nra. }
  pose proof (sqrt_lt_R0 _ Hpos) as Hm.
  unfold JS.sqrt_or.
  destruct (Req_dec_T (sqrt (vx * vx + vy * vy)) 0) as [Hz | Hnz]; [lra |].
  pose proof (unit_normal vx vy Hnz) as Hunit.
  set (m := sqrt (vx * vx + vy * vy)) in *.
  replace (px start + vx * prog + off * (vy / m)
           - (px start + vx * prog + 0 * (vy / m))) with (off * (vy / m))
    by ring.
  replace (py start + vy * prog + off * (- vx / m)
           - (py start + vy * prog + 0 * (- vx / m))) with (- (off * (vx / m)))
    by (unfold Rdiv; ring).
  replace (off * (vy / m) * (off * (vy / m))
           + - (off * (vx / m)) * - (off * (vx / m)))
    with (off * off * (vx / m * (vx / m) + vy / m * (vy / m))) by ring.
  rewrite Hunit. ring.
Qed.

Lemma water_degenerate (off : R) (start : Point) (prog : R) :
  Water.calculatePosition off start start prog = start.
Proof.
  unfold Water.calculatePosition, JS.sqrt_or.
  replace ((px start - px start) * (px start - px start)
           + (py start - py start) * (py start - py start)) with 0 by ring.
  rewrite sqrt_0. destruct (Req_dec_T 0 0) as [_ | Hne]; [| contradiction].
  destruct start as [sx sy]. cbn [px py]. f_equal; field.
Qed.

Lemma slide_displacement (off h p : R) :
  let c := Playground.seg_0_300 0 h p in
  let q := Playground.seg_0_300 off h p in
  (px q - px c) * (px q - px c) + (py q - py c) * (py q - py c) = off * off.
Proof.
  unfold Playground.seg_0_300. cbn [px py].
  pose proof (slide_tangent (p / 300)) as Hdx.
  set (t := p / 300) in *.
  set (dx := 3 * (1 - t) ^ 2 * (150 - 50) + 6 * (1 - t) * t * (150 - 150)
             + 3 * t ^ 2 * (250 - 150)) in *.
  set (dy := 3 * (1 - t) ^ 2 * (Playground.topY h - Playground.topY h)
             + 6 * (1 - t) * t * (200 - Playground.topY h)
             + 3 * t ^ 2 * (200 - 200)).
  pose proof (slide_length_positive dx dy Hdx) as Hmag.
  destruct (Req_dec_T (sqrt (dx * dx + dy * dy)) 0); [contradiction |].
  pose proof (unit_normal dx dy Hmag) as Hunit.
  set (m := sqrt (dx * dx + dy * dy)) in *.
  cbn [px py].
  match goal with
  | |- (?x + off * ?nx - (?x + 0 * ?nx)) * _ + (?y + off * ?ny - (?y + 0 * ?ny)) * _ = _ =>
      replace (x + off * nx - (x + 0 * nx)) with (off * nx) by ring;
      replace (y + off * ny - (y + 0 * ny)) with (off * ny) by ring
  end.
  replace (off * (- dy / m) * (off * (- dy / m)) + off * (dx / m) * (off * (dx / m)))
    with (off * off * (dx / m * (dx / m) + dy / m * (dy / m)))
    by (unfold Rdiv; ring).
  rewrite Hunit. ring.
Qed.

(** X13: the lane offset is the distance from the centreline.  On a water
    pipe whose end points differ, and everywhere on the slide, the entity
    is drawn exactly [|offset|] away from where the entity with offset 0
    is drawn; the slide's zero-length guard is never taken, because the
    tangent of the curve always has an x component of at least 150.  A
    water segment whose end points coincide draws the entity at that
    point, whatever the offset. *)
Theorem X13_offset_is_the_distance_from_the_centreline :
  (forall off start finish prog,
      px start <> px finish \/ py start <> py finish ->
      let c := Water.calculatePosition 0 start finish prog in
      let q := Water.calculatePosition off start finish prog in
      (px q - px c) * (px q - px c) + (py q - py c) * (py q - py c)
      = off * off)
  /\ (forall off start prog,
      Water.calculatePosition off start start prog = start)
  /\ (forall off h p,
      let c := Playground.seg_0_300 0 h p in
      let q := Playground.seg_0_300 off h p in
      (px q - px c) * (px q - px c) + (py q - py c) * (py q - py c)
      = off * off)
  /\ (forall t dy,
      let dx := 3 * (1 - t) ^ 2 * (150 - 50) + 6 * (1 - t) * t * (150 - 150)
                + 3 * t ^ 2 * (250 - 150) in
      150 <= dx /\ sqrt (dx * dx + dy * dy) <> 0).
Proof.
  split; [exact water_displacement |].
  split; [exact water_degenerate |].
  split; [exact slide_displacement |].
  intros t dy dx. split; [apply slide_tangent |].
  apply slide_length_positive. apply slide_tangent.
Qed.

(** The gravity pipe from the turbine to the bottom reservoir. *)
Lemma X13_offset_is_the_distance_from_the_centreline_witness :
  let c := Water.calculatePosition 0 (mkPoint 150 240) (mkPoint 70 300) 0.5 in
  let q := Water.calculatePosition 3 (mkPoint 150 240) (mkPoint 70 300) 0.5 in
  (px q - px c) * (px q - px c) + (py q - py c) * (py q - py c) = 3 * 3.
Proof.
  apply (proj1 X13_offset_is_the_distance_from_the_centreline 3
           (mkPoint 150 240) (mkPoint 70 300) 0.5).
  left. cbn. lra.
Defined.

(** ** Reservoirs *)

Lemma isInReservoir_iff (r : R) :
  WaterView.isInReservoir r = true <-> (350 <= r < 400) \/ 950 <= r.
Proof.
  unfold WaterView.isInReservoir.
  destruct (Rge_dec r 350); destruct (Rlt_dec r 400); destruct (Rge_dec r 950);
    cbn; split; intros H; try discriminate; try reflexivity; lra.
Qed.

(** X14: a water particle is left undrawn exactly while the position
    function holds it at a reservoir point: with [r] the progress mod 1000,
    it is hidden when [350 <= r < 400], where the position is the bottom
    reservoir's inlet (70, 300), and when [950 <= r], where it is the top
    reservoir's inlet (180, topY); otherwise it is drawn on one of the five
    pipes. *)
Theorem X14_particles_in_a_reservoir_are_hidden :
  forall s p,
    let r := JS.rem (progress p) Water.TOTAL_PATH_LENGTH in
    let off := Water.offset (id p) (Z.of_nat (length (Water.particles s)))
                 (Water.pipeWidth s)
                 (Water.pipeStrokeWidth (Water.pipeWidth s)) in
    let position := Water.getParticlePosition (progress p) (id p)
                      (Z.of_nat (length (Water.particles s)))
                      (Water.pipeWidth s)
                      (Water.pipeStrokeWidth (Water.pipeWidth s))
                      (Water.heightDifference s) in
    (WaterView.drawn s p = None <-> (350 <= r < 400) \/ 950 <= r)
    /\ (350 <= r < 400 -> position = mkPoint 70 300)
    /\ (950 <= r -> position = mkPoint 180 (Water.topY (Water.heightDifference s)))
    /\ (~ ((350 <= r < 400) \/ 950 <= r) ->
        WaterView.drawn s p = Some position
        /\ exists start finish prog,
             position = Water.calculatePosition off start finish prog).
Proof.
  intros s p r off position.
  assert (Hdrawn : WaterView.drawn s p
                   = if WaterView.isInReservoir r then None else Some position)
    by reflexivity.
  split.
  { rewrite Hdrawn, <- isInReservoir_iff.
    destruct (WaterView.isInReservoir r); split; congruence. }
  subst position. unfold Water.getParticlePosition. fold r. fold off.
  unfold Water.positionAt.
  split.
  { intros Hr. repeat (destruct (Rlt_dec _ _); [try lra |]); try lra.
    reflexivity. }
  split.
  { intros Hr. repeat (destruct (Rlt_dec _ _); [try lra |]). reflexivity. }
  intros Hout. split.
  { rewrite Hdrawn.
    destruct (WaterView.isInReservoir r) eqn:Hin; [| reflexivity].
    apply isInReservoir_iff in Hin. contradiction. }
  unfold Water.seg_0_200, Water.seg_200_350, Water.seg_400_500,
    Water.seg_500_750, Water.seg_750_950.
  repeat (destruct (Rlt_dec _ _); [try (exfalso; lra); try (now eauto) |]).
  exfalso. lra.
Qed.

(** A particle at progress 370, in the bottom reservoir. *)
Lemma X14_particles_in_a_reservoir_are_hidden_witness :
  Water.getParticlePosition 370 0 40 50 (Water.pipeStrokeWidth 50) 50
  = mkPoint 70 300.
Proof.
  assert (Hrem : JS.rem 370 Water.TOTAL_PATH_LENGTH = 370)
    by (apply rem_small; unfold Water.TOTAL_PATH_LENGTH; lra).
  pose proof (X14_particles_in_a_reservoir_are_hidden
                (Water.initialState 0) (mkParticle 0 370)) as H.
  cbv zeta in H. destruct H as [_ [Hbottom _]].
  cbn [progress id] in Hbottom. rewrite Hrem in Hbottom.
  apply Hbottom. lra.
Defined.

End DrawingFacts.

(* ================================================================== *)
(** * More on the estimators *)

Section EstimatorLaws.

Lemma retain_retain (now1 now2 : R) (log : list R) :
  now1 <= now2 ->
  Rolling.retain now2 (Rolling.retain now1 log) = Rolling.retain now2 log.
Proof.
  intros Hle. unfold Rolling.retain.
  induction log as [| t rest IH]; [reflexivity |].
  cbn [filter].
  destruct (Rge_dec t (now1 - 5000)) as [H1 | H1];
    destruct (Rge_dec t (now2 - 5000)) as [H2 | H2];
    cbn [filter]; rewrite ?IH;
    try (destruct (Rge_dec t (now2 - 5000)); [| contradiction]);
    try (destruct (Rge_dec t (now2 - 5000)); [contradiction |]);
    try reflexivity.
  lra.
Qed.

Lemma retain_app (now : R) (l1 l2 : list R) :
  Rolling.retain now (l1 ++ l2) = Rolling.retain now l1 ++ Rolling.retain now l2.
Proof. unfold Rolling.retain. apply filter_app. Qed.

Lemma retain_length (now : R) (log : list R) :
  (length (Rolling.retain now log) <= length log)%nat.
Proof.
  unfold Rolling.retain. induction log as [| t rest IH]; [cbn; lia |].
  cbn [filter]. destruct (Rge_dec t (now - 5000)); cbn [length]; lia.
Qed.

(** X15: pruning composes.  Pruning at a later time what was pruned at an
    earlier time, with or without crossings logged in between, gives what
    pruning the unpruned log at the later time gives; so the passes the
    throttle skips, or runs, change nothing the next pass sees.  Pruning
    never lengthens the log, and pruning again at the same time changes
    nothing. *)
Theorem X15_pruning_composes :
  (forall now1 now2 log fresh,
      now1 <= now2 ->
      Rolling.retain now2 (Rolling.retain now1 log ++ fresh)
      = Rolling.retain now2 (log ++ fresh))
  /\ (forall now log,
      Rolling.retain now (Rolling.retain now log) = Rolling.retain now log)
  /\ (forall now log,
      (length (Rolling.retain now log) <= length log)%nat).
Proof.
  split; [| split].
  - intros now1 now2 log fresh Hle.
    now rewrite !retain_app, retain_retain.
  - intros now log. apply retain_retain. lra.
  - exact retain_length.
Qed.

(** A pass at 6500 after a pass at 6000. *)
Lemma X15_pruning_composes_witness :
  Rolling.retain 6500 (Rolling.retain 6000 [900; 1200; 1600] ++ [6100])
  = Rolling.retain 6500 ([900; 1200; 1600] ++ [6100]).
Proof.
  apply (proj1 X15_pruning_composes 6000 6500 [900; 1200; 1600] [6100]). lra.
Defined.

(** ** Evenly spaced crossings *)

Lemma everyMs_length (t0 d : R) (n : nat) : length (everyMs t0 d n) = n.
Proof. unfold everyMs. now rewrite length_map, length_seq. Qed.

Lemma everyMs_nth (t0 d : R) (n i : nat) :
  (i < n)%nat -> nth i (everyMs t0 d n) 0 = t0 + d * INR i.
Proof.
  intros Hi. unfold everyMs.
  rewrite (nth_indep _ 0 ((fun k => t0 + d * INR k) 0%nat))
    by (now rewrite length_map, length_seq).
  rewrite (map_nth (fun k => t0 + d * INR k)).
  now rewrite seq_nth.
Qed.

Lemma everyMs_rate (t0 d : R) (n : nat) :
  (2 <= n)%nat -> 0 < d -> Rolling.rate (everyMs t0 d n) = Some (1000 / d).
Proof.
  intros Hn Hd.
  assert (Hspan : Rolling.timeSpanSeconds (everyMs t0 d n)
                  = d * (INR n - 1) / 1000).
  { unfold Rolling.timeSpanSeconds.
    rewrite everyMs_length, !everyMs_nth by lia.
    rewrite minus_INR by lia. simpl. field. }
  assert (Hn2 : 2 <= INR n).
  { replace 2 with (INR 2) by (simpl; lra). apply le_INR. lia. }
  rewrite rate_quotient.
  - rewrite Hspan, everyMs_length. f_equal. field. lra.
  - now rewrite everyMs_length.
  - rewrite Hspan. apply Rlt_gt.
    apply Rmult_lt_0_compat; [| lra]. apply Rmult_lt_0_compat; lra.
Qed.

Lemma everyMs_recent (now t0 d : R) (n : nat) :
  now - 5000 <= t0 -> 0 <= d ->
  Rolling.retain now (everyMs t0 d n) = everyMs t0 d n.
Proof.
  intros Ht Hd. apply retain_keeps. unfold everyMs.
  apply Forall_forall. intros t Hin. apply in_map_iff in Hin.
  destruct Hin as [i [<- _]].
  pose proof (pos_INR i). apply Rle_ge. nra.
Qed.

(** X16: crossings logged at a steady pace are read out exactly: two or
    more timestamps, one every [d] ms, give the rate [1000 / d] per second,
    whenever the first of them is still within the 5-second window; the
    playground shows that number, the water panel 0.05 times it. *)
Theorem X16_steady_crossings_give_the_exact_rate :
  forall now t0 d n,
    (2 <= n)%nat -> 0 < d -> now - 5000 <= t0 ->
    Rolling.rate (everyMs t0 d n) = Some (1000 / d)
    /\ Playground.estimate now (everyMs t0 d n)
       = Some (everyMs t0 d n, 1000 / d)
    /\ Water.estimate now (everyMs t0 d n)
       = Some (everyMs t0 d n, 1000 / d * Water.VOLUME_PER_PARTICLE).
Proof.
  intros now t0 d n Hn Hd Ht.
  pose proof (everyMs_rate t0 d n Hn Hd) as Hrate.
  split; [assumption |].
  unfold Playground.estimate, Water.estimate.
  rewrite everyMs_recent by lra. rewrite Hrate. auto.
Qed.

(** Five crossings 250 ms apart: four per second. *)
Lemma X16_steady_crossings_give_the_exact_rate_witness :
  Rolling.rate (everyMs 1000 250 5) = Some (1000 / 250).
Proof.
  apply (X16_steady_crossings_give_the_exact_rate 2000 1000 250 5);
    [lia | lra | lra].
Defined.

(** ** The clock's origin *)

Lemma retain_shift (c now : R) (log : list R) :
  Rolling.retain (now + c) (map (fun t => t + c) log)
  = map (fun t => t + c) (Rolling.retain now log).
Proof.
  unfold Rolling.retain. induction log as [| t rest IH]; [reflexivity |].
  cbn [map filter].
  destruct (Rge_dec (t + c) (now + c - 5000));
    destruct (Rge_dec t (now - 5000)); cbn [map]; rewrite ?IH;
    try reflexivity; lra.
Qed.

Lemma nth_shift (c : R) (l : list R) (i : nat) :
  (i < length l)%nat ->
  nth i (map (fun t => t + c) l) 0 = nth i l 0 + c.
Proof.
  intros Hi.
  rewrite (nth_indep _ 0 ((fun t => t + c) 0)) by (now rewrite length_map).
  now rewrite (map_nth (fun t => t + c)).
Qed.

Lemma rate_shift (c : R) (l : list R) :
  Rolling.rate (map (fun t => t + c) l) = Rolling.rate l.
Proof.
  unfold Rolling.rate. rewrite length_map.
  destruct (1 <? length l)%nat eqn:Hlen; [| reflexivity].
  apply Nat.ltb_lt in Hlen.
  assert (Hspan : Rolling.timeSpanSeconds (map (fun t => t + c) l)
                  = Rolling.timeSpanSeconds l).
  { unfold Rolling.timeSpanSeconds. rewrite length_map.
    rewrite !nth_shift by lia. field. }
  now rewrite Hspan.
Qed.

(** X17: the readout does not depend on where the clock starts: moving
    the time of the pass and every logged timestamp by the same amount
    moves the retained timestamps by that amount and leaves the rate, and
    what both panels show, unchanged. *)
Theorem X17_the_rate_ignores_the_clock_origin :
  forall c now log,
    Rolling.retain (now + c) (map (fun t => t + c) log)
    = map (fun t => t + c) (Rolling.retain now log)
    /\ Rolling.rate (map (fun t => t + c) log) = Rolling.rate log
    /\ option_map snd (Playground.estimate (now + c) (map (fun t => t + c) log))
       = option_map snd (Playground.estimate now log)
    /\ option_map snd (Water.estimate (now + c) (map (fun t => t + c) log))
       = option_map snd (Water.estimate now log).
Proof.
  intros c now log.
  split; [apply retain_shift |].
  split; [apply rate_shift |].
  unfold Playground.estimate, Water.estimate.
  rewrite retain_shift, rate_shift.
  destruct (Rolling.rate (Rolling.retain now log)); split; reflexivity.
Qed.

End EstimatorLaws.

(* ================================================================== *)
(** * What the electric counter counts *)

Section BucketFacts.

Import Electric.

Lemma electric_step_passed (speed : R) (ps : list Particle) :
  0 <= speed < 100 -> Forall (fun p => 0 <= progress p) ps ->
  snd (stepParticles speed true ps 0) = electricPassed speed ps.
Proof.
  intros Hs Hps. induction Hps as [| p rest Hp Hrest IH]; [reflexivity |].
  cbn [stepParticles electricPassed fold_right].
  fold (electricPassed speed rest).
  destruct (electric_update_passes speed p 0 Hp Hs) as [_ Hcount].
  destruct (updateParticle speed true p 0) as [p' c'].
  cbn [snd] in Hcount.
  pose proof (electric_step_count speed rest c') as Hthread.
  destruct (stepParticles speed true rest c') as [rest' final].
  cbn [snd] in *. lia.
Qed.

Lemma electric_passed_chain (a b : R) (ps : list Particle) :
  (electricPassed a ps
   + electricPassed b (map (fun p => mkParticle (id p) (progress p + a)) ps))%Z
  = electricPassed (a + b) ps.
Proof.
  induction ps as [| p rest IH]; [reflexivity |].
  cbn [electricPassed fold_right map progress].
  fold (electricPassed a rest).
  fold (electricPassed b (map (fun p => mkParticle (id p) (progress p + a)) rest)).
  fold (electricPassed (a + b) rest).
  pose proof (passes_chain 1000 (progress p) (progress p + a)
                (progress p + a + b)) as Hchain.
  replace (progress p + (a + b)) with (progress p + a + b) by lra.
  lia.
Qed.

Lemma electric_bucket_passed (speed : R) (n : nat) :
  0 <= speed < 100 ->
  forall ps,
    Forall (fun p => 0 <= progress p) ps ->
    electricBucket speed n ps = electricPassed (INR n * speed) ps.
Proof.
  intros Hs. induction n as [| n IH]; intros ps Hps.
  - cbn [electricBucket INR]. induction ps as [| p rest IHps]; [reflexivity |].
    inversion Hps; subst.
    cbn [electricPassed fold_right]. fold (electricPassed (0 * speed) rest).
    rewrite <- IHps by assumption.
    unfold passes. replace (progress p + 0 * speed) with (progress p) by lra.
    lia.
  - cbn [electricBucket].
    rewrite electric_step_passed by assumption.
    rewrite electric_step_map.
    rewrite IH.
    + rewrite electric_passed_chain. f_equal. rewrite S_INR. lra.
    + apply Forall_forall. intros q Hq. apply in_map_iff in Hq.
      destruct Hq as [p [<- Hin]]. cbn [progress].
      rewrite Forall_forall in Hps. specialize (Hps p Hin). lra.
Qed.

Lemma electric_passed_laps (m : Z) (ps : list Particle) :
  electricPassed (1000 * IZR m) ps = (m * Z.of_nat (length ps))%Z.
Proof.
  induction ps as [| p rest IH]; [cbn; lia |].
  cbn [electricPassed fold_right length].
  fold (electricPassed (1000 * IZR m) rest).
  rewrite IH, passes_lap. lia.
Qed.

Lemma passes_near (point a d : R) :
  Rabs (IZR (passes point a (a + d)) - d / 1000) <= 1.
Proof.
  unfold passes. rewrite minus_IZR.
  pose proof (JSFacts.floor_bounds ((a + d - point) / 1000)) as H1.
  pose proof (JSFacts.floor_bounds ((a - point) / 1000)) as H2.
  apply Rabs_le. lra.
Qed.

Lemma electric_passed_near (d : R) (ps : list Particle) :
  Rabs (IZR (electricPassed d ps) - INR (length ps) * (d / 1000))
  <= INR (length ps).
Proof.
  induction ps as [| p rest IH].
  - cbn [electricPassed fold_right length INR].
    rewrite Rmult_0_l, Rminus_0_r, Rabs_R0. lra.
  - cbn [electricPassed fold_right length].
    fold (electricPassed d rest).
    rewrite plus_IZR, S_INR.
    pose proof (passes_near 1000 (progress p) d) as Hp.
    apply Rabs_le. apply Rabs_le_inv in Hp. apply Rabs_le_inv in IH. lra.
Qed.

(** X18: what the electric counter holds after [n] frames at one speed is
    the number of times its particles passed the end of the path: for each
    particle the number of multiples of 1000 in the stretch of unwrapped
    progress it covered.  So when the particles cover whole laps the count
    is exactly the laps times the number of particles, and in general it
    differs from the distance covered over 1000, times the number of
    particles, by at most one crossing per particle. *)
Theorem X18_counter_counts_laps :
  forall speed n ps,
    0 <= speed < 100 ->
    Forall (fun p => 0 <= progress p) ps ->
    electricBucket speed n ps = electricPassed (INR n * speed) ps
    /\ (forall m, INR n * speed = 1000 * IZR m ->
        electricBucket speed n ps = (m * Z.of_nat (length ps))%Z)
    /\ Rabs (IZR (electricBucket speed n ps)
             - INR (length ps) * (INR n * speed / 1000))
       <= INR (length ps).
Proof.
  intros speed n ps Hs Hps.
  pose proof (electric_bucket_passed speed n Hs ps Hps) as Hb.
  split; [assumption |]. split.
  - intros m Hm. rewrite Hb, Hm. apply electric_passed_laps.
  - rewrite Hb. apply electric_passed_near.
Qed.

(** 500 frames at full voltage (speed 4) take the 30 seeded particles
    round twice: 60 crossings. *)
Lemma X18_counter_counts_laps_witness :
  electricBucket 4 500 (seedEntities 30 1000) = 60%Z.
Proof.
  destruct (X18_counter_counts_laps 4 500 (seedEntities 30 1000))
    as [_ [Hlaps _]].
  - lra.
  - apply seed_ids_progress; [lia | lra].
  - rewrite (Hlaps 2%Z).
    + reflexivity.
    + change 500%nat with (Z.to_nat 500).
      rewrite INR_IZR_INZ. rewrite Z2Nat.id by lia. lra.
Defined.

End BucketFacts.

(* ================================================================== *)
(** * The bulb of the electric circuit *)

Section BulbFacts.

Import ElectricView.

Lemma pow_positive (base exponent : R) :
  0 < base -> 0 < JSMath.pow base exponent.
Proof.
  intros Hb. unfold JSMath.pow.
  destruct (Req_dec_T base 0); [lra |].
  unfold Rpower. apply exp_pos.
Qed.

Lemma pow_zero (exponent : R) : JSMath.pow 0 exponent = 0.
Proof.
  unfold JSMath.pow. destruct (Req_dec_T 0 0); [reflexivity | contradiction].
Qed.

Lemma ln_unit (base : R) : 0 < base <= 1 -> ln base <= 0.
Proof.
  intros [Hpos Hle]. destruct (Rle_lt_or_eq_dec _ _ Hle) as [Hlt | ->].
  - pose proof (ln_increasing base 1 Hpos Hlt) as H. rewrite ln_1 in H. lra.
  - rewrite ln_1. lra.
Qed.

Lemma exp_monotone (a b : R) : a <= b -> exp a <= exp b.
Proof.
  intros Hle. destruct (Rle_lt_or_eq_dec _ _ Hle) as [Hlt | ->].
  - left. now apply exp_increasing.
  - right. reflexivity.
Qed.

Lemma pow_unit (base exponent : R) :
  0 <= base <= 1 -> 0 < exponent -> 0 <= JSMath.pow base exponent <= 1.
Proof.
  intros [H0 H1] He. unfold JSMath.pow.
  destruct (Req_dec_T base 0); [lra |].
  unfold Rpower. split; [left; apply exp_pos |].
  rewrite <- exp_0. apply exp_monotone.
  assert (Hln : ln base <= 0) by (apply ln_unit; lra).
  nra.
Qed.

Lemma pow_increasing (a b exponent : R) :
  0 <= a < b -> 0 < exponent ->
  JSMath.pow a exponent < JSMath.pow b exponent.
Proof.
  intros [Ha Hab] He.
  destruct (Req_dec_T a 0) as [-> | Hne].
  - rewrite pow_zero. now apply pow_positive.
  - unfold JSMath.pow.
    destruct (Req_dec_T a 0); [contradiction |].
    destruct (Req_dec_T b 0); [lra |].
    unfold Rpower. apply exp_increasing.
    assert (Hln : ln a < ln b) by (apply ln_increasing; lra).
    nra.
Qed.

Lemma pow_exponent (base e1 e2 : R) :
  0 <= base <= 1 -> e1 <= e2 -> JSMath.pow base e2 <= JSMath.pow base e1.
Proof.
  intros [H0 H1] He. unfold JSMath.pow.
  destruct (Req_dec_T base 0); [lra |].
  unfold Rpower. apply exp_monotone.
  assert (Hln : ln base <= 0) by (apply ln_unit; lra).
  nra.
Qed.

(** X19: for every slider setting (voltage 0..100, wire width 10..100)
    the bulb is drawn with sensible values: the filament's lightness
    stays within 50..95 per cent and its stroke within 1.8..7.5; both glow
    opacities are valid alpha values, the inner at most 0.9 and the outer
    at most 0.7 and never above the inner; the inner glow circle is
    smaller than the outer one and the outer never exceeds radius 60.
    The glow is drawn only above voltage 1 and is then visible (both
    opacities positive), and a higher voltage gives a strictly brighter
    and larger glow. *)
Theorem X19_bulb_rendering :
  (forall voltage wireWidth,
      0 <= voltage <= 100 -> 10 <= wireWidth <= 100 ->
      50 <= filamentBrightness voltage <= 95
      /\ 1.8 <= filamentStrokeWidth voltage wireWidth <= 7.5
      /\ 0 <= innerGlowOpacity voltage <= 0.9
      /\ 0 <= outerGlowOpacity voltage <= 0.7
      /\ outerGlowOpacity voltage <= innerGlowOpacity voltage
      /\ 15 <= innerGlowRadius voltage
      /\ innerGlowRadius voltage < outerGlowRadius voltage
      /\ outerGlowRadius voltage <= 60
      /\ (glowShown voltage = true ->
          0 < innerGlowOpacity voltage /\ 0 < outerGlowOpacity voltage))
  /\ (forall v1 v2,
      0 <= v1 -> v1 < v2 ->
      innerGlowOpacity v1 < innerGlowOpacity v2
      /\ outerGlowOpacity v1 < outerGlowOpacity v2
      /\ innerGlowRadius v1 < innerGlowRadius v2
      /\ outerGlowRadius v1 < outerGlowRadius v2
      /\ filamentBrightness v1 < filamentBrightness v2).
Proof.
  split.
  - intros voltage wireWidth Hv Hw.
    unfold filamentBrightness, filamentStrokeWidth, baseFilamentWidth,
      innerGlowOpacity, outerGlowOpacity, innerGlowRadius, outerGlowRadius,
      glowShown, normalizedWireWidth.
    assert (Hn : 0 <= normalizedVoltage voltage <= 1)
      by (unfold normalizedVoltage; lra).
    pose proof (pow_unit (normalizedVoltage voltage) 1.2 Hn ltac:(lra)) as Hi.
    pose proof (pow_unit (normalizedVoltage voltage) 1.7 Hn ltac:(lra)) as Ho.
    pose proof (pow_exponent (normalizedVoltage voltage) 1.2 1.7 Hn ltac:(lra))
      as Hio.
    repeat (split; [lra |]).
    intros Hshown. destruct (Rgt_dec voltage 1) as [Hgt | ]; [| discriminate].
    assert (Hpos : 0 < normalizedVoltage voltage)
      by (unfold normalizedVoltage; lra).
    pose proof (pow_positive (normalizedVoltage voltage) 1.2 Hpos).
    pose proof (pow_positive (normalizedVoltage voltage) 1.7 Hpos).
    lra.
  - intros v1 v2 H1 H12.
    unfold filamentBrightness, innerGlowOpacity, outerGlowOpacity,
      innerGlowRadius, outerGlowRadius.
    assert (Hn : 0 <= normalizedVoltage v1 < normalizedVoltage v2)
      by (unfold normalizedVoltage; lra).
    pose proof (pow_increasing _ _ 1.2 Hn ltac:(lra)).
    pose proof (pow_increasing _ _ 1.7 Hn ltac:(lra)).
    repeat split; lra.
Qed.

(** Half voltage on the narrowest wire. *)
Lemma X19_bulb_rendering_witness :
  50 <= filamentBrightness 50 <= 95
  /\ innerGlowRadius 50 < outerGlowRadius 50.
Proof.
  destruct (proj1 X19_bulb_rendering 50 10) as (Hb & _ & _ & _ & _ & _ & Hr & _);
    [lra | lra |].
  split; assumption.
Defined.

End BulbFacts.

(* ================================================================== *)
(** * Crossings, frame by frame *)

Section FrameCrossings.

(** ** What the map of one frame logs *)

Lemma water_step_stamps (gravity pump : R) (clock : nat -> R)
  (ps : list Particle) :
  forall i log spin,
    snd (fst (Water.stepParticles gravity pump true clock i ps log spin))
    = log ++ stampsDue 450 (Water.speedAt gravity pump) clock i ps.
Proof.
  induction ps as [| p rest IH]; intros i log spin.
  - cbn. now rewrite app_nil_r.
  - cbn [Water.stepParticles Water.updateParticle stampsDue].
    match goal with
    | |- context [Water.stepParticles gravity pump true clock (S i) rest ?l ?b] =>
        specialize (IH (S i) l b);
        destruct (Water.stepParticles gravity pump true clock (S i) rest l b)
          as [[rest' logF] spinF]
    end.
    cbn [fst snd] in *. subst logF.
    unfold Water.CROSSING_POINT, Water.TOTAL_PATH_LENGTH, Rolling.crossed.
    destruct (Rlt_dec (JS.rem (progress p) 1000) 450); [| reflexivity].
    destruct (Rge_dec _ 450); destruct (Rle_dec 450 _);
      try (exfalso; lra); cbn [app]; now rewrite <- ?app_assoc.
Qed.

Lemma playground_step_stamps (slide running elevator : R) (clock : nat -> R)
  (ks : list Kid) :
  forall i log,
    snd (Playground.stepKids slide running elevator true clock i ks log)
    = log ++ stampsDue 450 (Playground.speedAt slide running elevator)
               clock i ks.
Proof.
  induction ks as [| k rest IH]; intros i log.
  - cbn. now rewrite app_nil_r.
  - cbn [Playground.stepKids Playground.updateKid stampsDue].
    match goal with
    | |- context [Playground.stepKids slide running elevator true clock (S i) rest ?l] =>
        specialize (IH (S i) l);
        destruct (Playground.stepKids slide running elevator true clock (S i) rest l)
          as [rest' logF]
    end.
    cbn [fst snd] in *. subst logF.
    unfold Playground.CROSSING_POINT, Playground.TOTAL_PATH_LENGTH,
      Rolling.crossed.
    destruct (Rlt_dec (JS.rem (progress k) 1000) 450); [| reflexivity].
    destruct (Rge_dec _ 450); destruct (Rle_dec 450 _);
      try (exfalso; lra); cbn [app]; now rewrite <- ?app_assoc.
Qed.

(** ** Counting the readings *)








Lemma electric_passed_between (distance : R) (ps : list Particle) :
  electricPassed distance ps
  = passedBetween 1000 ps
      (map (fun p => mkParticle (id p) (progress p + distance)) ps).
Proof.
  induction ps as [| p rest IH]; [reflexivity |].
  cbn [electricPassed fold_right map passedBetween progress].
  fold (electricPassed distance rest). now rewrite IH.
Qed.

(** ** Successive maps *)



(** ** Whole frames *)

Lemma water_frame_crossings (now : R) (clock : nat -> R) (s : Water.State) :
  let speedAt :=
    Water.speedAt
      (Water.gravitySpeed (Water.heightDifferenceRef s) (Water.pipeWidthRef s))
      (Water.pumpSpeed (Water.pipeWidthRef s)) in
  exists s',
    Water.runSimulation now clock s = Some s'
    /\ Water.particles s' = advanced speedAt (Water.particles s)
    /\ (Water.measureRateRef s = true ->
        Water.crossingsTimestampsRef s'
        = (if Rolling.due true now (Water.lastUiUpdateTimeRef s)
           then Rolling.retain now (Water.crossingsTimestampsRef s)
           else Water.crossingsTimestampsRef s)
          ++ stampsDue 450 speedAt clock 0 (Water.particles s))
    /\ (Water.measureRateRef s = false ->
        Water.crossingsTimestampsRef s' = Water.crossingsTimestampsRef s).
Proof.
  intros speedAt. subst speedAt.
  destruct (water_frame now clock s) as [display [_ Heq]].
  eexists. split; [exact Heq |].
  cbn [Water.particles Water.crossingsTimestampsRef].
  split; [apply water_step_map |]. split; intros Href; rewrite Href.
  - apply water_step_stamps.
  - cbn [Rolling.due]. apply water_step_idle.
Qed.

Lemma playground_frame_crossings (now : R) (clock : nat -> R)
  (s : Playground.State) :
  let speedAt :=
    Playground.speedAt
      (Playground.slideSpeed (Playground.slideHeightRef s)
         (Playground.slideWidthRef s))
      (Playground.runSpeed (Playground.slideWidthRef s))
      (Playground.elevatorSpeed (Playground.slideWidthRef s)) in
  exists s',
    Playground.runSimulation now clock s = Some s'
    /\ Playground.kids s' = advanced speedAt (Playground.kids s)
    /\ (Playground.measureRateRef s = true ->
        Playground.crossingsTimestampsRef s'
        = (if Rolling.due true now (Playground.lastUiUpdateTimeRef s)
           then Rolling.retain now (Playground.crossingsTimestampsRef s)
           else Playground.crossingsTimestampsRef s)
          ++ stampsDue 450 speedAt clock 0 (Playground.kids s))
    /\ (Playground.measureRateRef s = false ->
        Playground.crossingsTimestampsRef s'
        = Playground.crossingsTimestampsRef s).
Proof.
  intros speedAt. subst speedAt.
  destruct (playground_frame now clock s) as [display [_ Heq]].
  eexists. split; [exact Heq |].
  cbn [Playground.kids Playground.crossingsTimestampsRef].
  split; [apply playground_step_map |]. split; intros Href; rewrite Href.
  - apply playground_step_stamps.
  - cbn [Rolling.due]. apply playground_step_idle.
Qed.

Lemma electric_speed_range (s : Electric.State) :
  electricSteady s -> 0 <= Electric.speedOf (Electric.voltage s) < 100.
Proof. intros [Hv _]. unfold Electric.speedOf. lra. Qed.



Lemma electric_reached_steady (t0 : R) (events : list Electric.Event) :
  Forall electricInput events ->
  electricSteady (Electric.run (Electric.initialState t0) events).
Proof.
  intros Hin. apply electric_steady_run; [assumption |].
  apply electric_steady_initial.
Qed.




End FrameCrossings.

(* ================================================================== *)
(** * The rolling window over a running clock *)

Section RollingWindow.

(** ** Subsequences *)

Lemma subsequence_refl (l : list R) : subsequence l l.
Proof. induction l; constructor; assumption. Qed.

Lemma subsequence_empty (l : list R) : subsequence [] l.
Proof. induction l; constructor; assumption. Qed.

Lemma subsequence_app (a b c d : list R) :
  subsequence a b -> subsequence c d -> subsequence (a ++ c) (b ++ d).
Proof.
  intros Hab Hcd. induction Hab; cbn [app]; try constructor; assumption.
Qed.

Lemma subsequence_In (a b : list R) (t : R) :
  subsequence a b -> In t a -> In t b.
Proof.
  intros Hab. induction Hab as [| u l m _ IH | u l m _ IH]; cbn [In].
  - trivial.
  - intros [-> | Hin]; [now left | right; now apply IH].
  - intros Hin. right. now apply IH.
Qed.

Lemma subsequence_sorted (a b : list R) :
  subsequence a b -> StronglySorted Rle b -> StronglySorted Rle a.
Proof.
  intros Hab. induction Hab as [| u l m Hlm IH | u l m Hlm IH]; intros Hb.
  - constructor.
  - apply StronglySorted_inv in Hb. destruct Hb as [Hm Hu].
    constructor; [now apply IH |].
    apply Forall_forall. intros t Ht.
    rewrite Forall_forall in Hu. apply Hu.
    now apply (subsequence_In l m).
  - apply StronglySorted_inv in Hb. now apply IH.
Qed.

Lemma retain_subsequence (now : R) (log : list R) :
  subsequence (Rolling.retain now log) log.
Proof.
  unfold Rolling.retain. induction log as [| t rest IH]; [constructor |].
  cbn [filter]. destruct (Rge_dec t (now - 5000)); constructor; assumption.
Qed.

Lemma stamps_subsequence (point : R) (speedAt : R -> R) (clock : nat -> R)
  (ps : list Particle) :
  forall i,
    subsequence (stampsDue point speedAt clock i ps)
                (map clock (seq i (length ps))).
Proof.
  induction ps as [| p rest IH]; intros i; [constructor |].
  cbn [stampsDue length seq map].
  destruct (Rlt_dec _ point); [destruct (Rle_dec point _) |];
    cbn [app]; constructor; apply IH.
Qed.

(** ** Pruning, exactly *)

Lemma retain_single (now t : R) :
  (t >= now - 5000 -> Rolling.retain now [t] = [t])
  /\ (t < now - 5000 -> Rolling.retain now [t] = []).
Proof.
  unfold Rolling.retain. cbn [filter].
  destruct (Rge_dec t (now - 5000)); split; intros H; try reflexivity; lra.
Qed.

(** From a log in the order of the clock, pruning takes a front part. *)
Lemma retain_suffix (now : R) (log : list R) :
  chronological log ->
  exists stale,
    log = stale ++ Rolling.retain now log
    /\ Forall (fun t => t < now - 5000) stale.
Proof.
  unfold chronological. induction log as [| t rest IH]; intros Hsorted.
  - exists []. split; [reflexivity | constructor].
  - apply StronglySorted_inv in Hsorted. destruct Hsorted as [Hrest Ht].
    destruct (Rge_dec t (now - 5000)) as [Hin | Hout].
    + exists []. split; [| constructor]. cbn [app]. symmetry.
      apply retain_keeps. constructor; [assumption |].
      apply Forall_forall. intros u Hu.
      rewrite Forall_forall in Ht. specialize (Ht u Hu). lra.
    + destruct (IH Hrest) as [stale [Hlog Hstale]].
      exists (t :: stale). split.
      * unfold Rolling.retain. cbn [filter app].
        destruct (Rge_dec t (now - 5000)); [contradiction |].
        fold (Rolling.retain now rest). now rewrite <- Hlog.
      * constructor; [lra | assumption].
Qed.

Lemma retain_chronological (now : R) (log : list R) :
  chronological log -> chronological (Rolling.retain now log).
Proof. apply subsequence_sorted, retain_subsequence. Qed.

(** In a log in the order of the clock the first entry is the oldest and
    the last the newest. *)
Lemma chronological_ends (first : R) (middle : list R) (lastT : R) :
  chronological (first :: middle ++ [lastT]) ->
  Forall (fun t => first <= t <= lastT) (first :: middle ++ [lastT]).
Proof.
  unfold chronological. intros Hsorted.
  assert (Hlast : forall l : list R,
             StronglySorted Rle (l ++ [lastT]) ->
             Forall (fun t => t <= lastT) (l ++ [lastT])).
  { induction l as [| u l' IH]; cbn [app]; intros Hl.
    - constructor; [lra | constructor].
    - apply StronglySorted_inv in Hl. destruct Hl as [Hl' Hu].
      constructor; [| now apply IH].
      rewrite Forall_forall in Hu. apply Hu.
      apply in_or_app. right. now left. }
  specialize (Hlast (first :: middle) Hsorted). cbn [app] in Hlast.
  apply StronglySorted_inv in Hsorted. destruct Hsorted as [_ Hfirst].
  inversion Hlast as [| ? ? Hf Hrest]; subst.
  constructor; [lra |].
  apply Forall_forall. intros t Ht.
  rewrite Forall_forall in Hfirst, Hrest.
  split; [now apply Hfirst | now apply Hrest].
Qed.

Lemma estimate_example_twice :
  Playground.estimate 1000 [0; 0; 1000] = Some ([0; 0; 1000], 2).
Proof.
  unfold Playground.estimate.
  assert (Hkeep : Rolling.retain 1000 [0; 0; 1000] = [0; 0; 1000])
    by (apply retain_keeps; repeat constructor; lra).
  assert (Hspan : Rolling.timeSpanSeconds [0; 0; 1000] = (1000 - 0) / 1000)
    by exact (span_ends 0 [0] 1000).
  rewrite Hkeep, rate_quotient.
  - do 2 f_equal. rewrite Hspan. simpl. field.
  - simpl. lia.
  - rewrite Hspan. lra.
Qed.

(** ** The log stays in the order of the clock *)

Lemma water_setMeasureRate_log (b : bool) (now : R) (s : Water.State) :
  subsequence (Water.crossingsTimestampsRef (Water.setMeasureRate b now s))
              (Water.crossingsTimestampsRef s).
Proof.
  destruct s as [playing h w rotation measuring shown ps href wref log lastUi mref].
  unfold Water.setMeasureRate, Water.measureRateEffect. cbn.
  destruct b, measuring; cbn;
    first [apply subsequence_refl | apply subsequence_empty].
Qed.

Lemma playground_setMeasureRate_log (b : bool) (now : R) (s : Playground.State) :
  subsequence
    (Playground.crossingsTimestampsRef (Playground.setMeasureRate b now s))
    (Playground.crossingsTimestampsRef s).
Proof.
  destruct s as [playing h w measuring shown ks href wref log lastUi mref].
  unfold Playground.setMeasureRate, Playground.measureRateEffect. cbn.
  destruct b, measuring; cbn;
    first [apply subsequence_refl | apply subsequence_empty].
Qed.

Lemma water_reset_log (now : R) (s : Water.State) :
  subsequence (Water.crossingsTimestampsRef (Water.handleReset now s))
              (Water.crossingsTimestampsRef s).
Proof.
  destruct s as [playing h w rotation measuring shown ps href wref log lastUi mref].
  destruct measuring; cbn;
    first [apply subsequence_refl | apply subsequence_empty].
Qed.

Lemma playground_reset_log (now : R) (s : Playground.State) :
  subsequence (Playground.crossingsTimestampsRef (Playground.handleReset now s))
              (Playground.crossingsTimestampsRef s).
Proof.
  destruct s as [playing h w measuring shown ks href wref log lastUi mref].
  destruct measuring; cbn;
    first [apply subsequence_refl | apply subsequence_empty].
Qed.

Lemma subsequence_front (a b c : list R) :
  subsequence a b -> subsequence a (b ++ c).
Proof.
  intros Hab. rewrite <- (app_nil_r a).
  apply subsequence_app; [assumption | apply subsequence_empty].
Qed.

Lemma ids_length (count : Z) (total : R) (ps : list Particle) :
  map id ps = map id (seedEntities count total) ->
  length ps = Z.to_nat count.
Proof.
  intros Hids. apply (f_equal (@length Z)) in Hids.
  now rewrite !length_map, seed_length in Hids.
Qed.

Lemma water_step_log_order (s s' : Water.State) (e : Water.Event) :
  Water.step s e = Some s' ->
  length (Water.particles s) = Z.to_nat Water.PARTICLE_COUNT ->
  subsequence (Water.crossingsTimestampsRef s')
              (Water.crossingsTimestampsRef s ++ waterReadings e).
Proof.
  intros Hstep Hlen. destruct e; cbn [Water.step waterReadings] in *.
  - destruct (Water.isPlaying s).
    + destruct (water_frame_crossings now clock s) as [s1 [Hrun [_ [Hon Hoff]]]].
      rewrite Hrun in Hstep. injection Hstep as <-.
      destruct (Water.measureRateRef s).
      * rewrite (Hon eq_refl). apply subsequence_app.
        -- destruct (Rolling.due true now (Water.lastUiUpdateTimeRef s));
             [apply retain_subsequence | apply subsequence_refl].
        -- constructor. rewrite <- Hlen. apply stamps_subsequence.
      * rewrite (Hoff eq_refl). apply subsequence_front, subsequence_refl.
    + injection Hstep as <-. apply subsequence_front, subsequence_refl.
  - injection Hstep as <-. rewrite app_nil_r. apply subsequence_refl.
  - injection Hstep as <-. rewrite app_nil_r. apply subsequence_refl.
  - injection Hstep as <-. apply subsequence_front, water_setMeasureRate_log.
  - injection Hstep as <-. rewrite app_nil_r. apply subsequence_refl.
  - injection Hstep as <-. apply subsequence_front, water_reset_log.
Qed.

Lemma playground_step_log_order (s s' : Playground.State)
  (e : Playground.Event) :
  Playground.step s e = Some s' ->
  length (Playground.kids s) = Z.to_nat Playground.KID_COUNT ->
  subsequence (Playground.crossingsTimestampsRef s')
              (Playground.crossingsTimestampsRef s ++ playgroundReadings e).
Proof.
  intros Hstep Hlen. destruct e; cbn [Playground.step playgroundReadings] in *.
  - destruct (Playground.isPlaying s).
    + destruct (playground_frame_crossings now clock s)
        as [s1 [Hrun [_ [Hon Hoff]]]].
      rewrite Hrun in Hstep. injection Hstep as <-.
      destruct (Playground.measureRateRef s).
      * rewrite (Hon eq_refl). apply subsequence_app.
        -- destruct (Rolling.due true now (Playground.lastUiUpdateTimeRef s));
             [apply retain_subsequence | apply subsequence_refl].
        -- constructor. rewrite <- Hlen. apply stamps_subsequence.
      * rewrite (Hoff eq_refl). apply subsequence_front, subsequence_refl.
    + injection Hstep as <-. apply subsequence_front, subsequence_refl.
  - injection Hstep as <-. rewrite app_nil_r. apply subsequence_refl.
  - injection Hstep as <-. rewrite app_nil_r. apply subsequence_refl.
  - injection Hstep as <-.
    apply subsequence_front, playground_setMeasureRate_log.
  - injection Hstep as <-. rewrite app_nil_r. apply subsequence_refl.
  - injection Hstep as <-. apply subsequence_front, playground_reset_log.
Qed.

Lemma water_run_log_order (es : list Water.Event) :
  forall s s',
    Water.run s es = Some s' ->
    map id (Water.particles s)
    = map id (seedEntities Water.PARTICLE_COUNT Water.TOTAL_PATH_LENGTH) ->
    chronological (Water.crossingsTimestampsRef s ++ flat_map waterReadings es) ->
    chronological (Water.crossingsTimestampsRef s').
Proof.
  unfold chronological.
  induction es as [| e rest IH]; intros s s' Hrun Hids Hsorted;
    cbn [Water.run flat_map] in *.
  - injection Hrun as <-. now rewrite app_nil_r in Hsorted.
  - destruct (Water.step s e) as [s1 |] eqn:Hstep; [| discriminate].
    apply (IH s1 s' Hrun).
    + now apply (water_ids_step s s1 e).
    + apply (subsequence_sorted _ _
               (subsequence_app _ _ _ _
                  (water_step_log_order s s1 e Hstep (ids_length _ _ _ Hids))
                  (subsequence_refl (flat_map waterReadings rest)))).
      now rewrite <- app_assoc.
Qed.

Lemma playground_run_log_order (es : list Playground.Event) :
  forall s s',
    Playground.run s es = Some s' ->
    map id (Playground.kids s)
    = map id (seedEntities Playground.KID_COUNT Playground.TOTAL_PATH_LENGTH) ->
    chronological
      (Playground.crossingsTimestampsRef s ++ flat_map playgroundReadings es) ->
    chronological (Playground.crossingsTimestampsRef s').
Proof.
  unfold chronological.
  induction es as [| e rest IH]; intros s s' Hrun Hids Hsorted;
    cbn [Playground.run flat_map] in *.
  - injection Hrun as <-. now rewrite app_nil_r in Hsorted.
  - destruct (Playground.step s e) as [s1 |] eqn:Hstep; [| discriminate].
    apply (IH s1 s' Hrun).
    + now apply (playground_ids_step s s1 e).
    + apply (subsequence_sorted _ _
               (subsequence_app _ _ _ _
                  (playground_step_log_order s s1 e Hstep
                     (ids_length _ _ _ Hids))
                  (subsequence_refl (flat_map playgroundReadings rest)))).
      now rewrite <- app_assoc.
Qed.

Lemma water_reached_log_order (t0 : R) (events : list Water.Event)
  (s : Water.State) :
  chronological (flat_map waterReadings events) ->
  Water.run (Water.initialState t0) events = Some s ->
  chronological (Water.crossingsTimestampsRef s).
Proof.
  intros Hclock Hrun.
  apply (water_run_log_order events (Water.initialState t0) s Hrun);
    [reflexivity | exact Hclock].
Qed.

Lemma playground_reached_log_order (t0 : R) (events : list Playground.Event)
  (s : Playground.State) :
  chronological (flat_map playgroundReadings events) ->
  Playground.run (Playground.initialState t0) events = Some s ->
  chronological (Playground.crossingsTimestampsRef s).
Proof.
  intros Hclock Hrun.
  apply (playground_run_log_order events (Playground.initialState t0) s Hrun);
    [reflexivity | exact Hclock].
Qed.

Lemma rate_ends (first : R) (middle : list R) (lastT : R) :
  (lastT > first ->
   Rolling.rate (first :: middle ++ [lastT])
   = Some ((INR (length (first :: middle ++ [lastT])) - 1)
           / ((lastT - first) / 1000)))
  /\ (lastT <= first -> Rolling.rate (first :: middle ++ [lastT]) = Some 0).
Proof.
  pose proof (span_ends first middle lastT) as Hspan. split; intros Hends.
  - rewrite rate_quotient, Hspan; [reflexivity | |].
    + cbn [length]. rewrite length_app. cbn [length]. lia.
    + rewrite Hspan. lra.
  - apply rate_flat. rewrite Hspan. lra.
Qed.

(** C4: an estimation pass keeps the logged timestamps that are not older
    than [now - 5000], each as often as it was logged and in the order
    logged, and computes from them the rate [(count - 1) /
    timeSpanSeconds], the span running from the first to the last
    retained timestamp, or 0 when fewer than two remain or the span is not
    positive; water shows it times the volume per particle, the playground
    as it is.  With a clock that never runs backwards the log of every
    reachable state is in the order of the clock, so the pass drops a
    front part of the log, all of it older than 5 seconds, and keeps the
    rest, whose first entry is the oldest and whose last is the newest.
    [0; 1000; 2000] at 2000 gives the rate 1, a single timestamp gives 0,
    [0; 0; 1000] gives 2.  A frame runs the pass only when measurement is
    on and more than 100 ms have gone by since the last pass, and then
    sets the time of the last pass to [now]. *)
Theorem C4_rolling_window :
  (forall now log t,
      In t (Rolling.retain now log) <-> In t log /\ t >= now - 5000)
  /\ (forall now a b,
      Rolling.retain now (a ++ b)
      = Rolling.retain now a ++ Rolling.retain now b)
  /\ (forall now t,
      (t >= now - 5000 -> Rolling.retain now [t] = [t])
      /\ (t < now - 5000 -> Rolling.retain now [t] = []))
  /\ (forall now log,
      chronological log ->
      chronological (Rolling.retain now log)
      /\ exists stale,
           log = stale ++ Rolling.retain now log
           /\ Forall (fun t => t < now - 5000) stale)
  /\ (forall first middle lastT,
      chronological (first :: middle ++ [lastT]) ->
      Forall (fun t => first <= t <= lastT) (first :: middle ++ [lastT]))
  /\ (forall now log,
      exists rate,
        Rolling.rate (Rolling.retain now log) = Some rate
        /\ Water.estimate now log
           = Some (Rolling.retain now log, rate * Water.VOLUME_PER_PARTICLE)
        /\ Playground.estimate now log = Some (Rolling.retain now log, rate))
  /\ (forall recent,
      (2 <= length recent)%nat ->
      Rolling.timeSpanSeconds recent > 0 ->
      Rolling.rate recent
      = Some ((INR (length recent) - 1) / Rolling.timeSpanSeconds recent))
  /\ (forall first middle lastT,
      Rolling.timeSpanSeconds (first :: middle ++ [lastT])
      = (lastT - first) / 1000)
  /\ (forall first middle lastT,
      (lastT > first ->
       Rolling.rate (first :: middle ++ [lastT])
       = Some ((INR (length (first :: middle ++ [lastT])) - 1)
               / ((lastT - first) / 1000)))
      /\ (lastT <= first ->
          Rolling.rate (first :: middle ++ [lastT]) = Some 0))
  /\ (forall recent, (length recent < 2)%nat -> Rolling.rate recent = Some 0)
  /\ Playground.estimate 2000 [0; 1000; 2000] = Some ([0; 1000; 2000], 1)
  /\ Water.estimate 2000 [0; 1000; 2000]
     = Some ([0; 1000; 2000], 1 * Water.VOLUME_PER_PARTICLE)
  /\ Playground.estimate 1000 [0; 0; 1000] = Some ([0; 0; 1000], 2)
  /\ (forall t, Rolling.rate [t] = Some 0)
  /\ (forall t0 events s,
      chronological (flat_map waterReadings events) ->
      Water.run (Water.initialState t0) events = Some s ->
      chronological (Water.crossingsTimestampsRef s))
  /\ (forall t0 events s,
      chronological (flat_map playgroundReadings events) ->
      Playground.run (Playground.initialState t0) events = Some s ->
      chronological (Playground.crossingsTimestampsRef s))
  /\ (forall now clock s,
      exists s',
        Water.runSimulation now clock s = Some s'
        /\ (Water.measureRateRef s = true ->
            now - Water.lastUiUpdateTimeRef s > 100 ->
            Water.lastUiUpdateTimeRef s' = now
            /\ (exists rate,
                 Rolling.rate
                   (Rolling.retain now (Water.crossingsTimestampsRef s))
                 = Some rate
                 /\ Water.displayRate s' = rate * Water.VOLUME_PER_PARTICLE)
            /\ exists fresh,
                 Water.crossingsTimestampsRef s'
                 = Rolling.retain now (Water.crossingsTimestampsRef s) ++ fresh
                 /\ Forall (fun t => exists j, t = clock j) fresh)
        /\ (~ (Water.measureRateRef s = true
               /\ now - Water.lastUiUpdateTimeRef s > 100) ->
            Water.lastUiUpdateTimeRef s' = Water.lastUiUpdateTimeRef s
            /\ Water.displayRate s' = Water.displayRate s
            /\ exists fresh,
                 Water.crossingsTimestampsRef s'
                 = Water.crossingsTimestampsRef s ++ fresh))
  /\ (forall now clock s,
      exists s',
        Playground.runSimulation now clock s = Some s'
        /\ (Playground.measureRateRef s = true ->
            now - Playground.lastUiUpdateTimeRef s > 100 ->
            Playground.lastUiUpdateTimeRef s' = now
            /\ Rolling.rate
                 (Rolling.retain now (Playground.crossingsTimestampsRef s))
               = Some (Playground.displayRate s')
            /\ exists fresh,
                 Playground.crossingsTimestampsRef s'
                 = Rolling.retain now (Playground.crossingsTimestampsRef s)
                   ++ fresh
                 /\ Forall (fun t => exists j, t = clock j) fresh)
        /\ (~ (Playground.measureRateRef s = true
               /\ now - Playground.lastUiUpdateTimeRef s > 100) ->
            Playground.lastUiUpdateTimeRef s' = Playground.lastUiUpdateTimeRef s
            /\ Playground.displayRate s' = Playground.displayRate s
            /\ exists fresh,
                 Playground.crossingsTimestampsRef s'
                 = Playground.crossingsTimestampsRef s ++ fresh)).
Proof.
  split; [exact retain_In |].
  split; [exact retain_app |].
  split; [exact retain_single |].
  split.
  { intros now log Hlog.
    split; [now apply retain_chronological | now apply retain_suffix]. }
  split; [exact chronological_ends |].
  split.
  { intros now log. unfold Water.estimate, Playground.estimate.
    destruct (rate_total (Rolling.retain now log)) as [rate ->].
    exists rate. auto. }
  split; [exact rate_quotient |].
  split; [exact span_ends |].
  split; [exact rate_ends |].
  split; [exact rate_few |].
  split.
  { unfold Playground.estimate. now rewrite retain_example, rate_example. }
  split.
  { unfold Water.estimate. now rewrite retain_example, rate_example. }
  split; [exact estimate_example_twice |].
  split.
  { intros t. apply rate_few. simpl. lia. }
  split; [exact water_reached_log_order |].
  split; [exact playground_reached_log_order |].
  split; [exact water_frame_pass | exact playground_frame_pass].
Qed.

(** A log of three crossings pruned at 7000, where the first two have
    gone stale; and the log of the water circuit after measurement was
    switched on at 0 and a frame ran at 16, its map reading the clock
    at 17. *)
Lemma C4_rolling_window_witness :
  (exists stale,
      [0; 1000; 7000] = stale ++ Rolling.retain 7000 [0; 1000; 7000]
      /\ Forall (fun t => t < 7000 - 5000) stale)
  /\ Rolling.rate [0; 1000; 2000; 3000]
     = Some ((INR (length [0; 1000; 2000; 3000]) - 1) / ((3000 - 0) / 1000))
  /\ exists s,
      Water.run (Water.initialState 0)
        [Water.SetMeasureRate true 0; Water.Frame 16 (fun _ => 17)] = Some s
      /\ chronological (Water.crossingsTimestampsRef s).
Proof.
  destruct C4_rolling_window
    as (_ & _ & _ & Hsuffix & _ & _ & _ & _ & Hends & _ & _ & _ & _ & _
        & Hwater & _).
  split; [| split].
  - apply (Hsuffix 7000 [0; 1000; 7000]).
    unfold chronological.
    repeat first [apply SSorted_nil | apply SSorted_cons | apply Forall_nil
                 | apply Forall_cons; [lra |]].
  - apply (proj1 (Hends 0 [1000; 2000] 3000)). lra.
  - destruct (water_run_total
                [Water.SetMeasureRate true 0; Water.Frame 16 (fun _ => 17)]
                (Water.initialState 0)) as [s Hrun].
    exists s. split; [exact Hrun |].
    apply (Hwater 0 [Water.SetMeasureRate true 0; Water.Frame 16 (fun _ => 17)]
             s); [| exact Hrun].
    unfold chronological. cbn [flat_map waterReadings app].
    change (Z.to_nat Water.PARTICLE_COUNT) with 40%nat.
    cbn [seq map].
    repeat first [apply SSorted_nil | apply SSorted_cons | apply Forall_nil
                 | apply Forall_cons; [lra |]].
Defined.

End RollingWindow.

(* ================================================================== *)
(** * The one-second bucket of the electric circuit *)

Section BucketReport.

Import Electric.

(** The report that closes a bucket shows what was counted before the
    frames given and what the particles passed in them. *)
Lemma electric_report_passed (nows : list R) (now : R) (s : State) :
  electricSteady s -> measureRateRef s = true ->
  Forall (fun t => t - lastMeasureTime s < 1000) nows ->
  now - lastMeasureTime s >= 1000 ->
  displayRate (runSimulation now (electricFrames nows s))
  = IZR (particlesCrossed s
         + electricPassed (INR (length nows) * speedOf (voltage s))
             (particles s))
    * CHARGE_PER_PARTICLE.
Proof.
  intros Hsteady Href Hall Hdue.
  pose proof (electric_speed_range s Hsteady) as Hspeed.
  destruct Hsteady as [_ [_ Hps]].
  destruct (electric_bucket_frames nows s Href Hall)
    as [Href' [_ [Hlast [_ Hcount]]]].
  rewrite electric_frame_report; [| assumption | now rewrite Hlast].
  cbn [displayRate]. rewrite Hcount.
  now rewrite (electric_bucket_passed _ _ Hspeed _ Hps).
Qed.

(** A whole bucket: the frame at [now0] opens it, the frames at [nows]
    fall inside it, the frame at [now1] closes it. *)
Lemma electric_whole_bucket (nows : list R) (now0 now1 : R) (s : State) :
  electricSteady s -> measureRateRef s = true ->
  now0 - lastMeasureTime s >= 1000 ->
  Forall (fun t => t - now0 < 1000) nows ->
  now1 - now0 >= 1000 ->
  displayRate (runSimulation now1 (electricFrames nows (runSimulation now0 s)))
  = IZR (electricPassed (INR (S (length nows)) * speedOf (voltage s))
           (particles s))
    * CHARGE_PER_PARTICLE.
Proof.
  intros Hsteady Href Hopen Hall Hclose.
  pose proof (electric_speed_range s Hsteady) as Hspeed.
  pose proof Hsteady as [Hv [Hw Hps]].
  rewrite (electric_frame_report now0 s Href Hopen).
  set (s0 := mkState _ _ _ _ _ _ _ _ _).
  assert (Hmap : particles s0
                 = map (fun p => mkParticle (id p)
                                   (progress p + speedOf (voltage s)))
                       (particles s))
    by apply electric_step_map.
  assert (Hs0 : electricSteady s0).
  { unfold electricSteady. rewrite Hmap. subst s0. cbn [voltage wireWidth].
    split; [assumption |]. split; [assumption |].
    apply Forall_forall. intros q Hq. apply in_map_iff in Hq.
    destruct Hq as [p [<- Hin]]. cbn [progress].
    rewrite Forall_forall in Hps. specialize (Hps p Hin). lra. }
  rewrite (electric_report_passed nows now1 s0 Hs0 eq_refl Hall Hclose).
  rewrite Hmap. subst s0. cbn [particlesCrossed voltage].
  rewrite (electric_step_passed _ _ Hspeed Hps).
  rewrite electric_passed_chain. do 2 f_equal.
  f_equal. rewrite S_INR. lra.
Qed.

Lemma floor_between (v : R) (z : Z) : IZR z <= v < IZR z + 1 -> JS.floor v = z.
Proof. apply JSFacts.floor_unique. Qed.

(** At speed 2, sixty frames take the last three of the thirty seeded
    particles over the end of the path. *)
Lemma seed_bucket_example :
  electricPassed 120 (seedEntities 30 1000) = 3%Z.
Proof.
  unfold seedEntities. change (Z.to_nat 30) with 30%nat.
  cbn [seq map electricPassed fold_right progress].
  unfold passes.
  repeat match goal with
         | |- context [JS.floor ?v] =>
             first [ rewrite (floor_between v (-1)) by (simpl; lra)
                   | rewrite (floor_between v 0) by (simpl; lra) ]
         end.
  reflexivity.
Qed.

(** C5: while measurement is on, a frame reaching the end of the 1-second
    bucket ([now - lastMeasureTime >= 1000]) shows the counter times the
    charge per particle (0.01), restarts the counter and the bucket, and
    counts its own crossings into the fresh counter; a frame inside the
    bucket only adds its crossings.  In every state the circuit can reach
    with sliders within their ranges, the report that closes a bucket
    therefore shows [N * 0.01], where [N] is the number of times the
    particles passed the end of the path in the frames of the bucket: for
    each particle the multiples of 1000 in the stretch of progress it
    covered in the opening frame and the frames inside.  Switching
    measurement off sets the displayed rate and the counter to 0 at
    once. *)
Theorem C5_instantaneous_bucket :
  CHARGE_PER_PARTICLE = 0.01
  /\ (forall now s,
      measureRateRef s = true ->
      now - lastMeasureTime s >= 1000 ->
      let s' := runSimulation now s in
      displayRate s' = IZR (particlesCrossed s) * CHARGE_PER_PARTICLE
      /\ lastMeasureTime s' = now
      /\ particlesCrossed s'
         = snd (stepParticles (speedOf (voltage s)) true (particles s) 0))
  /\ (forall now s,
      measureRateRef s = true ->
      now - lastMeasureTime s < 1000 ->
      let s' := runSimulation now s in
      displayRate s' = displayRate s
      /\ lastMeasureTime s' = lastMeasureTime s
      /\ particlesCrossed s'
         = (particlesCrossed s
            + snd (stepParticles (speedOf (voltage s))
                     true (particles s) 0))%Z)
  /\ (forall speed ps,
      0 <= speed < 100 -> Forall (fun p => 0 <= progress p) ps ->
      snd (stepParticles speed true ps 0) = electricPassed speed ps)
  /\ (forall t0 events nows now,
      Forall electricInput events ->
      let s := run (initialState t0) events in
      measureRateRef s = true ->
      Forall (fun t => t - lastMeasureTime s < 1000) nows ->
      now - lastMeasureTime s >= 1000 ->
      displayRate (runSimulation now (electricFrames nows s))
      = IZR (particlesCrossed s
             + electricPassed (INR (length nows) * speedOf (voltage s))
                 (particles s))
        * CHARGE_PER_PARTICLE)
  /\ (forall t0 events nows now0 now1,
      Forall electricInput events ->
      let s := run (initialState t0) events in
      measureRateRef s = true ->
      now0 - lastMeasureTime s >= 1000 ->
      Forall (fun t => t - now0 < 1000) nows ->
      now1 - now0 >= 1000 ->
      displayRate
        (runSimulation now1 (electricFrames nows (runSimulation now0 s)))
      = IZR (electricPassed (INR (S (length nows)) * speedOf (voltage s))
               (particles s))
        * CHARGE_PER_PARTICLE)
  /\ (forall now s,
      measureRate s = true ->
      let s' := setMeasureRate false now s in
      displayRate s' = 0
      /\ particlesCrossed s' = 0%Z
      /\ measureRate s' = false
      /\ measureRateRef s' = false).
Proof.
  split; [reflexivity |].
  split.
  { intros now s Href Hdue s'. subst s'.
    rewrite electric_frame_report by assumption. cbn. auto. }
  split.
  { intros now s Href Hin s'. subst s'.
    rewrite electric_frame_inside by assumption. cbn. auto. }
  split; [exact electric_step_passed |].
  split.
  { intros t0 events nows now Hin s Href Hall Hdue. subst s.
    apply electric_report_passed; try assumption.
    now apply electric_reached_steady. }
  split.
  { intros t0 events nows now0 now1 Hin s Href Hopen Hall Hclose. subst s.
    apply electric_whole_bucket; try assumption.
    now apply electric_reached_steady. }
  intros now s Hm s'. subst s'.
  unfold setMeasureRate, measureRateEffect.
  rewrite Hm. cbn. auto.
Qed.

(** Measurement switched on at 0 with the sliders as mounted (speed 2): the
    frame at 1000 opens a bucket, 59 frames 16 ms apart fall inside it, and
    the frame at 2000 reports the three crossings of the bucket as 0.03;
    and measurement switched off. *)
Lemma C5_instantaneous_bucket_witness :
  displayRate
    (runSimulation 2000
       (electricFrames (map (fun i => 1000 + 16 * INR i) (seq 1 59))
          (runSimulation 1000
             (run (initialState 0) [SetMeasureRate true 0]))))
  = IZR 3 * 0.01
  /\ displayRate
       (setMeasureRate false 5 (setMeasureRate true 0 (initialState 0))) = 0.
Proof.
  destruct C5_instantaneous_bucket as (_ & _ & _ & _ & _ & Hbucket & Hoff).
  split.
  - rewrite (Hbucket 0 [SetMeasureRate true 0]
               (map (fun i => 1000 + 16 * INR i) (seq 1 59)) 1000 2000).
    + rewrite length_map, length_seq.
      change (particles (run (initialState 0) [SetMeasureRate true 0]))
        with (seedEntities 30 1000).
      change (voltage (run (initialState 0) [SetMeasureRate true 0]))
        with 50.
      replace (INR 60 * speedOf 50) with 120.
      * now rewrite seed_bucket_example.
      * change 60%nat with (Z.to_nat 60).
        rewrite INR_IZR_INZ, Z2Nat.id by lia. unfold speedOf. lra.
    + repeat constructor.
    + reflexivity.
    + change (lastMeasureTime (run (initialState 0) [SetMeasureRate true 0]))
        with 0.
      lra.
    + apply Forall_forall. intros t Ht. apply in_map_iff in Ht.
      destruct Ht as [i [<- Hi]]. apply in_seq in Hi.
      assert (Hle : INR i <= INR 59) by (apply le_INR; lia).
      assert (H59 : INR 59 = 59).
      { change 59%nat with (Z.to_nat 59).
        now rewrite INR_IZR_INZ, Z2Nat.id by lia. }
      lra.
    + lra.
  - apply (Hoff 5). reflexivity.
Defined.

End BucketReport.
